(** * redis-lru: a shallow embedding of [redis_lru/lru.py]

    The development follows the layout of the Python module:
    - [Py]: the fragment of Python the module relies on (text and byte
      strings, exceptions, [hash], [hex], [int(n * 0.1)]);
    - [Redis]: the commands of the backing store that the module issues
      through its client, over one keyspace with expiry deadlines;
    - [LRU]: [joint_key], [redis_pipeline], [RedisLRUCacheDict] and the
      [redis_lru_cache] decorator, definition by definition;
    - the properties of the engine and of the decorator. *)

From Stdlib Require Import ZArith Lia Ascii.
From stdpp Require Import gmap strings list fin_maps sorting pretty.

Local Open Scope Z_scope.

(* ===================================================================== *)
(** * Python fragment                                                     *)
(* ===================================================================== *)

Module Py.

(** A Python [str] is represented by its UTF-8 encoding and a [bytes]
    object by its bytes; both are Rocq strings, and the constructor tells
    which of the two an object is.  [encode] is therefore the identity on
    the representation, and [decode] checks that the bytes are UTF-8. *)
Inductive pykey :=
  | Str (s : string)
  | Bytes (b : string).

Inductive exn :=
  | KeyError (arg : pykey)
  | AttributeError
  | ValueError
  | RuntimeError
  | TypeError
  | OverflowError
  | UnicodeDecodeError
  | IndexError
  | ResponseError.

Inductive result (A : Type) :=
  | Ok (a : A)
  | Raise (e : exn).
Arguments Ok {A} a.
Arguments Raise {A} e.

Definition bind {A B} (r : result A) (k : A → result B) : result B :=
  match r with
  | Ok a => k a
  | Raise e => Raise e
  end.

(** ** Byte strings *)

(** [b.find(sub)]: index of the leftmost occurrence. *)
Fixpoint find (sub s : string) : option nat :=
  if String.prefix sub s then Some 0%nat
  else match s with
       | EmptyString => None
       | String _ s' => S <$> find sub s'
       end.

(** [sub in b] *)
Definition bytes_in (sub s : string) : bool :=
  match find sub s with
  | Some _ => true
  | None => false
  end.

Fixpoint take_str (n : nat) (s : string) : string :=
  match n, s with
  | S n', String c s' => String c (take_str n' s')
  | _, _ => EmptyString
  end.

Fixpoint drop_str (n : nat) (s : string) : string :=
  match n, s with
  | S n', String _ s' => drop_str n' s'
  | _, _ => s
  end.

(** [b.split(sep, 1)] for a non-empty separator. *)
Definition split1 (sep s : string) : list string :=
  match find sep s with
  | None => [s]
  | Some i => [take_str i s; drop_str (i + String.length sep) s]
  end.

(** [l[1]] *)
Definition item1 (l : list string) : result string :=
  match l with
  | _ :: x :: _ => Ok x
  | _ => Raise IndexError
  end.

(** [b.replace(old, new)] for one-byte [old] and [new]. *)
Fixpoint replace_byte (old new : ascii) (s : string) : string :=
  match s with
  | EmptyString => EmptyString
  | String c s' =>
      String (if Ascii.eqb c old then new else c) (replace_byte old new s')
  end.

(** ** UTF-8: [str.encode()] and [bytes.decode()] *)

Definition encode (s : string) : string := s.

(** The decoder is strict: it accepts the well-formed byte sequences of
    the Unicode standard (no overlong forms, no surrogates, nothing above
    U+10FFFF).  [U_cont n lo hi]: the next byte is a continuation byte in
    [lo..hi], and [n] more continuation bytes follow it. *)
Inductive utf8_state :=
  | U_start
  | U_cont (n : nat) (lo hi : N).

Definition utf8_step (st : utf8_state) (c : ascii) : option utf8_state :=
  let b := N_of_ascii c in
  match st with
  | U_start =>
      if (b <? 0x80)%N then Some U_start
      else if ((0xC2 <=? b) && (b <=? 0xDF))%N then Some (U_cont 0 0x80 0xBF)
      else if (b =? 0xE0)%N then Some (U_cont 1 0xA0 0xBF)
      else if (b =? 0xED)%N then Some (U_cont 1 0x80 0x9F)
      else if ((0xE1 <=? b) && (b <=? 0xEF))%N then Some (U_cont 1 0x80 0xBF)
      else if (b =? 0xF0)%N then Some (U_cont 2 0x90 0xBF)
      else if ((0xF1 <=? b) && (b <=? 0xF3))%N then Some (U_cont 2 0x80 0xBF)
      else if (b =? 0xF4)%N then Some (U_cont 2 0x80 0x8F)
      else None
  | U_cont n lo hi =>
      if ((lo <=? b) && (b <=? hi))%N
      then Some (match n with
                 | O => U_start
                 | S n' => U_cont n' 0x80 0xBF
                 end)
      else None
  end.

Fixpoint utf8_run (st : utf8_state) (s : string) : option utf8_state :=
  match s with
  | EmptyString => Some st
  | String c s' =>
      match utf8_step st c with
      | Some st' => utf8_run st' s'
      | None => None
      end
  end.

Definition utf8_valid (s : string) : bool :=
  match utf8_run U_start s with
  | Some U_start => true
  | _ => false
  end.

Definition decode (b : string) : result string :=
  if utf8_valid b then Ok b else Raise UnicodeDecodeError.

(** ** [repr] of a byte string, which is what ['{}'.format(b)] inserts *)

Definition hex_digit (n : N) : ascii :=
  match String.get (N.to_nat n) "0123456789abcdef" with
  | Some c => c
  | None => "0"%char
  end.

Definition squote : ascii := "'"%char.
Definition dquote : ascii := "034"%char.
Definition backslash : ascii := "\"%char.

Fixpoint has_byte (c : ascii) (s : string) : bool :=
  match s with
  | EmptyString => false
  | String c' s' => Ascii.eqb c c' || has_byte c s'
  end.

Definition repr_quote (b : string) : ascii :=
  if has_byte squote b && negb (has_byte dquote b) then dquote else squote.

Definition repr_byte (quote c : ascii) : string :=
  let n := N_of_ascii c in
  if Ascii.eqb c quote || Ascii.eqb c backslash
  then String backslash (String c EmptyString)
  else if (n =? 9)%N then "\t"
  else if (n =? 10)%N then "\n"
  else if (n =? 13)%N then "\r"
  else if ((n <? 32) || (127 <=? n))%N
  then String backslash
         (String "x" (String (hex_digit (n / 16)) (String (hex_digit (n mod 16)) EmptyString)))
  else String c EmptyString.

Fixpoint repr_body (quote : ascii) (b : string) : string :=
  match b with
  | EmptyString => EmptyString
  | String c b' => repr_byte quote c +:+ repr_body quote b'
  end.

Definition bytes_repr (b : string) : string :=
  let q := repr_quote b in
  String "b" (String q (repr_body q b +:+ String q EmptyString)).

(** ['prefix{}'.format(b)] for a [bytes] argument. *)
Definition format_bytes (prefix b : string) : string :=
  prefix +:+ bytes_repr b.

(** ** [hex] *)

Fixpoint hex_of_N_aux (fuel : nat) (n : N) (acc : string) : string :=
  match fuel with
  | O => acc
  | S fuel' =>
      let acc' := String (hex_digit (n mod 16)) acc in
      if (n / 16 =? 0)%N then acc' else hex_of_N_aux fuel' (n / 16)%N acc'
  end.

Definition hex (n : Z) : string :=
  (if n <? 0 then "-0x" else "0x")
    +:+ hex_of_N_aux (S (N.to_nat (N.log2 (Z.abs_N n)))) (Z.abs_N n) EmptyString.

(** ** Binary floating point, as far as [int(max_size * 0.1)] needs it

    A finite double is [m * 2^e] with [|m| < 2^53] after rounding.
    [round53] rounds a positive integer mantissa to 53 bits, ties to even. *)
Definition round53 (n e : Z) : Z * Z :=
  let bits := Z.log2 n + 1 in
  if bits <=? 53 then (n, e)
  else
    let sh := bits - 53 in
    let q := Z.shiftr n sh in
    let r := Z.land n (Z.ones sh) in
    let half := Z.shiftl 1 (sh - 1) in
    let q' := if (half <? r) || ((r =? half) && Z.odd q) then q + 1 else q in
    (q', e + sh).

Definition round_signed (n e : Z) : Z * Z :=
  let '(m, e') := round53 (Z.abs n) e in (Z.sgn n * m, e').

(** [float(n)] for a Python int; too large an int raises. *)
Definition float_of_int (n : Z) : result (Z * Z) :=
  let '(m, e) := round_signed n 0 in
  if 2 ^ 1024 <=? Z.abs m * 2 ^ e then Raise OverflowError else Ok (m, e).

(** Product of two finite doubles whose result is neither subnormal nor
    infinite (here: a converted int times a constant below one). *)
Definition float_mul (x y : Z * Z) : Z * Z :=
  round_signed (x.1 * y.1) (x.2 + y.2).

(** [int(x)]: truncation toward zero. *)
Definition int_of_float (x : Z * Z) : Z :=
  if 0 <=? x.2 then x.1 * 2 ^ x.2 else Z.quot x.1 (2 ^ (- x.2)).

(** [n * x] for an int [n] and a float [x]. *)
Definition int_times_float (n : Z) (x : Z * Z) : result (Z * Z) :=
  bind (float_of_int n) (λ f, Ok (float_mul f x)).

(** ** Values and [hash] *)

#[warnings="-register-all"] Inductive pyval :=
  | VInt (n : Z)
  | VFloat (m e : Z)        (* the finite double [m * 2^e] *)
  | VStr (s : string)
  | VBytes (b : string)
  | VTuple (items : list pyval)
  | VList (items : list pyval).

(** The interpreter-dependent parts of [hash]: the seeded hashes of text
    and of byte strings, the combination of the item hashes of a tuple and of a frozenset, and
    the identity hash of an object, a function of its address. *)
Record hash_impl := {
  hash_str : string → Z;
  hash_bytes : string → Z;
  hash_tuple : list Z → Z;
  hash_frozenset : list Z → Z;
  hash_pointer : Z → Z
}.

Definition hash_modulus : Z := 2 ^ 61 - 1.

Definition fix_hash (h : Z) : Z := if h =? -1 then -2 else h.

(** Numeric hashing is the same function of the number's value for ints
    and floats: the value reduced modulo [2^61 - 1], with the sign. *)
Definition hash_int (n : Z) : Z :=
  fix_hash (Z.sgn n * (Z.abs n mod hash_modulus)).

Definition hash_float (m e : Z) : Z :=
  fix_hash (Z.sgn m * ((Z.abs m * 2 ^ (e mod 61)) mod hash_modulus)).

Fixpoint mapM_result {A B} (f : A → result B) (l : list A) : result (list B) :=
  match l with
  | [] => Ok []
  | x :: l' => bind (f x) (λ y, bind (mapM_result f l') (λ ys, Ok (y :: ys)))
  end.

(** [hash(v)]; a list is unhashable. *)
Fixpoint py_hash (H : hash_impl) (v : pyval) : result Z :=
  match v with
  | VInt n => Ok (hash_int n)
  | VFloat m e => Ok (hash_float m e)
  | VStr s => Ok (hash_str H s)
  | VBytes b => Ok (hash_bytes H b)
  | VTuple items =>
      bind (mapM_result (py_hash H) items) (λ hs, Ok (hash_tuple H hs))
  | VList _ => Raise TypeError
  end.

(** [hash(frozenset(d.items()))] for a dict with [str] keys: building the
    set hashes every [(key, value)] pair. *)
Definition hash_items (H : hash_impl) (kwargs : list (string * pyval)) : result Z :=
  bind (mapM_result (λ kv : string * pyval, py_hash H (VTuple [VStr kv.1; kv.2])) kwargs)
       (λ hs, Ok (hash_frozenset H hs)).

(** The serializer, [json.dumps] and [json.loads]; [None] stands for any
    exception they raise. *)
Record codec := {
  json_dumps : pyval → option string;
  json_loads : string → option pyval
}.

End Py.

(* ===================================================================== *)
(** * The backing store                                                   *)
(* ===================================================================== *)

(** The store is the Redis server behind the client.  It keeps one
    keyspace; a key holds a string, a sorted set or a hash, and may carry
    an expiry deadline.  Clock readings are integers, in microseconds;
    expiry times are given to the store in seconds.  An entry is gone once
    the clock has passed its deadline, whether or not the server has
    reclaimed it yet.  Hash fields hold integers, and counters do not
    wrap. *)
Module Redis.
Import Py.

Inductive rvalue :=
  | RString (s : string)
  | RZSet (members : gmap string Z)
  | RHash (fields : gmap string Z).

Record rentry := {
  rval : rvalue;
  expire_at : option Z
}.

Abbreviation store := (gmap string rentry).

Definition ticks_per_second : Z := 1000000.

Definition deadline (now seconds : Z) : Z := now + seconds * ticks_per_second.

Definition live (now : Z) (ent : rentry) : bool :=
  match expire_at ent with
  | None => true
  | Some d => now <=? d
  end.

(** What is left of an entry at time [now]. *)
Definition alive (now : Z) (o : option rentry) : option rentry :=
  match o with
  | Some ent => if live now ent then Some ent else None
  | None => None
  end.

Definition lookup_live (now : Z) (σ : store) (k : string) : option rentry :=
  alive now (σ !! k).

(** The order of a sorted set: by score, then by member, bytewise. *)
Definition zle (x y : string * Z) : Prop :=
  x.2 < y.2 ∨ (x.2 = y.2 ∧ String.le x.1 y.1).

Global Instance zle_dec : RelDecision zle.
Proof. intros x y. unfold zle. apply _. Defined.

Definition zsorted (z : gmap string Z) : list (string * Z) :=
  merge_sort zle (map_to_list z).

(** Index arithmetic of ZRANGE: both ends inclusive, negative indexes
    count from the end. *)
Definition range_slice {A} (l : list A) (start stop : Z) : list A :=
  let len := Z.of_nat (length l) in
  let start := if start <? 0 then len + start else start in
  let stop := if stop <? 0 then len + stop else stop in
  let start := if start <? 0 then 0 else start in
  if (stop <? start) || (len <=? start) then []
  else
    let stop := if len <=? stop then len - 1 else stop in
    take (Z.to_nat (stop - start + 1)) (drop (Z.to_nat start) l).

(** ** Queries *)

Definition GET (now : Z) (σ : store) (k : string) : result (option string) :=
  match lookup_live now σ k with
  | None => Ok None
  | Some {| rval := RString s |} => Ok (Some s)
  | Some _ => Raise ResponseError
  end.

Definition zset_at (now : Z) (σ : store) (k : string) : result (gmap string Z) :=
  match lookup_live now σ k with
  | None => Ok ∅
  | Some {| rval := RZSet z |} => Ok z
  | Some _ => Raise ResponseError
  end.

Definition ZCARD (now : Z) (σ : store) (k : string) : result Z :=
  bind (zset_at now σ k) (λ z, Ok (Z.of_nat (size z))).

Definition ZRANGE (now : Z) (σ : store) (k : string) (start stop : Z)
  : result (list string) :=
  bind (zset_at now σ k) (λ z, Ok (range_slice (zsorted z).*1 start stop)).

Definition HGETALL (now : Z) (σ : store) (k : string) : result (gmap string Z) :=
  match lookup_live now σ k with
  | None => Ok ∅
  | Some {| rval := RHash h |} => Ok h
  | Some _ => Raise ResponseError
  end.

Definition EXISTS (now : Z) (σ : store) (k : string) : Z :=
  match lookup_live now σ k with
  | None => 0
  | Some _ => 1
  end.

(** ** Commands that a pipeline can queue *)

Inductive command :=
  | SETEX (key : string) (seconds : Z) (value : string)
  | DEL (key : string)
  | ZADD (key : string) (score : Z) (member : string)
  | ZREM (key member : string)
  | HINCRBY (key field : string) (amount : Z)
  | EXPIRE (key : string) (seconds : Z).

Definition cmd_key (c : command) : string :=
  match c with
  | SETEX k _ _ | DEL k | ZADD k _ _ | ZREM k _ | HINCRBY k _ _ | EXPIRE k _ => k
  end.

(** A command acts on the entry [o] of its key: the entry it leaves, and
    whether the server answered without an error. *)
Definition exec_entry (now : Z) (c : command) (o : option rentry)
  : option rentry * bool :=
  match c with
  | SETEX _ seconds v =>
      if seconds <=? 0 then (o, false)
      else (Some {| rval := RString v; expire_at := Some (deadline now seconds) |}, true)
  | DEL _ => (None, true)
  | ZADD _ score member =>
      match alive now o with
      | None =>
          (Some {| rval := RZSet {[member := score]}; expire_at := None |}, true)
      | Some {| rval := RZSet z; expire_at := d |} =>
          (Some {| rval := RZSet (<[member := score]> z); expire_at := d |}, true)
      | Some _ => (o, false)
      end
  | ZREM _ member =>
      match alive now o with
      | None => (o, true)
      | Some {| rval := RZSet z; expire_at := d |} =>
          let z' := delete member z in
          if decide (z' = ∅) then (None, true)
          else (Some {| rval := RZSet z'; expire_at := d |}, true)
      | Some _ => (o, false)
      end
  | HINCRBY _ field amount =>
      match alive now o with
      | None =>
          (Some {| rval := RHash {[field := amount]}; expire_at := None |}, true)
      | Some {| rval := RHash h; expire_at := d |} =>
          (Some {| rval := RHash (<[field := default 0 (h !! field) + amount]> h);
                   expire_at := d |}, true)
      | Some _ => (o, false)
      end
  | EXPIRE _ seconds =>
      match alive now o with
      | None => (o, true)
      | Some ent =>
          if seconds <=? 0 then (None, true)
          else (Some {| rval := rval ent; expire_at := Some (deadline now seconds) |}, true)
      end
  end.

(** One command against the store. *)
Definition exec (now : Z) (c : command) (σ : store) : store * bool :=
  let r := exec_entry now c (σ !! cmd_key c) in
  (partial_alter (λ _, r.1) (cmd_key c) σ, r.2).

(** The queued commands run in order; an error of one of them does not
    stop the others. *)
Fixpoint run (now : Z) (cmds : list command) (σ : store) : store * bool :=
  match cmds with
  | [] => (σ, true)
  | c :: cmds' =>
      let '(σ1, ok1) := exec now c σ in
      let '(σ2, ok2) := run now cmds' σ1 in
      (σ2, ok1 && ok2)
  end.

(** [p.execute()]: submits the queue and raises if a command failed. *)
Definition execute (now : Z) (cmds : list command) (σ : store) : store * result unit :=
  let '(σ', ok) := run now cmds σ in
  (σ', if ok then Ok tt else Raise ResponseError).

(** The attributes of the client object that name store commands. *)
Definition client_attributes : list string :=
  ["get"; "setex"; "delete"; "exists"; "expire"; "zadd"; "zcard"; "zrange";
   "zrem"; "hincrby"; "hgetall"; "pipeline"].

(** [getattr(client, name)] *)
Definition client_getattr (name : string) : result string :=
  if decide (name ∈ client_attributes) then Ok name else Raise AttributeError.

End Redis.

(* ===================================================================== *)
(** * [lru.py]                                                            *)
(* ===================================================================== *)

(** Every operation takes the clock reading [now] at which it runs and
    the store before it, and returns the store after it with its result
    or the exception it raises.  The client is the store itself. *)
Module LRU.
Import Py Redis.

Definition NAMESPACE_DELIMITER : string := ":".
Definition PREFIX_DELIMITER : string := NAMESPACE_DELIMITER +:+ NAMESPACE_DELIMITER.

(** with redis_pipeline(client) as p: ...   The block queues [body] on
    [p]; leaving the block normally executes the queue. *)
Definition redis_pipeline (now : Z) (body : list command) (σ : store)
  : store * result unit :=
  execute now body σ.

(** The attributes set by [RedisLRUCacheDict.__init__]. *)
Record RedisLRUCacheDict := {
  unique_key : string;        (* bytes *)
  max_size : Z;
  expiration : Z;
  access_key : string;        (* str; sorted set *)
  stat_key : string;          (* str; hash set *)
  once_clean_size : Z
}.

Definition EXPIRATION_STAT_KEY : Z := 30 * 86400.

Definition HIT : string := "HIT".
Definition MISS : string := "MISS".
Definition POP : string := "POP".
Definition SET : string := "SET".
Definition DEL : string := "DEL".
Definition DUMPS_ERROR : string := "DUMPS_ERROR".
Definition LOADS_ERROR : string := "LOADS_ERROR".

(** The double nearest to 0.1 is 7205759403792794 * 2^-56. *)
Definition ONCE_CLEAN_RATIO : Z * Z := (7205759403792794, -56).

(** The key that [joint_key] hands to the method it wraps. *)
Definition physical_key (self : RedisLRUCacheDict) (key : string) : string :=
  "lru-value:" +:+ unique_key self +:+ PREFIX_DELIMITER +:+ key.

(** def joint_key(method): the wrapper calls [key.encode()], which only a
    [str] has. *)
Definition joint_key {R : Type}
    (method : RedisLRUCacheDict → string → Z → store → store * result R)
    (self : RedisLRUCacheDict) (key : pykey) (now : Z) (σ : store)
  : store * result R :=
  match key with
  | Str s => method self (physical_key self (encode s)) now σ
  | Bytes _ => (σ, Raise AttributeError)
  end.

(** RedisLRUCacheDict.__init__, up to the choice of the client.
    [uuid4_bytes] is the value of [uuid.uuid4().bytes], drawn when no
    unique key is given. *)
Definition new_cache (unique_key : option pykey) (max_size expiration : Z)
    (uuid4_bytes : string) : result RedisLRUCacheDict :=
  bind (match unique_key with
        | Some k =>
            let b := match k with
                     | Str s => encode s
                     | Bytes b => b
                     end in
            if bytes_in PREFIX_DELIMITER b then Raise ValueError else Ok b
        | None => Ok uuid4_bytes
        end)
    (λ uk,
      bind (int_times_float max_size ONCE_CLEAN_RATIO)
        (λ x, Ok {| unique_key := uk;
                    max_size := max_size;
                    expiration := expiration;
                    access_key := format_bytes "lru-access:" uk;
                    stat_key := format_bytes "lru-stat:" uk;
                    once_clean_size := int_of_float x |})).

Definition __init__ (unique_key : option pykey) (max_size expiration : Z)
    (clear_stat : bool) (uuid4_bytes : string) (σ : store)
  : store * result RedisLRUCacheDict :=
  match new_cache unique_key max_size expiration uuid4_bytes with
  | Raise e => (σ, Raise e)
  | Ok self =>
      if clear_stat then (delete (stat_key self) σ, Ok self) else (σ, Ok self)
  end.

Definition report_usage (self : RedisLRUCacheDict) (now : Z) (σ : store)
  : result (gmap string Z) :=
  HGETALL now σ (stat_key self).

Definition size (self : RedisLRUCacheDict) (now : Z) (σ : store) : result Z :=
  ZCARD now σ (access_key self).

Definition _ensure_room (self : RedisLRUCacheDict) (now : Z) (σ : store)
  : store * result bool :=
  match size self now σ with
  | Raise e => (σ, Raise e)
  | Ok n =>
      if n <? max_size self then (σ, Ok true)
      else
        match ZRANGE now σ (access_key self) 0 (once_clean_size self) with
        | Raise e => (σ, Raise e)
        | Ok keys =>
            match redis_pipeline now
                    (flat_map (λ k, [Redis.DEL k; ZREM (access_key self) k]) keys
                       ++ [HINCRBY (stat_key self) POP (Z.of_nat (length keys))]) σ with
            | (σ', Raise e) => (σ', Raise e)
            | (σ', Ok _) => (σ', Ok false)
            end
        end
  end.

Section Engine.
Context (C : codec).

Definition __setitem__ (self : RedisLRUCacheDict) (key : pykey) (value : pyval)
  : Z → store → store * result unit :=
  joint_key (λ self key now σ,
    match json_dumps C value with
    | None =>
        redis_pipeline now
          [HINCRBY (stat_key self) DUMPS_ERROR 1;
           EXPIRE (stat_key self) EXPIRATION_STAT_KEY] σ
    | Some value =>
        match _ensure_room self now σ with
        | (σ1, Raise e) => (σ1, Raise e)
        | (σ1, Ok _) =>
            redis_pipeline now
              [SETEX key (expiration self) value;
               ZADD (access_key self) now key;
               EXPIRE (access_key self) (expiration self);
               HINCRBY (stat_key self) SET 1;
               EXPIRE (stat_key self) EXPIRATION_STAT_KEY] σ1
        end
    end) self key.

Definition __delitem__ : RedisLRUCacheDict → pykey → Z → store → store * result unit :=
  joint_key (λ self key now σ,
    redis_pipeline now
      [Redis.DEL key;
       ZREM (access_key self) key;
       EXPIRE (access_key self) (expiration self);
       HINCRBY (stat_key self) DEL 1;
       EXPIRE (stat_key self) EXPIRATION_STAT_KEY] σ).

Definition __getitem__ : RedisLRUCacheDict → pykey → Z → store → store * result pyval :=
  joint_key (λ self key now σ,
    match GET now σ key with
    | Raise e => (σ, Raise e)
    | Ok None =>
        (* the block calls p.execute() itself; the exit of the block then
           executes an empty queue *)
        match execute now
                [HINCRBY (stat_key self) MISS 1;
                 EXPIRE (stat_key self) EXPIRATION_STAT_KEY] σ with
        | (σ1, Raise e) => (σ1, Raise e)
        | (σ1, Ok _) =>
            match redis_pipeline now [] σ1 with
            | (σ2, Raise e) => (σ2, Raise e)
            | (σ2, Ok _) =>
                match bind (item1 (split1 PREFIX_DELIMITER key)) decode with
                | Raise e => (σ2, Raise e)
                | Ok real_key => (σ2, Raise (KeyError (Str real_key)))
                end
            end
        end
    | Ok (Some value) =>
        match json_loads C value with
        | None =>
            match redis_pipeline now
                    [Redis.DEL key;
                     HINCRBY (stat_key self) LOADS_ERROR 1;
                     EXPIRE (stat_key self) EXPIRATION_STAT_KEY] σ with
            | (σ1, Raise e) => (σ1, Raise e)
            | (σ1, Ok _) => (σ1, Raise (KeyError (Bytes key)))
            end
        | Some value =>
            match redis_pipeline now
                    [ZADD (access_key self) now key;
                     EXPIRE (access_key self) (expiration self);
                     HINCRBY (stat_key self) HIT 1;
                     EXPIRE (stat_key self) EXPIRATION_STAT_KEY] σ with
            | (σ1, Raise e) => (σ1, Raise e)
            | (σ1, Ok _) => (σ1, Ok value)
            end
        end
    end).

(** [get] is itself wrapped by [joint_key], and [self[key]] goes through
    the wrapped [__getitem__] with the key that [get] received. *)
Definition get (self : RedisLRUCacheDict) (key : pykey) (default : pyval)
  : Z → store → store * result pyval :=
  joint_key (λ self key now σ,
    match __getitem__ self (Bytes key) now σ with
    | (σ', Raise (KeyError _)) => (σ', Ok default)
    | r => r
    end) self key.

Definition __contains__ : RedisLRUCacheDict → pykey → Z → store → store * result bool :=
  joint_key (λ self key now σ,
    match client_getattr "exist" with
    | Raise e => (σ, Raise e)
    | Ok _ => (σ, Ok (negb (EXISTS now σ key =? 0)))
    end).

End Engine.

(** ** The decorator *)

(** A function object: where it was declared, and what it computes.  The
    count of its invocations is kept next to the store. *)
Record function := {
  __module__ : string;
  __qualname__ : string;
  call : list pyval → list (string * pyval) → pyval
}.

Section Decorator.
Context (H : hash_impl) (C : codec).

Definition _hash_args (args : list pyval) (kwargs : list (string * pyval)) : result Z :=
  bind (py_hash H (VTuple args)) (λ h1,
  bind (hash_items H kwargs) (λ h2,
  py_hash H (VTuple [VInt h1; VInt h2]))).

(** [hash(type(x) for x in args)] hashes the generator object, by
    identity; [gen1] and [gen2] are the addresses at which the two
    generator objects of this call are allocated. *)
Definition _typed_hash_args (gen1 gen2 : Z) (args : list pyval)
    (kwargs : list (string * pyval)) : result Z :=
  bind (_hash_args args kwargs) (λ h,
  py_hash H (VTuple [VInt h; VInt (hash_pointer H gen1); VInt (hash_pointer H gen2)])).

(** def inner( *args, **kwargs).  The state is the store and the number
    of invocations of [func] so far; [now] is the clock at the lookup and
    [now'] the clock when [func] has returned. *)
Definition inner (typed_hash_args : bool) (lru_cache : RedisLRUCacheDict)
    (func : function) (gen1 gen2 : Z)
    (args : list pyval) (kwargs : list (string * pyval))
    (now now' : Z) (st : store * nat) : (store * nat) * result pyval :=
  let _arg_hasher :=
    if typed_hash_args then _typed_hash_args gen1 gen2 else _hash_args in
  match _arg_hasher args kwargs with
  | Raise TypeError => (st, Raise RuntimeError)
  | Raise e => (st, Raise e)
  | Ok h =>
      let key := Str (hex h) in
      match __getitem__ C lru_cache key now st.1 with
      | (σ1, Ok value) => ((σ1, st.2), Ok value)
      | (σ1, Raise (KeyError _)) =>
          let value := call func args kwargs in
          match __setitem__ C lru_cache key value now' σ1 with
          | (σ2, Raise e) => ((σ2, S st.2), Raise e)
          | (σ2, Ok _) => ((σ2, S st.2), Ok value)
          end
      | (σ1, Raise e) => ((σ1, st.2), Raise e)
      end
  end.

(** def wrapper(func): the choice of the cache, and the function that
    replaces [func]. *)
Definition wrapper (max_size expiration : Z) (cache : option RedisLRUCacheDict)
    (typed_hash_args : bool) (func : function) (uuid4_bytes : string) (σ : store)
  : store * result (Z → Z → list pyval → list (string * pyval) → Z → Z →
                    store * nat → (store * nat) * result pyval) :=
  let made :=
    match cache with
    | None =>
        let unique_key :=
          replace_byte "." ":" (encode (__module__ func))
            +:+ NAMESPACE_DELIMITER
            +:+ replace_byte "." ":" (encode (__qualname__ func)) in
        __init__ (Some (Bytes unique_key)) max_size expiration false uuid4_bytes σ
    | Some cache => (σ, Ok cache)
    end in
  match made with
  | (σ', Raise e) => (σ', Raise e)
  | (σ', Ok lru_cache) => (σ', Ok (inner typed_hash_args lru_cache func))
  end.

End Decorator.

End LRU.

(* ===================================================================== *)
(** * Vocabulary of the properties                                        *)
(* ===================================================================== *)

Module Spec.
Import Py Redis LRU.

(** [self] is what the constructor returns for some unique key. *)
Definition constructed (self : RedisLRUCacheDict) : Prop :=
  ∃ unique_key uuid4_bytes,
    new_cache unique_key (max_size self) (expiration self) uuid4_bytes = Ok self.

Definition holds_zset (o : option rentry) : bool :=
  match o with
  | None => true
  | Some ent =>
      match rval ent with
      | RZSet _ => true
      | _ => false
      end
  end.

Definition holds_hash (o : option rentry) : bool :=
  match o with
  | None => true
  | Some ent =>
      match rval ent with
      | RHash _ => true
      | _ => false
      end
  end.

(** Nothing foreign sits under the tracker key or the stat key, so that
    the store answers the commands of the engine without a type error. *)
Definition well_typed (self : RedisLRUCacheDict) (σ : store) : bool :=
  holds_zset (σ !! access_key self) && holds_hash (σ !! stat_key self).

Definition members_of (o : option rentry) : gmap string Z :=
  match o with
  | Some {| rval := RZSet z |} => z
  | _ => ∅
  end.

Definition fields_of (o : option rentry) : gmap string Z :=
  match o with
  | Some {| rval := RHash h |} => h
  | _ => ∅
  end.

(** The access records kept under the tracker key, expired or not. *)
Definition records (self : RedisLRUCacheDict) (σ : store) : gmap string Z :=
  members_of (σ !! access_key self).

(** The value of a stat counter, zero when it was never incremented. *)
Definition counter (self : RedisLRUCacheDict) (now : Z) (σ : store) (field : string) : Z :=
  match report_usage self now σ with
  | Ok h => default 0 (h !! field)
  | Raise _ => 0
  end.

(** The entry that a queue of commands leaves under the key [k], given
    the entry [o] that was there. *)
Fixpoint entry_after (now : Z) (cmds : list command) (k : string)
    (o : option rentry) : option rentry :=
  match cmds with
  | [] => o
  | c :: cmds' =>
      entry_after now cmds' k
        (if decide (cmd_key c = k) then (exec_entry now c o).1 else o)
  end.

(** The shape of the commands that the engine sends: sorted-set commands
    go to the tracker key, counters to the stat key, strings elsewhere. *)
Definition respects (self : RedisLRUCacheDict) (c : command) : Prop :=
  match c with
  | SETEX k _ _ => k ≠ access_key self ∧ k ≠ stat_key self
  | ZADD k _ _ | ZREM k _ => k = access_key self
  | HINCRBY k _ _ => k = stat_key self
  | Redis.DEL _ | EXPIRE _ _ => True
  end.

Definition positive_ttl (c : command) : Prop :=
  match c with
  | SETEX _ seconds _ => 0 < seconds
  | _ => True
  end.

(** The commands that an eviction pass queues for the keys it selected. *)
Definition eviction (self : RedisLRUCacheDict) (keys : list string) : list command :=
  flat_map (λ k, [Redis.DEL k; ZREM (access_key self) k]) keys.

(** The keys that an eviction pass removes from a tracker [z]. *)
Definition victims (self : RedisLRUCacheDict) (z : gmap string Z) : list string :=
  take (Z.to_nat (once_clean_size self + 1)) (zsorted z).*1.

(** A sequence of item assignments [d[k] = v], each at its clock reading. *)
Definition set_all (C : codec) (self : RedisLRUCacheDict)
    (l : list (string * pyval * Z)) (σ : store) : store :=
  foldl (λ σ x, (__setitem__ C self (Str x.1.1) x.1.2 x.2 σ).1) σ l.

(** The tracker holds the access records of exactly the logical keys
    [keys] and lives until [until]; no eviction has been counted yet. *)
Definition tracks (self : RedisLRUCacheDict) (σ : store) (keys : list string)
    (until : Z) : Prop :=
  well_typed self σ = true
  ∧ fields_of (σ !! stat_key self) !! POP = None
  ∧ ((keys = [] ∧ σ !! access_key self = None)
     ∨ ∃ z, σ !! access_key self
            = Some {| rval := RZSet z; expire_at := Some until |}
          ∧ dom z =@{gset string} list_to_set (physical_key self <$> keys)).

Definition is_ascii (c : ascii) : Prop := (N_of_ascii c < 0x80)%N.

(** A command leaves the entry of [k] alone or deletes it. *)
Definition spares (k : string) (c : command) : Prop :=
  cmd_key c = k → c = Redis.DEL k.

(** Consecutive clock readings are at most [span] apart. *)
Fixpoint within (span : Z) (ts : list Z) : Prop :=
  match ts with
  | t :: (t' :: _) as ts' => t' ≤ t + span ∧ within span ts'
  | _ => True
  end.

(** Operations on items, for traces. *)
Inductive op :=
  | Assign (k : string) (v : pyval)
  | Lookup (k : string)
  | Remove (k : string).

Definition apply (C : codec) (self : RedisLRUCacheDict) (x : op * Z) (σ : store) : store :=
  match x.1 with
  | Assign k v => (__setitem__ C self (Str k) v x.2 σ).1
  | Lookup k => (__getitem__ C self (Str k) x.2 σ).1
  | Remove k => (__delitem__ self (Str k) x.2 σ).1
  end.

Definition apply_all (C : codec) (self : RedisLRUCacheDict)
    (tr : list (op * Z)) (σ : store) : store :=
  foldl (λ σ x, apply C self x σ) σ tr.

Definition assigns (k : string) (o : op) : bool :=
  match o with
  | Assign k' _ => String.eqb k k'
  | _ => false
  end.

(** An operation that assigns nothing and is not about the key [k]. *)
Definition bystander (k : string) (o : op) : bool :=
  match o with
  | Assign _ _ => false
  | Lookup k' | Remove k' => negb (String.eqb k k')
  end.

(** [b.endswith(NAMESPACE_DELIMITER)] *)
Fixpoint ends_with_colon (b : string) : bool :=
  match b with
  | EmptyString => false
  | String c b' =>
      match b' with
      | EmptyString => Ascii.eqb c ":"
      | String _ _ => ends_with_colon b'
      end
  end.

End Spec.

(* ===================================================================== *)
(** * Instances for the examples                                          *)
(* ===================================================================== *)

Module Sample.
Import Py Redis LRU Spec.

Fixpoint parse_digits (acc : N) (s : string) : option N :=
  match s with
  | EmptyString => Some acc
  | String c s' =>
      let d := N_of_ascii c in
      if ((48 <=? d) && (d <=? 57))%N then parse_digits (acc * 10 + (d - 48)) s'
      else None
  end.

Definition parse_int (s : string) : option Z :=
  match s with
  | EmptyString => None
  | String "-" (String c s') => Z.opp <$> (Z.of_N <$> parse_digits 0 (String c s'))
  | _ => Z.of_N <$> parse_digits 0 s
  end.

(** The serializer restricted to integers: an int is written in decimal
    and read back; a byte string is not serializable. *)
Definition int_codec : codec := {|
  json_dumps v :=
    match v with
    | VInt n => Some (pretty n)
    | _ => None
    end;
  json_loads s := VInt <$> parse_int s
|}.

Definition wrap64 (x : Z) : Z := (x + 2 ^ 63) mod 2 ^ 64 - 2 ^ 63.

(** One interpreter: multiplicative string and tuple hashes, an
    order-independent frozenset hash, and the address rotated by four
    bits for the identity hash. *)
Definition sample_hash : hash_impl := {|
  hash_str s :=
    fix_hash (wrap64 (foldl (λ h c, h * 1000003 + Z.of_N (N_of_ascii c)) 5381
                        (String.list_ascii_of_string s)));
  hash_bytes b :=
    fix_hash (wrap64 (foldl (λ h c, h * 1000003 + Z.of_N (N_of_ascii c)) 5381
                        (String.list_ascii_of_string b)));
  hash_tuple hs :=
    fix_hash (wrap64 (foldl (λ x y, Z.lxor x y * 1000003) 3430008 hs + 97531));
  hash_frozenset hs :=
    fix_hash (wrap64 (foldl Z.lxor 1927868237 hs));
  hash_pointer a :=
    fix_hash (wrap64 (Z.lor (Z.shiftr a 4) (Z.shiftl (a mod 16) 60)))
|}.

(** d = RedisLRUCacheDict('unique_key', max_size=3, expiration=1) *)
Definition d : RedisLRUCacheDict :=
  {| unique_key := "unique_key";
     max_size := 3;
     expiration := 1;
     access_key := "lru-access:b'unique_key'";
     stat_key := "lru-stat:b'unique_key'";
     once_clean_size := 0 |}.

(** def f(x): return x *)
Definition first_arg : function := {|
  __module__ := "__main__";
  __qualname__ := "f";
  call args kwargs :=
    match args with
    | v :: _ => v
    | [] => VInt 0
    end
|}.

(** def g(x): return b'raw' *)
Definition raw_bytes : function := {|
  __module__ := "__main__";
  __qualname__ := "g";
  call args kwargs := VBytes "raw"
|}.

(** A store in which the entry of [foo] holds bytes that are not JSON. *)
Definition corrupt : store :=
  (exec 0 (SETEX "lru-value:unique_key::foo" 1 "{oops") ∅).1.

(** An identity of two bytes, a colon and 0xff, which is not text. *)
Definition colon_ff : string := String ":" (String (ascii_of_N 255) EmptyString).

(** RedisLRUCacheDict(b':\xff', max_size=3, expiration=1) *)
Definition odd : RedisLRUCacheDict :=
  {| unique_key := colon_ff;
     max_size := 3;
     expiration := 1;
     access_key := format_bytes "lru-access:" colon_ff;
     stat_key := format_bytes "lru-stat:" colon_ff;
     once_clean_size := 0 |}.

(** A cache at capacity: three keys assigned at three clock readings. *)
Definition full : store :=
  set_all int_codec d [("a", VInt 1, 10); ("b", VInt 2, 20); ("c", VInt 3, 30)] ∅.

Definition full_tracker : gmap string Z := records d full.

(** The result of an operation, and the store it leaves. *)
Definition after {A} (r : store * A) : store := r.1.
Definition outcome {A} (r : store * A) : A := r.2.

(** RedisLRUCacheDict('unique_key', max_size=3, expiration=0) *)
Definition immediate : RedisLRUCacheDict :=
  {| unique_key := "unique_key";
     max_size := 3;
     expiration := 0;
     access_key := "lru-access:b'unique_key'";
     stat_key := "lru-stat:b'unique_key'";
     once_clean_size := 0 |}.

(** RedisLRUCacheDict('unique_key:', max_size=3, expiration=1) *)
Definition d_colon : RedisLRUCacheDict :=
  {| unique_key := "unique_key:";
     max_size := 3;
     expiration := 1;
     access_key := "lru-access:b'unique_key:'";
     stat_key := "lru-stat:b'unique_key:'";
     once_clean_size := 0 |}.

(** In module pkg.util:   def load(x): return x *)
Definition util_load : function := {|
  __module__ := "pkg.util";
  __qualname__ := "load";
  call args kwargs :=
    match args with
    | v :: _ => v
    | [] => VInt 0
    end
|}.

(** In module pkg:   class util:  def load(x): return 0 *)
Definition util_method : function := {|
  __module__ := "pkg";
  __qualname__ := "util.load";
  call args kwargs := VInt 0
|}.

(** The cache that the decorator makes for both of them. *)
Definition pkg_cache : RedisLRUCacheDict :=
  {| unique_key := "pkg:util:load";
     max_size := 20;
     expiration := 1;
     access_key := "lru-access:b'pkg:util:load'";
     stat_key := "lru-stat:b'pkg:util:load'";
     once_clean_size := 2 |}.

(** That cache at capacity: twenty keys assigned at twenty clock
    readings. *)
Definition crowded : store :=
  set_all int_codec pkg_cache
    ((λ i : Z, ("k" +:+ pretty i, VInt i, i)) <$> seqZ 1 20) ∅.

Definition crowded_tracker : gmap string Z := records pkg_cache crowded.

End Sample.

(* ===================================================================== *)
(** * Properties                                                          *)
(* ===================================================================== *)

Import Py Redis LRU Spec Sample.

(** ** The public [get] and the membership probe *)

Lemma joint_key_bytes {R} (method : RedisLRUCacheDict → string → Z → store → store * result R)
    self b now σ :
  joint_key method self (Bytes b) now σ = (σ, Raise AttributeError).
Proof. reflexivity. Qed.

Lemma joint_key_str {R} (method : RedisLRUCacheDict → string → Z → store → store * result R)
    self s now σ :
  joint_key method self (Str s) now σ = method self (physical_key self s) now σ.
Proof. reflexivity. Qed.

(** C10: [get(k, d)] never reaches the lookup.  Its own [joint_key]
    wrapper turns the key into bytes, the wrapper of [__getitem__] calls
    [encode] on those bytes, and the call ends in AttributeError whatever
    the store holds: neither the default nor the cached value is
    returned. *)
Theorem get_raises_attribute_error (C : codec) self key default now σ :
  get C self key default now σ = (σ, Raise AttributeError).
Proof.
  destruct key as [s|b]; [|reflexivity].
  unfold get. rewrite joint_key_str.
  unfold __getitem__. by rewrite joint_key_bytes.
Qed.

Lemma exist_is_no_attribute : client_getattr "exist" = Raise AttributeError.
Proof. reflexivity. Qed.

(** C6: the membership probe asks the client for an attribute [exist],
    which the client does not have; the probe raises AttributeError for
    every key and every store, and so never returns a boolean. *)
Theorem contains_raises_attribute_error self key now σ :
  __contains__ self key now σ = (σ, Raise AttributeError).
Proof.
  destruct key as [s|b]; [|reflexivity].
  unfold __contains__. rewrite joint_key_str.
  by rewrite exist_is_no_attribute.
Qed.

(** ** Argument hashing *)

Lemma hash_int_float_one : hash_int 1 = hash_float 1 0.
Proof. reflexivity. Qed.

(** Without typed mode, [f(1)] and [f(1.0)] get the same key. *)
Lemma hash_args_int_float (H : hash_impl) kwargs :
  _hash_args H [VInt 1] kwargs = _hash_args H [VFloat 1 0] kwargs.
Proof. reflexivity. Qed.

(** The typed hash is a function of the plain hash and of the addresses
    of the two generator objects; the types of the arguments do not enter
    it. *)
Lemma typed_hash_ignores_types (H : hash_impl) g1 g2 args kwargs args' kwargs' :
  _hash_args H args kwargs = _hash_args H args' kwargs' →
  _typed_hash_args H g1 g2 args kwargs = _typed_hash_args H g1 g2 args' kwargs'.
Proof. unfold _typed_hash_args. by intros ->. Qed.

(** C4: with typed mode on, [f(1)] and [f(1.0)] still get one and the
    same key whenever the generator objects of the two calls sit at the
    same addresses, so the two calls share one cache entry.  The typed
    hash folds in the addresses of two generator objects, not the types
    of the arguments. *)
Theorem typed_hash_int_float_same_key (H : hash_impl) g1 g2 :
  _typed_hash_args H g1 g2 [VInt 1] [] = _typed_hash_args H g1 g2 [VFloat 1 0] [].
Proof. apply typed_hash_ignores_types, hash_args_int_float. Qed.

(** A function that returns its first positional argument. *)
Lemma first_arg_call v kwargs : call first_arg [v] kwargs = v.
Proof. reflexivity. Qed.

(** With typed mode on and the generator objects of both calls at one
    address, [f(1)] runs the function and [f(1.0)] is served the entry of
    [f(1)]: one invocation, and the int instead of the float. *)
Lemma typed_calls_share_entry :
  let r1 := inner sample_hash int_codec true d first_arg 4096 4096 [VInt 1] [] 0 0 (∅, 0%nat) in
  let r2 := inner sample_hash int_codec true d first_arg 4096 4096 [VFloat 1 0] [] 1 1 r1.1 in
  r1.2 = Ok (VInt 1) ∧ r2.2 = Ok (VInt 1) ∧ r2.1.2 = 1%nat.
Proof. vm_compute. done. Qed.

(** The same call gets another key when its generator objects sit at
    other addresses. *)
Lemma typed_hash_depends_on_addresses :
  _typed_hash_args sample_hash 4096 4096 [VInt 1] []
  ≠ _typed_hash_args sample_hash 8192 8192 [VInt 1] [].
Proof. vm_compute. congruence. Qed.

(** ** Unhashable arguments *)

Lemma mapM_result_raises {A B} (f : A → result B) l e :
  mapM_result f l = Raise e → ∃ x, x ∈ l ∧ f x = Raise e.
Proof.
  induction l as [|x l IH]; simpl; [done|].
  destruct (f x) as [y|e'] eqn:Hx; simpl.
  - destruct (mapM_result f l) as [ys|e'']; simpl; [done|].
    intros [= ->]. destruct IH as (x' & ? & ?); [done|].
    exists x'. split; [by apply list_elem_of_further | done].
  - intros [= ->]. exists x. split; [apply list_elem_of_here | done].
Qed.

Lemma mapM_result_type_error {A B} (f : A → result B) l :
  (∀ x e, x ∈ l → f x = Raise e → e = TypeError) →
  (∃ x, x ∈ l ∧ f x = Raise TypeError) →
  mapM_result f l = Raise TypeError.
Proof.
  intros Hall (x & Hx & Hfx).
  destruct (mapM_result f l) as [ys|e] eqn:Hm.
  - exfalso. clear Hall. revert ys Hm.
    induction Hx as [x l|x y l Hx IH]; simpl; intros ys.
    + by rewrite Hfx.
    + destruct (f y); simpl; [|done].
      destruct (mapM_result f l) as [ys'|]; simpl; [|done].
      intros _. by eapply IH.
  - apply mapM_result_raises in Hm as (x' & Hx' & Hfx').
    by rewrite (Hall x' e Hx' Hfx').
Qed.

(** [hash] raises nothing but TypeError. *)
Lemma py_hash_raises (H : hash_impl) : ∀ v e, py_hash H v = Raise e → e = TypeError.
Proof.
  fix IH 1. intros [n|m e0|s|b|items|items] e; simpl; try congruence.
  intros He.
  destruct (mapM_result (py_hash H) items) as [hs|e'] eqn:Hm; simpl in He; [done|].
  injection He as ->.
  clear -IH Hm. revert items Hm. fix IHl 1. intros [|x l]; simpl; [done|].
  destruct (py_hash H x) as [y|e''] eqn:Hx; simpl.
  - destruct (mapM_result (py_hash H) l) as [ys|e3] eqn:Hl; simpl; [done|].
    intros [= ->]. by apply (IHl l).
  - intros [= ->]. by apply (IH x).
Qed.

Lemma py_hash_tuple_unhashable (H : hash_impl) items v :
  v ∈ items → py_hash H v = Raise TypeError →
  py_hash H (VTuple items) = Raise TypeError.
Proof.
  intros Hv Hh. simpl.
  rewrite (mapM_result_type_error (py_hash H) items); [done| |by exists v].
  intros x e _. apply py_hash_raises.
Qed.

Lemma hash_items_raises (H : hash_impl) kwargs e :
  hash_items H kwargs = Raise e → e = TypeError.
Proof.
  unfold hash_items. intros He.
  destruct (mapM_result _ kwargs) as [hs|e'] eqn:Hm; simpl in He; [done|].
  injection He as ->.
  apply mapM_result_raises in Hm as (x & _ & Hx).
  by apply py_hash_raises in Hx.
Qed.

Lemma hash_items_unhashable (H : hash_impl) kwargs k v :
  (k, v) ∈ kwargs → py_hash H v = Raise TypeError →
  hash_items H kwargs = Raise TypeError.
Proof.
  intros Hkv Hh. unfold hash_items.
  rewrite (mapM_result_type_error _ kwargs); [done| |].
  - intros x e _. apply py_hash_raises.
  - exists (k, v). split; [done|].
    apply py_hash_tuple_unhashable with v; [|done].
    simpl. apply list_elem_of_further, list_elem_of_here.
Qed.

Lemma hash_args_unhashable (H : hash_impl) args kwargs :
  (∃ v, v ∈ args ∧ py_hash H v = Raise TypeError)
  ∨ (∃ k v, (k, v) ∈ kwargs ∧ py_hash H v = Raise TypeError) →
  _hash_args H args kwargs = Raise TypeError.
Proof.
  unfold _hash_args. intros [(v & Hv & Hh)|(k & v & Hkv & Hh)].
  - by rewrite (py_hash_tuple_unhashable H args v).
  - destruct (py_hash H (VTuple args)) as [h1|e] eqn:Ha; simpl.
    + by rewrite (hash_items_unhashable H kwargs k v).
    + by rewrite (py_hash_raises H _ _ Ha).
Qed.

(** C8: when a positional or a keyword argument is unhashable, the call
    raises RuntimeError, the error that [inner] raises for arguments it
    cannot hash, which is not the KeyError of a miss; the function is not
    invoked and nothing is written to the store: the state, store and
    invocation count, is unchanged.  This holds with and without typed
    mode. *)
Theorem unhashable_argument_raises (H : hash_impl) (C : codec)
    typed lru_cache func g1 g2 args kwargs now now' (st : store * nat) :
  (∃ v, v ∈ args ∧ py_hash H v = Raise TypeError)
  ∨ (∃ k v, (k, v) ∈ kwargs ∧ py_hash H v = Raise TypeError) →
  inner H C typed lru_cache func g1 g2 args kwargs now now' st = (st, Raise RuntimeError)
  ∧ ∀ k, RuntimeError ≠ KeyError k.
Proof.
  intros Hun. split; [|done].
  apply hash_args_unhashable in Hun.
  unfold inner. destruct typed.
  - unfold _typed_hash_args. by rewrite Hun.
  - by rewrite Hun.
Qed.

Lemma unhashable_argument_raises_witness :
  ((∃ v, v ∈ [VList [VInt 1]] ∧ py_hash sample_hash v = Raise TypeError)
   ∨ (∃ k v, (k, v) ∈ ([] : list (string * pyval))
             ∧ py_hash sample_hash v = Raise TypeError))
  ∧ inner sample_hash int_codec true d first_arg 4096 4096 [VList [VInt 1]] [] 0 0 (∅, 0%nat)
    = ((∅, 0%nat), Raise RuntimeError).
Proof.
  assert (Hun : (∃ v, v ∈ [VList [VInt 1]] ∧ py_hash sample_hash v = Raise TypeError)
                ∨ (∃ k v, (k, v) ∈ ([] : list (string * pyval))
                          ∧ py_hash sample_hash v = Raise TypeError)).
  { left. exists (VList [VInt 1]). split; [apply list_elem_of_here | reflexivity]. }
  split; [exact Hun|].
  exact (proj1 (unhashable_argument_raises sample_hash int_codec true d first_arg
                  4096 4096 [VList [VInt 1]] [] 0 0 (∅, 0%nat) Hun)).
Defined.

(** ** Key names *)

Lemma constructed_inv self :
  constructed self →
  access_key self = "lru-access:" +:+ bytes_repr (unique_key self)
  ∧ stat_key self = "lru-stat:" +:+ bytes_repr (unique_key self)
  ∧ ∃ x, int_times_float (max_size self) ONCE_CLEAN_RATIO = Ok x
         ∧ once_clean_size self = int_of_float x.
Proof.
  intros (uk & uu & Hnew). unfold new_cache in Hnew.
  destruct (match uk with Some _ => _ | None => _ end) as [b|e]; simpl in Hnew; [|done].
  destruct (int_times_float (max_size self) ONCE_CLEAN_RATIO) as [x|e] eqn:Hx;
    simpl in Hnew; [|done].
  injection Hnew as <-. simpl. eauto.
Qed.

Lemma physical_key_ne_access self k :
  constructed self → physical_key self k ≠ access_key self.
Proof.
  intros (-> & _)%constructed_inv. unfold physical_key. intros Heq. by injection Heq.
Qed.

Lemma physical_key_ne_stat self k :
  constructed self → physical_key self k ≠ stat_key self.
Proof.
  intros (_ & -> & _)%constructed_inv. unfold physical_key. intros Heq. by injection Heq.
Qed.

Lemma access_ne_stat self : constructed self → access_key self ≠ stat_key self.
Proof. intros (-> & -> & _)%constructed_inv. intros Heq. by injection Heq. Qed.

Lemma physical_key_inj self k k' :
  physical_key self k = physical_key self k' → k = k'.
Proof.
  unfold physical_key. intros Heq.
  by repeat apply (inj (String.app _)) in Heq.
Qed.

(** The entry key is the prefix, the identity, two delimiters and the
    encoded logical key, with nothing else in between. *)
Lemma physical_key_layout self k :
  physical_key self k = "lru-value:" +:+ unique_key self +:+ "::" +:+ k.
Proof. reflexivity. Qed.

Lemma string_length_app (a b : string) :
  String.length (a +:+ b) = (String.length a + String.length b)%nat.
Proof. induction a as [|c a IH]; simpl; [done|]. by rewrite IH. Qed.

Lemma repr_byte_length q c : (1 ≤ String.length (repr_byte q c))%nat.
Proof. unfold repr_byte. repeat case_match; simpl; lia. Qed.

Lemma repr_body_length q b : (String.length b ≤ String.length (repr_body q b))%nat.
Proof.
  induction b as [|c b IH]; simpl; [done|].
  rewrite string_length_app. pose proof (repr_byte_length q c). lia.
Qed.

(** What [format] inserts for a byte string is never the byte string
    itself: it is at least three characters longer. *)
Lemma bytes_repr_length b : (String.length b + 3 ≤ String.length (bytes_repr b))%nat.
Proof.
  unfold bytes_repr. simpl. rewrite string_length_app. simpl.
  pose proof (repr_body_length (repr_quote b) b). lia.
Qed.

Lemma tracker_key_not_raw self :
  constructed self →
  access_key self ≠ "lru-access:" +:+ unique_key self
  ∧ stat_key self ≠ "lru-stat:" +:+ unique_key self.
Proof.
  intros (-> & -> & _)%constructed_inv.
  pose proof (bytes_repr_length (unique_key self)) as Hlen.
  split; intros Heq%String.app_inj; rewrite Heq in Hlen; lia.
Qed.

(** C7: for the identity of the doctest, the entry key has the layout
    [lru-value:<identity>::<key>], but the tracker key and the stat key
    are built with [format] from the identity bytes and come out as
    [lru-access:b'unique_key'] and [lru-stat:b'unique_key']: the letter
    b and two quotes are inserted around the identity. *)
Theorem tracker_and_stat_keys_quote_identity :
  new_cache (Some (Str "unique_key")) 3 1 EmptyString = Ok d
  ∧ physical_key d "foo" = "lru-value:unique_key::foo"
  ∧ access_key d = "lru-access:b'unique_key'"
  ∧ stat_key d = "lru-stat:b'unique_key'".
Proof. repeat split. Qed.

(** ** Commands against the store *)

Lemma exec_lookup now c (σ : store) k :
  (exec now c σ).1 !! k
  = if decide (cmd_key c = k) then (exec_entry now c (σ !! k)).1 else σ !! k.
Proof.
  unfold exec. simpl. rewrite lookup_partial_alter.
  case_decide; by subst.
Qed.

Lemma run_cons now c cmds (σ : store) :
  run now (c :: cmds) σ
  = ((run now cmds (exec now c σ).1).1,
     (exec now c σ).2 && (run now cmds (exec now c σ).1).2).
Proof.
  change (run now (c :: cmds) σ)
    with (let '(σ1, ok1) := exec now c σ in
          let '(σ2, ok2) := run now cmds σ1 in (σ2, ok1 && ok2)).
  destruct (exec now c σ) as [σ1 ok1]. cbn [fst snd].
  by destruct (run now cmds σ1).
Qed.

Lemma run_lookup now cmds (σ : store) k :
  (run now cmds σ).1 !! k = entry_after now cmds k (σ !! k).
Proof.
  revert σ. induction cmds as [|c cmds IH]; intros σ; [done|].
  rewrite run_cons. cbn [fst entry_after]. by rewrite IH, exec_lookup.
Qed.

Lemma run_app now l1 l2 (σ : store) :
  run now (l1 ++ l2) σ
  = ((run now l2 (run now l1 σ).1).1, (run now l1 σ).2 && (run now l2 (run now l1 σ).1).2).
Proof.
  revert σ. induction l1 as [|c l1 IH]; intros σ.
  - simpl. by destruct (run now l2 σ).
  - rewrite <-app_comm_cons, !run_cons, IH. cbn [fst snd]. by rewrite andb_assoc.
Qed.

Lemma holds_zset_exec now c o :
  holds_zset o = true →
  (match c with SETEX _ _ _ | HINCRBY _ _ _ => False | _ => True end) →
  holds_zset (exec_entry now c o).1 = true ∧ (exec_entry now c o).2 = true.
Proof.
  intros Ho Hc. destruct c; try done;
    destruct o as [[[s|z|h] [t|]]|]; try done; cbn; unfold live; cbn;
    repeat case_match; simplify_eq/=; done.
Qed.

Lemma holds_hash_exec now c o :
  holds_hash o = true →
  (match c with SETEX _ _ _ | ZADD _ _ _ | ZREM _ _ => False | _ => True end) →
  holds_hash (exec_entry now c o).1 = true ∧ (exec_entry now c o).2 = true.
Proof.
  intros Ho Hc. destruct c; try done;
    destruct o as [[[s|z|h] [t|]]|]; try done; cbn; unfold live; cbn;
    repeat case_match; simplify_eq/=; done.
Qed.

Lemma exec_snd now c (σ : store) :
  (exec now c σ).2 = (exec_entry now c (σ !! cmd_key c)).2.
Proof. reflexivity. Qed.

Lemma exec_respects now c self (σ : store) :
  constructed self →
  well_typed self σ = true → respects self c →
  well_typed self (exec now c σ).1 = true
  ∧ (positive_ttl c → (exec now c σ).2 = true).
Proof.
  intros Hself [Hz Hh]%andb_prop Hc.
  pose proof (access_ne_stat self Hself) as Hne.
  unfold well_typed. rewrite !exec_lookup, exec_snd.
  destruct c as [k s v|k|k s m|k m|k f a|k s]; cbn [cmd_key respects positive_ttl] in *.
  - destruct Hc as [? ?]. rewrite !decide_False by done.
    rewrite Hz, Hh. split; [done|]. intros ?. cbn.
    case_match; [lia|done].
  - split; [|done]. repeat case_decide; cbn; by rewrite ?Hz, ?Hh.
  - subst k. rewrite decide_True, decide_False by done.
    destruct (holds_zset_exec now (ZADD (access_key self) s m) _ Hz I) as [-> Hok].
    rewrite Hh. split; [done|]. by intros _.
  - subst k. rewrite decide_True, decide_False by done.
    destruct (holds_zset_exec now (ZREM (access_key self) m) _ Hz I) as [-> Hok].
    rewrite Hh. split; [done|]. by intros _.
  - subst k. rewrite decide_False, decide_True by done.
    destruct (holds_hash_exec now (HINCRBY (stat_key self) f a) _ Hh I) as [-> Hok].
    rewrite Hz. split; [done|]. by intros _.
  - split.
    + repeat case_decide; subst.
      * done.
      * destruct (holds_zset_exec now (EXPIRE (access_key self) s) _ Hz I) as [-> _].
        by rewrite Hh.
      * rewrite Hz. by destruct (holds_hash_exec now (EXPIRE (stat_key self) s) _ Hh I) as [-> _].
      * by rewrite Hz, Hh.
    + intros _. cbn. repeat case_match; done.
Qed.

Lemma run_respects now cmds self (σ : store) :
  constructed self →
  well_typed self σ = true → Forall (respects self) cmds →
  well_typed self (run now cmds σ).1 = true
  ∧ (Forall positive_ttl cmds → (run now cmds σ).2 = true).
Proof.
  intros Hself. revert σ.
  induction cmds as [|c cmds IH]; intros σ Hσ Hcs; [done|].
  apply Forall_cons in Hcs as [Hc Hcs]. rewrite run_cons. cbn [fst snd].
  destruct (exec_respects now c self σ Hself Hσ Hc) as [Hσ1 Hok1].
  destruct (IH _ Hσ1 Hcs) as [Hσ2 Hok2].
  split; [done|]. intros [? ?]%Forall_cons. rewrite Hok1, Hok2; done.
Qed.

Lemma execute_fst now cmds (σ : store) : (execute now cmds σ).1 = (run now cmds σ).1.
Proof. unfold execute. by destruct (run now cmds σ). Qed.

Lemma execute_ok now cmds (σ : store) :
  (run now cmds σ).2 = true → execute now cmds σ = ((run now cmds σ).1, Ok tt).
Proof. unfold execute. destruct (run now cmds σ). simpl. by intros ->. Qed.

(** ** Entries under one key *)

Lemma entry_after_cons_eq now c cmds k o :
  cmd_key c = k →
  entry_after now (c :: cmds) k o = entry_after now cmds k (exec_entry now c o).1.
Proof. intros. simpl. by rewrite decide_True. Qed.

Lemma entry_after_cons_ne now c cmds k o :
  cmd_key c ≠ k →
  entry_after now (c :: cmds) k o = entry_after now cmds k o.
Proof. intros. simpl. by rewrite decide_False. Qed.

Lemma entry_after_app now l1 l2 k o :
  entry_after now (l1 ++ l2) k o = entry_after now l2 k (entry_after now l1 k o).
Proof. revert o. induction l1 as [|c l1 IH]; intros o; simpl; [done|]. by rewrite IH. Qed.

Lemma access_ne_physical_key self k :
  constructed self → access_key self ≠ physical_key self k.
Proof. intros H Heq. by apply (physical_key_ne_access self k H). Qed.

Lemma stat_ne_physical_key self k :
  constructed self → stat_key self ≠ physical_key self k.
Proof. intros H Heq. by apply (physical_key_ne_stat self k H). Qed.

Lemma stat_ne_access self : constructed self → stat_key self ≠ access_key self.
Proof. intros H Heq. by apply (access_ne_stat self H). Qed.

Create HintDb keys discriminated.
#[export] Hint Resolve physical_key_ne_access physical_key_ne_stat access_ne_stat
  access_ne_physical_key stat_ne_physical_key stat_ne_access : keys.

Ltac entry_step :=
  first [ rewrite entry_after_cons_eq by reflexivity
        | rewrite entry_after_cons_ne by (cbn [cmd_key]; eauto with keys) ].

Ltac entry_steps := repeat entry_step; cbn [entry_after].

Lemma deadline_live now seconds rv :
  0 ≤ seconds → live now {| rval := rv; expire_at := Some (deadline now seconds) |} = true.
Proof.
  intros. unfold live, deadline, ticks_per_second. simpl. apply Z.leb_le. lia.
Qed.

(** A counter is incremented and the stat key gets its thirty days. *)
Lemma stat_bump now k k' f n o :
  holds_hash o = true →
  (exec_entry now (EXPIRE k' EXPIRATION_STAT_KEY) (exec_entry now (HINCRBY k f n) o).1).1
  = Some {| rval := RHash (<[f := default 0 (fields_of (alive now o) !! f) + n]>
                             (fields_of (alive now o)));
            expire_at := Some (deadline now EXPIRATION_STAT_KEY) |}.
Proof.
  intros Ho. destruct o as [[[s|z|h] [t|]]|]; try done; cbn.
  - destruct (now <=? t) eqn:Hlive; cbn; unfold live; cbn; rewrite ?Hlive; cbn;
      by rewrite ?insert_empty.
Qed.

Lemma hincrby_holds now k f n o :
  holds_hash o = true → holds_hash (exec_entry now (HINCRBY k f n) o).1 = true.
Proof. intros Ho. by destruct (holds_hash_exec now (HINCRBY k f n) o Ho I). Qed.

Lemma hgetall_typed now (σ : store) k :
  holds_hash (σ !! k) = true → HGETALL now σ k = Ok (fields_of (alive now (σ !! k))).
Proof.
  unfold HGETALL, lookup_live. destruct (σ !! k) as [[[s|z|h] t]|]; try done; cbn.
  all: by destruct (live now _).
Qed.

Lemma counter_typed self now (σ : store) f :
  holds_hash (σ !! stat_key self) = true →
  counter self now σ f = default 0 (fields_of (alive now (σ !! stat_key self)) !! f).
Proof. intros Hh. unfold counter, report_usage. by rewrite hgetall_typed. Qed.

Lemma well_typed_stat self (σ : store) :
  well_typed self σ = true → holds_hash (σ !! stat_key self) = true.
Proof. by intros [_ ?]%andb_prop. Qed.

Lemma well_typed_access self (σ : store) :
  well_typed self σ = true → holds_zset (σ !! access_key self) = true.
Proof. by intros [? _]%andb_prop. Qed.

Lemma alive_stat_bumped now h :
  alive now (Some {| rval := RHash h; expire_at := Some (deadline now EXPIRATION_STAT_KEY) |})
  = Some {| rval := RHash h; expire_at := Some (deadline now EXPIRATION_STAT_KEY) |}.
Proof. unfold alive. by rewrite deadline_live. Qed.

(** ** A stored entry that does not decode *)

(** C9: when the entry of [k] is present and its bytes do not decode,
    the lookup deletes the entry, adds one to LOADS_ERROR and raises
    KeyError, the exception of a miss; no exception of the decoder
    reaches the caller. *)
Theorem undecodable_entry_is_dropped (C : codec) self k raw now (σ : store) :
  constructed self →
  well_typed self σ = true →
  GET now σ (physical_key self k) = Ok (Some raw) →
  json_loads C raw = None →
  ∃ σ', __getitem__ C self (Str k) now σ
        = (σ', Raise (KeyError (Bytes (physical_key self k))))
    ∧ σ' !! physical_key self k = None
    ∧ GET now σ' (physical_key self k) = Ok None
    ∧ counter self now σ' LOADS_ERROR = counter self now σ LOADS_ERROR + 1.
Proof.
  intros Hself Hσ Hget Hloads.
  set (cmds := [Redis.DEL (physical_key self k);
                HINCRBY (stat_key self) LOADS_ERROR 1;
                EXPIRE (stat_key self) EXPIRATION_STAT_KEY]).
  assert (Hcmds : Forall (respects self) cmds) by (repeat constructor).
  assert (Hpos : Forall positive_ttl cmds) by (repeat constructor).
  destruct (run_respects now cmds self σ Hself Hσ Hcmds) as [Hσ' Hok].
  specialize (Hok Hpos).
  exists (run now cmds σ).1.
  assert (Hgone : (run now cmds σ).1 !! physical_key self k = None).
  { rewrite run_lookup. unfold cmds. by entry_steps. }
  repeat split.
  - unfold __getitem__. rewrite joint_key_str. unfold encode.
    rewrite Hget, Hloads. unfold redis_pipeline. fold cmds.
    by rewrite (execute_ok now cmds σ Hok).
  - done.
  - unfold GET, lookup_live. by rewrite Hgone.
  - pose proof (well_typed_stat self σ Hσ) as Hh.
    rewrite !counter_typed by eauto using well_typed_stat.
    rewrite run_lookup. unfold cmds. entry_steps.
    rewrite stat_bump by done. rewrite alive_stat_bumped. cbn [fields_of].
    by rewrite lookup_insert_eq.
Qed.

Lemma sample_constructed : constructed d.
Proof. exists (Some (Str "unique_key")), EmptyString. reflexivity. Qed.

Lemma undecodable_entry_is_dropped_witness :
  constructed d
  ∧ well_typed d corrupt = true
  ∧ GET 0 corrupt (physical_key d "foo") = Ok (Some "{oops")
  ∧ json_loads int_codec "{oops" = None
  ∧ ∃ σ', __getitem__ int_codec d (Str "foo") 0 corrupt
          = (σ', Raise (KeyError (Bytes (physical_key d "foo"))))
      ∧ σ' !! physical_key d "foo" = None
      ∧ GET 0 σ' (physical_key d "foo") = Ok None
      ∧ counter d 0 σ' LOADS_ERROR = counter d 0 corrupt LOADS_ERROR + 1.
Proof.
  assert (H1 : constructed d)
    by (exists (Some (Str "unique_key")), EmptyString; reflexivity).
  assert (H2 : well_typed d corrupt = true) by (vm_compute; reflexivity).
  assert (H3 : GET 0 corrupt (physical_key d "foo") = Ok (Some "{oops"))
    by (vm_compute; reflexivity).
  assert (H4 : json_loads int_codec "{oops" = None) by reflexivity.
  exact (conj H1 (conj H2 (conj H3 (conj H4
    (undecodable_entry_is_dropped int_codec d "foo" "{oops" 0 corrupt H1 H2 H3 H4))))).
Defined.

(** ** The size of an eviction batch *)

Lemma round53_nonneg n e : 0 ≤ n → 0 ≤ (round53 n e).1.
Proof.
  intros Hn. unfold round53.
  destruct (Z.log2 n + 1 <=? 53); [done|]. cbn [fst].
  assert (0 ≤ Z.shiftr n (Z.log2 n + 1 - 53)) by by apply Z.shiftr_nonneg.
  case_match; lia.
Qed.

Lemma round_signed_nonneg n e : 0 ≤ n → 0 ≤ (round_signed n e).1.
Proof.
  intros Hn. unfold round_signed.
  pose proof (round53_nonneg (Z.abs n) e (Z.abs_nonneg n)) as Hr.
  destruct (round53 (Z.abs n) e) as [m e']. cbn [fst] in *.
  assert (0 ≤ Z.sgn n) by lia. nia.
Qed.

Lemma int_of_float_nonneg x : 0 ≤ x.1 → 0 ≤ int_of_float x.
Proof.
  intros Hx. unfold int_of_float. case_match.
  - apply Z.mul_nonneg_nonneg; [done|]. apply Z.pow_nonneg. lia.
  - apply Z.quot_pos; [done|]. apply Z.pow_pos_nonneg; lia.
Qed.

Lemma once_clean_size_nonneg self :
  constructed self → 0 ≤ max_size self → 0 ≤ once_clean_size self.
Proof.
  intros (_ & _ & x & Hx & ->)%constructed_inv Hm.
  apply int_of_float_nonneg.
  unfold int_times_float, float_of_int in Hx.
  pose proof (round_signed_nonneg (max_size self) 0 Hm) as Hf.
  destruct (round_signed (max_size self) 0) as [m e]. cbn [fst] in Hf.
  destruct (2 ^ 1024 <=? Z.abs m * 2 ^ e); [done|].
  cbn in Hx. injection Hx as <-.
  apply round_signed_nonneg. cbn. lia.
Qed.

(** ** Sorted sets *)

Global Instance zle_total : Total zle.
Proof.
  intros [m t] [m' t']. unfold zle. cbn.
  destruct (Z.lt_trichotomy t t') as [?|[->|?]]; [by left; left| |by right; left].
  destruct (total String.le m m'); [left|right]; by right.
Qed.

Global Instance zle_trans : Transitive zle.
Proof.
  intros [m1 t1] [m2 t2] [m3 t3]. unfold zle. cbn.
  intros [?|[-> H12]] [?|[-> H23]]; [left; lia|by left|by left|].
  right. split; [done|]. by etrans.
Qed.

Lemma zle_score x y : zle x y → x.2 ≤ y.2.
Proof. unfold zle. lia. Qed.

Lemma zsorted_sorted z : StronglySorted zle (zsorted z).
Proof. apply (StronglySorted_merge_sort zle). Qed.

Lemma zsorted_perm z : zsorted z ≡ₚ map_to_list z.
Proof. apply merge_sort_Permutation. Qed.

Lemma elem_of_zsorted z m t : (m, t) ∈ zsorted z ↔ z !! m = Some t.
Proof. by rewrite zsorted_perm, elem_of_map_to_list. Qed.

Lemma zsorted_nodup z : NoDup (zsorted z).*1.
Proof. rewrite zsorted_perm. apply NoDup_fst_map_to_list. Qed.

Lemma length_zsorted z : length (zsorted z) = base.size z.
Proof. by rewrite zsorted_perm, length_map_to_list. Qed.

Lemma range_slice_prefix {A} (l : list A) stop :
  0 ≤ stop → range_slice l 0 stop = take (Z.to_nat (stop + 1)) l.
Proof.
  intros Hstop. unfold range_slice. cbv zeta.
  assert (E1 : (stop <? 0) = false) by (apply Z.ltb_ge; lia).
  change (0 <? 0) with false. cbv iota. rewrite !E1.
  change (0 <? 0) with false. cbv iota. rewrite ?E1. cbn [orb].
  rewrite drop_0, Z.sub_0_r.
  destruct (Z.of_nat (length l) <=? 0) eqn:Hlen.
  - apply Z.leb_le in Hlen. destruct l; [symmetry; apply take_nil|simpl in Hlen; lia].
  - apply Z.leb_gt in Hlen.
    destruct (Z.of_nat (length l) <=? stop) eqn:Hs; [|done].
    apply Z.leb_le in Hs. rewrite !take_ge by lia. done.
Qed.

(** ** The keys that an eviction pass selects *)

Lemma victims_alt self z :
  victims self z = (take (Z.to_nat (once_clean_size self + 1)) (zsorted z)).*1.
Proof. unfold victims. by rewrite fmap_take. Qed.

Lemma elem_of_victims self z m :
  m ∈ victims self z →
  ∃ t, z !! m = Some t ∧ (m, t) ∈ take (Z.to_nat (once_clean_size self + 1)) (zsorted z).
Proof.
  rewrite victims_alt. intros ([m' t] & -> & Hin)%list_elem_of_fmap.
  exists t. split; [|done].
  apply elem_of_zsorted. cbn. by eapply subseteq_take.
Qed.

Lemma victims_length self z :
  length (victims self z)
  = Nat.min (Z.to_nat (once_clean_size self + 1)) (base.size z).
Proof. unfold victims. by rewrite length_take, length_fmap, length_zsorted. Qed.

Lemma victims_nodup self z : NoDup (victims self z).
Proof.
  unfold victims. eapply sublist_NoDup; [apply zsorted_nodup|apply sublist_take].
Qed.

(** No victim was accessed later than a record that is not a victim. *)
Lemma victims_oldest self z m t m' t' :
  m ∈ victims self z → z !! m = Some t →
  m' ∉ victims self z → z !! m' = Some t' →
  t ≤ t'.
Proof.
  intros (t0 & Hm & Hin)%elem_of_victims Hmt Hm' Hmt'.
  assert (t0 = t) as -> by congruence.
  apply elem_of_zsorted in Hmt'.
  rewrite <-(take_drop (Z.to_nat (once_clean_size self + 1)) (zsorted z)) in Hmt'.
  apply elem_of_app in Hmt' as [Hhead|Htail].
  - exfalso. apply Hm'. rewrite victims_alt.
    apply list_elem_of_fmap. by exists (m', t').
  - apply (zle_score (m, t) (m', t')).
    eapply (StronglySorted_app_1_elem_of zle); [|done..].
    rewrite take_drop. apply zsorted_sorted.
Qed.

Lemma zset_at_typed now (σ : store) k :
  holds_zset (σ !! k) = true → zset_at now σ k = Ok (members_of (alive now (σ !! k))).
Proof.
  unfold zset_at, lookup_live. destruct (σ !! k) as [[[s|z|h] t]|]; try done; cbn.
  all: by destruct (live now _).
Qed.

(** ** The commands of an eviction pass *)

Lemma eviction_cons self k keys :
  eviction self (k :: keys)
  = Redis.DEL k :: ZREM (access_key self) k :: eviction self keys.
Proof. reflexivity. Qed.

Lemma eviction_respects self keys : Forall (respects self) (eviction self keys).
Proof. induction keys as [|k keys IH]; [constructor|]. by repeat constructor. Qed.

Lemma eviction_positive self keys : Forall positive_ttl (eviction self keys).
Proof. induction keys as [|k keys IH]; [constructor|]. by repeat constructor. Qed.

Lemma eviction_entry_none now self keys k :
  entry_after now (eviction self keys) k None = None.
Proof.
  induction keys as [|k0 keys IH]; [done|].
  rewrite eviction_cons. cbn [entry_after cmd_key]. by repeat case_decide.
Qed.

(** The entry of a selected key is deleted. *)
Lemma eviction_entry_victim now self keys k o :
  k ∈ keys → entry_after now (eviction self keys) k o = None.
Proof.
  revert o. induction keys as [|k0 keys IH]; intros o Hk; [by apply elem_of_nil in Hk|].
  rewrite eviction_cons. cbn [entry_after cmd_key].
  destruct (decide (k0 = k)) as [->|Hne].
  - destruct (decide (access_key self = k)); cbn; apply eviction_entry_none.
  - apply elem_of_cons in Hk as [->|Hk]; [done|]. by apply IH.
Qed.

(** The entries of the other keys stay, the tracker apart. *)
Lemma eviction_entry_other now self keys k o :
  k ∉ keys → k ≠ access_key self →
  entry_after now (eviction self keys) k o = o.
Proof.
  revert o. induction keys as [|k0 keys IH]; intros o Hk Hne; [done|].
  apply not_elem_of_cons in Hk as [? ?].
  rewrite eviction_cons. cbn [entry_after cmd_key].
  rewrite !decide_False by done. by apply IH.
Qed.

Lemma zrem_live now k m z d :
  live now {| rval := RZSet z; expire_at := d |} = true →
  (exec_entry now (ZREM k m) (Some {| rval := RZSet z; expire_at := d |})).1
  = if decide (delete m z = ∅) then None
    else Some {| rval := RZSet (delete m z); expire_at := d |}.
Proof. intros Hl. cbn. rewrite Hl. by case_decide. Qed.

(** The tracker after an eviction pass keeps nothing but records it had,
    and none of the selected keys. *)
Lemma eviction_entry_access_sub now self keys z d :
  live now {| rval := RZSet z; expire_at := d |} = true →
  let o' := entry_after now (eviction self keys) (access_key self)
              (Some {| rval := RZSet z; expire_at := d |}) in
  (o' = None ∨ ∃ z', o' = Some {| rval := RZSet z'; expire_at := d |})
  ∧ ∀ m t, members_of o' !! m = Some t → z !! m = Some t ∧ m ∉ keys.
Proof.
  revert z. induction keys as [|k0 keys IH]; intros z Hl; cbn zeta.
  - split; [right; eauto|]. intros m t Hm. split; [done|]. apply not_elem_of_nil.
  - rewrite eviction_cons. cbn [entry_after cmd_key].
    rewrite (decide_True (P := access_key self = access_key self)) by done.
    destruct (decide (k0 = access_key self)) as [->|Hne].
    + cbn. rewrite eviction_entry_none. split; [by left|]. by intros m t Hm.
    + rewrite zrem_live by done.
      destruct (decide (delete k0 z = ∅)) as [Hempty|Hnonempty].
      * rewrite eviction_entry_none. split; [by left|]. by intros m t Hm.
      * destruct (IH (delete k0 z)) as [Hshape Hsub]; [done|].
        split; [done|]. intros m t Hm.
        destruct (Hsub m t Hm) as [Hd Hnin].
        apply lookup_delete_Some in Hd as [? ?].
        split; [done|]. apply not_elem_of_cons. done.
Qed.

(** When the tracker key is not among the selected keys, the tracker
    after the pass holds the records of the other keys, unchanged. *)
Lemma eviction_entry_access_exact now self keys z d :
  live now {| rval := RZSet z; expire_at := d |} = true →
  access_key self ∉ keys →
  ∀ m, members_of (entry_after now (eviction self keys) (access_key self)
                     (Some {| rval := RZSet z; expire_at := d |})) !! m
       = if decide (m ∈ keys) then None else z !! m.
Proof.
  revert z. induction keys as [|k0 keys IH]; intros z Hl Hacc m.
  - cbn. by rewrite decide_False by apply not_elem_of_nil.
  - apply not_elem_of_cons in Hacc as [Hne Hacc].
    rewrite eviction_cons. cbn [entry_after cmd_key].
    rewrite (decide_True (P := access_key self = access_key self)) by done.
    rewrite (decide_False (P := k0 = access_key self)) by done.
    rewrite zrem_live by done.
    destruct (decide (delete k0 z = ∅)) as [Hempty|Hnonempty].
    + rewrite eviction_entry_none. cbn. rewrite lookup_empty.
      case_decide as Hin; [done|].
      apply not_elem_of_cons in Hin as [Hm _].
      rewrite <-(lookup_delete_ne z k0 m) by done. by rewrite Hempty, lookup_empty.
    + rewrite IH by done.
      destruct (decide (m ∈ keys)) as [Hin|Hin].
      * by rewrite decide_True by (by apply list_elem_of_further).
      * destruct (decide (m = k0)) as [->|Hm].
        -- rewrite decide_True by apply list_elem_of_here. apply lookup_delete_eq.
        -- rewrite decide_False by (by apply not_elem_of_cons).
           by apply lookup_delete_ne.
Qed.

(** ** Making room *)

Lemma size_typed self now (σ : store) :
  holds_zset (σ !! access_key self) = true →
  size self now σ
  = Ok (Z.of_nat (base.size (members_of (alive now (σ !! access_key self))))).
Proof. intros Hz. unfold size, ZCARD. by rewrite zset_at_typed. Qed.

Lemma zrange_typed self now (σ : store) :
  holds_zset (σ !! access_key self) = true →
  0 ≤ once_clean_size self →
  ZRANGE now σ (access_key self) 0 (once_clean_size self)
  = Ok (victims self (members_of (alive now (σ !! access_key self)))).
Proof.
  intros Hz Hocs. unfold ZRANGE. rewrite zset_at_typed by done. cbn.
  by rewrite range_slice_prefix.
Qed.

(** The commands of one pass of [_ensure_room] over the live tracker [z]. *)
Lemma ensure_room_eq self now (σ : store) :
  constructed self →
  well_typed self σ = true →
  0 ≤ once_clean_size self →
  let z := members_of (alive now (σ !! access_key self)) in
  _ensure_room self now σ
  = if Z.of_nat (base.size z) <? max_size self then (σ, Ok true)
    else ((run now (eviction self (victims self z)
                      ++ [HINCRBY (stat_key self) POP (Z.of_nat (length (victims self z)))]) σ).1,
          Ok false).
Proof.
  intros Hself Hσ Hocs z.
  pose proof (well_typed_access self σ Hσ) as Hz.
  unfold _ensure_room. rewrite size_typed by done. fold z.
  destruct (Z.of_nat (base.size z) <? max_size self); [done|].
  rewrite zrange_typed by done. fold z.
  unfold redis_pipeline. fold (eviction self (victims self z)).
  rewrite execute_ok; [done|].
  apply (run_respects now _ self σ Hself Hσ).
  - apply Forall_app. split; [apply eviction_respects|by repeat constructor].
  - apply Forall_app. split; [apply eviction_positive|by repeat constructor].
Qed.

Lemma ensure_room_well_typed self now (σ : store) :
  constructed self →
  well_typed self σ = true →
  0 ≤ once_clean_size self →
  well_typed self (_ensure_room self now σ).1 = true
  ∧ ∃ b, (_ensure_room self now σ).2 = Ok b.
Proof.
  intros Hself Hσ Hocs. rewrite ensure_room_eq by done. cbn zeta.
  case_match; cbn [fst snd]; [by eauto|].
  split; [|by eauto].
  apply (run_respects now _ self σ Hself Hσ).
  apply Forall_app. split; [apply eviction_respects|by repeat constructor].
Qed.

(** ** The batch is smaller than the capacity *)

Lemma round53_bound n e :
  0 ≤ n →
  e ≤ (round53 n e).2
  ∧ 0 ≤ (round53 n e).1
  ∧ (round53 n e).1 * 2 ^ ((round53 n e).2 - e) ≤ 2 * n.
Proof.
  intros Hn. unfold round53.
  destruct (Z.log2 n + 1 <=? 53) eqn:Hbits; cbn [fst snd].
  - rewrite Z.sub_diag. cbn. lia.
  - apply Z.leb_gt in Hbits.
    set (sh := Z.log2 n + 1 - 53).
    assert (0 < sh) by (unfold sh; lia).
    assert (0 < n) by (destruct (Z.eq_dec n 0) as [->|]; [cbn in Hbits; lia|lia]).
    replace (e + sh - e) with sh by lia.
    assert (Hq : Z.shiftr n sh = n / 2 ^ sh) by (apply Z.shiftr_div_pow2; lia).
    assert (Hpow : 0 < 2 ^ sh) by (apply Z.pow_pos_nonneg; lia).
    assert (Hle : n / 2 ^ sh * 2 ^ sh ≤ n)
      by (rewrite Z.mul_comm; apply Z.mul_div_le; lia).
    assert (Hsmall : 2 ^ sh ≤ n).
    { transitivity (2 ^ Z.log2 n).
      - apply Z.pow_le_mono_r; unfold sh; lia.
      - apply Z.log2_spec. lia. }
    assert (0 ≤ n / 2 ^ sh) by (apply Z.div_pos; lia).
    rewrite Hq. split; [lia|].
    case_match; split; nia.
Qed.

Lemma int_of_float_scaled m k :
  0 ≤ m → 0 ≤ k → int_of_float (m, k - 56) * 2 ^ 56 ≤ m * 2 ^ k.
Proof.
  intros Hm Hk. unfold int_of_float. cbn [fst snd].
  destruct (0 <=? k - 56) eqn:He.
  - apply Z.leb_le in He.
    rewrite <-Z.mul_assoc, <-Z.pow_add_r by lia.
    replace (k - 56 + 56) with k by lia. lia.
  - apply Z.leb_gt in He.
    assert (Hpos : 0 < 2 ^ (- (k - 56))) by (apply Z.pow_pos_nonneg; lia).
    rewrite Z.quot_div_nonneg by lia.
    assert (Hsplit : 2 ^ 56 = 2 ^ (- (k - 56)) * 2 ^ k).
    { rewrite <-Z.pow_add_r by lia. f_equal. lia. }
    rewrite Hsplit, Z.mul_assoc.
    apply Z.mul_le_mono_nonneg_r; [apply Z.pow_nonneg; lia|].
    rewrite Z.mul_comm. apply Z.mul_div_le. lia.
Qed.

(** For a positive capacity, [int(max_size * 0.1)] is below the capacity. *)
Lemma once_clean_size_lt self :
  constructed self → 0 < max_size self → once_clean_size self < max_size self.
Proof.
  intros (_ & _ & x & Hx & ->)%constructed_inv Hm.
  unfold int_times_float, float_of_int, round_signed in Hx.
  rewrite Z.abs_eq in Hx by lia.
  destruct (round53_bound (max_size self) 0) as (He1 & Hm1 & Hb1); [lia|].
  destruct (round53 (max_size self) 0) as [m1 e1]. cbn [fst snd] in *.
  rewrite Z.sgn_pos in Hx by lia. rewrite Z.mul_1_l in Hx.
  destruct (2 ^ 1024 <=? Z.abs m1 * 2 ^ e1); [done|].
  cbn [bind] in Hx. injection Hx as <-.
  unfold float_mul, round_signed, ONCE_CLEAN_RATIO. cbn [fst snd].
  set (c := 7205759403792794) in *.
  rewrite Z.abs_eq by (unfold c; lia).
  destruct (round53_bound (m1 * c) (e1 + -56)) as (He2 & Hm2 & Hb2); [unfold c; lia|].
  destruct (round53 (m1 * c) (e1 + -56)) as [m2 e2]. cbn [fst snd] in *.
  assert (Hs : Z.sgn (m1 * c) * m2 = m2).
  { destruct (Z.eq_dec m1 0) as [->|].
    - rewrite Z.mul_0_l in Hb2. cbn.
      assert (0 < 2 ^ (e2 - (e1 + -56))) by (apply Z.pow_pos_nonneg; lia). nia.
    - rewrite Z.sgn_pos by (unfold c; lia). lia. }
  rewrite Hs.
  rewrite Z.sub_0_r in Hb1.
  set (E := e2 - (e1 + -56)) in *.
  replace e2 with ((E + e1) - 56) by (unfold E; lia).
  pose proof (int_of_float_scaled m2 (E + e1) Hm2 ltac:(lia)) as Hocs.
  rewrite Z.pow_add_r in Hocs by lia.
  assert (0 < 2 ^ e1) by (apply Z.pow_pos_nonneg; lia).
  assert (0 < 2 ^ E) by (apply Z.pow_pos_nonneg; lia).
  assert (Hchain : m2 * (2 ^ E * 2 ^ e1) ≤ 4 * c * max_size self) by nia.
  assert (H56 : 4 * c < 2 ^ 56) by (unfold c; reflexivity).
  assert (0 < 2 ^ 56) by reflexivity.
  nia.
Qed.

Lemma tenth_up_to_4096 :
  forallb (λ m, match int_times_float m ONCE_CLEAN_RATIO with
                | Ok x => int_of_float x =? m / 10
                | Raise _ => false
                end) (seqZ 0 4097) = true.
Proof. vm_compute. reflexivity. Qed.

(** For the capacities up to 4096, [int(max_size * 0.1)] is the integer
    part of a tenth of the capacity. *)
Lemma once_clean_size_tenth self :
  constructed self → 0 ≤ max_size self ≤ 4096 →
  once_clean_size self = max_size self / 10.
Proof.
  intros (_ & _ & x & Hx & ->)%constructed_inv Hm.
  pose proof tenth_up_to_4096 as Hall.
  rewrite forallb_forall in Hall.
  specialize (Hall (max_size self)). rewrite Hx in Hall.
  apply Z.eqb_eq, Hall, list_elem_of_In, elem_of_seqZ. lia.
Qed.

(** What rounding to 53 bits does to a mantissa of more than 53 bits:
    it drops [sh] bits and moves by at most half a unit of the last
    place that stays. *)
Lemma round53_long n e :
  53 < Z.log2 n + 1 →
  let sh := Z.log2 n + 1 - 53 in
  (round53 n e).2 = e + sh
  ∧ n / 2 ^ sh ≤ (round53 n e).1
  ∧ 2 * (round53 n e).1 * 2 ^ sh ≤ 2 * n + 2 ^ sh.
Proof.
  intros Hbits sh. unfold round53.
  rewrite (proj2 (Z.leb_gt _ _)) by lia. fold sh. cbn [fst snd].
  assert (Hsh : 0 < sh) by (unfold sh; lia).
  assert (Hn : 0 < n).
  { destruct (Z.le_gt_cases n 0) as [Hle|]; [|done].
    rewrite Z.log2_nonpos in Hbits by done. lia. }
  rewrite Z.shiftr_div_pow2, Z.land_ones, Z.shiftl_1_l by lia.
  assert (Hp : 0 < 2 ^ sh) by (apply Z.pow_pos_nonneg; lia).
  assert (Hhalf : 2 ^ sh = 2 * 2 ^ (sh - 1)).
  { rewrite <-Z.pow_succ_r by lia. f_equal. lia. }
  pose proof (Z.div_mod n (2 ^ sh) ltac:(lia)) as Hdm.
  pose proof (Z.mod_pos_bound n (2 ^ sh) Hp) as Hr.
  set (q := n / 2 ^ sh) in *. set (r := n mod 2 ^ sh) in *.
  set (half := 2 ^ (sh - 1)) in *.
  split; [done|].
  destruct ((half <? r) || (r =? half) && Z.odd q) eqn:Hup.
  - assert (half ≤ r).
    { apply orb_true_iff in Hup as [Hlt|[Heq _]%andb_true_iff]; lia. }
    split; [lia|]. nia.
  - split; [lia|]. nia.
Qed.

(** For a capacity below [2^52], [int(max_size * 0.1)] is the integer
    part of a tenth of the capacity: neither the excess of the double
    nearest to 0.1 nor the rounding of the product reaches the next
    integer. *)
Lemma once_clean_size_floor self :
  constructed self → 0 ≤ max_size self < 2 ^ 52 →
  once_clean_size self = max_size self / 10.
Proof.
  intros (_ & _ & x & Hx & ->)%constructed_inv [Hm0 Hm].
  set (n := max_size self) in *.
  unfold int_times_float, float_of_int, round_signed in Hx.
  rewrite Z.abs_eq in Hx by done.
  assert (Hexact : round53 n 0 = (n, 0)).
  { unfold round53. rewrite (proj2 (Z.leb_le _ _)); [done|].
    destruct (Z.eq_dec n 0) as [->|Hne]; [done|].
    assert (Z.log2 n < 52) by (apply Z.log2_lt_pow2; lia). lia. }
  rewrite Hexact in Hx.
  destruct (Z.eq_dec n 0) as [Hz|Hne].
  { rewrite Hz in *. cbn in Hx. injection Hx as <-. reflexivity. }
  rewrite Z.sgn_pos, Z.mul_1_l, Z.abs_eq, Z.pow_0_r, Z.mul_1_r in Hx by lia.
  assert (Hfin : (2 ^ 1024 <=? n) = false).
  { apply Z.leb_gt. assert (2 ^ 52 < 2 ^ 1024) by reflexivity. lia. }
  rewrite Hfin in Hx. cbn [bind] in Hx. injection Hx as <-.
  unfold float_mul, round_signed, ONCE_CLEAN_RATIO. cbn [fst snd].
  set (c := 7205759403792794).
  assert (Hc : 10 * c = 2 ^ 56 + 4) by reflexivity.
  assert (H56 : 2 ^ 56 = 72057594037927936) by reflexivity.
  assert (H52 : 2 ^ 52 = 4503599627370496) by reflexivity.
  assert (HN : 0 < n * c) by (unfold c; lia).
  rewrite (Z.abs_eq (n * c)), (Z.sgn_pos (n * c)) by lia.
  pose proof (Z.div_mod n 10 ltac:(lia)) as Hdm.
  pose proof (Z.mod_pos_bound n 10 ltac:(lia)) as Hr.
  set (k := n / 10) in *.
  destruct (Z.le_gt_cases (Z.log2 (n * c) + 1) 53) as [Hshort|Hlong].
  - (* the product has at most 53 bits *)
    unfold round53. rewrite (proj2 (Z.leb_le _ _)) by done.
    rewrite Z.mul_1_l. unfold int_of_float. cbn [fst snd].
    change (0 <=? 0 + -56) with false. cbn iota.
    assert (n * c < 2 ^ 53).
    { apply Z.log2_lt_pow2; lia. }
    assert (H53 : 2 ^ 53 = 9007199254740992) by reflexivity.
    assert (n = 1) by (unfold c in *; lia).
    change (- (0 + -56)) with 56.
    rewrite Z.quot_small by lia.
    unfold k. subst n. replace (max_size self) with 1 by done. reflexivity.
  - destruct (round53_long (n * c) (0 + -56) Hlong) as (He & Hlo & Hhi).
    set (sh := Z.log2 (n * c) + 1 - 53) in *.
    destruct (round53 (n * c) (0 + -56)) as [q' e']. cbn [fst snd] in *.
    rewrite Z.mul_1_l. subst e'.
    assert (Hsh : 0 < sh ≤ 52).
    { split; [unfold sh; lia|].
      assert (Z.log2 (n * c) < 105); [|unfold sh; lia].
      apply Z.log2_lt_pow2; [done|].
      assert (c < 2 ^ 53) by reflexivity.
      change (2 ^ 105) with (2 ^ 52 * 2 ^ 53). nia. }
    unfold int_of_float. cbn [fst snd].
    rewrite (proj2 (Z.leb_gt _ _)) by lia.
    replace (- (0 + -56 + sh)) with (56 - sh) by lia.
    set (P := 2 ^ sh) in *. set (D := 2 ^ (56 - sh)).
    assert (HP : 0 < P) by (apply Z.pow_pos_nonneg; lia).
    assert (HD : 0 < D) by (apply Z.pow_pos_nonneg; lia).
    assert (HPD : P * D = 2 ^ 56).
    { unfold P, D. rewrite <-Z.pow_add_r by lia. f_equal. lia. }
    assert (HP52 : P ≤ 2 ^ 52) by (apply Z.pow_le_mono_r; lia).
    assert (Hq' : 0 ≤ q').
    { etrans; [|exact Hlo]. apply Z.div_pos; lia. }
    rewrite Z.quot_div_nonneg by lia.
    symmetry. apply Z.div_unique_pos with (r := q' - k * D); [|lia].
    assert (Hlow : k * D ≤ q').
    { etrans; [|exact Hlo]. apply Z.div_le_lower_bound; [done|].
      replace (P * (k * D)) with (k * 2 ^ 56) by (rewrite <-HPD; ring). nia. }
    split; [lia|].
    (* q' * P < (k + 1) * 2^56 *)
    assert (Hup : 2 * q' * P < 2 * (k + 1) * (P * D)).
    { rewrite HPD. nia. }
    nia.
Qed.

(** ** An eviction pass *)

Lemma victims_length_exact self z :
  constructed self → 0 < max_size self →
  max_size self ≤ Z.of_nat (base.size z) →
  Z.of_nat (length (victims self z)) = once_clean_size self + 1.
Proof.
  intros Hself Hm Hz.
  pose proof (once_clean_size_lt self Hself Hm).
  pose proof (once_clean_size_nonneg self Hself ltac:(lia)).
  rewrite victims_length, Nat2Z.inj_min, Z2Nat.id by lia. lia.
Qed.

Lemma records_typed self now (σ : store) z :
  zset_at now σ (access_key self) = Ok z →
  z ≠ ∅ →
  ∃ d, σ !! access_key self = Some {| rval := RZSet z; expire_at := d |}
       ∧ live now {| rval := RZSet z; expire_at := d |} = true.
Proof.
  unfold zset_at, lookup_live, alive.
  destruct (σ !! access_key self) as [[[s|z'|h] d]|]; cbn;
    try destruct (live now _) eqn:Hl; intros Hz Hne; simplify_eq; eauto.
Qed.

(** C2: an eviction pass over a tracker [z] that has reached the
    capacity selects the first [once_clean_size + 1] keys of the tracker
    in ascending order of access timestamp (ties by key): that is
    [victims].  Their number is [once_clean_size + 1], where
    [once_clean_size] is the integer part of a tenth of the capacity
    (for every capacity below [2^52]), the one key more being that of
    the inclusive upper bound of the range.  The pass deletes the
    entries of the victims and their access records and nothing else:
    the entry of every other key and every other record of the tracker
    stay, and no victim has a timestamp larger than that of a record
    that stays.  The tracker key itself is assumed not to be one of its
    members. *)
Theorem eviction_removes_oldest self now (σ : store) z :
  constructed self →
  0 < max_size self →
  well_typed self σ = true →
  zset_at now σ (access_key self) = Ok z →
  max_size self ≤ Z.of_nat (base.size z) →
  z !! access_key self = None →
  ∃ σ', _ensure_room self now σ = (σ', Ok false)
    ∧ victims self z = take (Z.to_nat (once_clean_size self + 1)) (zsorted z).*1
    ∧ Z.of_nat (length (victims self z)) = once_clean_size self + 1
    ∧ (max_size self < 2 ^ 52 → once_clean_size self = max_size self / 10)
    ∧ (∀ m, m ∈ victims self z → m ≠ stat_key self → σ' !! m = None)
    ∧ (∀ m, m ∉ victims self z → m ≠ access_key self → m ≠ stat_key self →
            σ' !! m = σ !! m)
    ∧ (∀ m, records self σ' !! m
            = if decide (m ∈ victims self z) then None else z !! m)
    ∧ (∀ m t m' t', m ∈ victims self z → z !! m = Some t →
                    records self σ' !! m' = Some t' → t ≤ t').
Proof.
  intros Hself Hm Hσ Hz Hfull Hacc.
  pose proof (once_clean_size_nonneg self Hself ltac:(lia)) as Hocs.
  assert (Hne : z ≠ ∅).
  { intros ->. rewrite map_size_empty in Hfull. lia. }
  destruct (records_typed self now σ z Hz Hne) as (d & Hentry & Hlive).
  assert (Hz' : members_of (alive now (σ !! access_key self)) = z).
  { rewrite Hentry. unfold alive. by rewrite Hlive. }
  pose proof (ensure_room_eq self now σ Hself Hσ Hocs) as Heq.
  cbn zeta in Heq. rewrite Hz' in Heq.
  rewrite (proj2 (Z.ltb_ge _ _)) in Heq by lia.
  eexists. split; [exact Heq|].
  assert (Hin : access_key self ∉ victims self z).
  { intros (t & Ht & _)%elem_of_victims. congruence. }
  assert (Hrec : ∀ m, records self
      (run now (eviction self (victims self z)
                  ++ [HINCRBY (stat_key self) POP (Z.of_nat (length (victims self z)))]) σ).1 !! m
      = if decide (m ∈ victims self z) then None else z !! m).
  { intros m. unfold records. rewrite run_lookup, entry_after_app, Hentry.
    entry_steps. by apply eviction_entry_access_exact. }
  split; [done|]. split; [by apply victims_length_exact|].
  split; [intros Hsmall; apply once_clean_size_floor; [done|lia]|].
  split; [|split; [|split; [exact Hrec|]]].
  - intros m Hvict Hstat. rewrite run_lookup, entry_after_app.
    rewrite eviction_entry_victim by done.
    rewrite entry_after_cons_ne by (cbn [cmd_key]; done). done.
  - intros m Hout Hnacc Hnstat. rewrite run_lookup, entry_after_app.
    rewrite eviction_entry_other by done.
    rewrite entry_after_cons_ne by (cbn [cmd_key]; done). done.
  - intros m t m' t' Hvict Hmt Hm't'. rewrite Hrec in Hm't'.
    case_decide as Hv'; [done|]. by eapply victims_oldest.
Qed.

Lemma eviction_removes_oldest_witness :
  constructed pkg_cache
  ∧ 0 < max_size pkg_cache
  ∧ well_typed pkg_cache crowded = true
  ∧ zset_at 30 crowded (access_key pkg_cache) = Ok crowded_tracker
  ∧ max_size pkg_cache ≤ Z.of_nat (base.size crowded_tracker)
  ∧ crowded_tracker !! access_key pkg_cache = None
  ∧ ∃ σ', _ensure_room pkg_cache 30 crowded = (σ', Ok false)
      ∧ victims pkg_cache crowded_tracker
        = take (Z.to_nat (once_clean_size pkg_cache + 1)) (zsorted crowded_tracker).*1
      ∧ Z.of_nat (length (victims pkg_cache crowded_tracker))
        = once_clean_size pkg_cache + 1
      ∧ (max_size pkg_cache < 2 ^ 52
         → once_clean_size pkg_cache = max_size pkg_cache / 10)
      ∧ (∀ m, m ∈ victims pkg_cache crowded_tracker → m ≠ stat_key pkg_cache →
              σ' !! m = None)
      ∧ (∀ m, m ∉ victims pkg_cache crowded_tracker → m ≠ access_key pkg_cache →
              m ≠ stat_key pkg_cache → σ' !! m = crowded !! m)
      ∧ (∀ m, records pkg_cache σ' !! m
              = if decide (m ∈ victims pkg_cache crowded_tracker) then None
                else crowded_tracker !! m)
      ∧ (∀ m t m' t', m ∈ victims pkg_cache crowded_tracker →
                      crowded_tracker !! m = Some t →
                      records pkg_cache σ' !! m' = Some t' → t ≤ t').
Proof.
  assert (H1 : constructed pkg_cache)
    by (exists (Some (Str "pkg:util:load")), EmptyString; reflexivity).
  assert (H2 : 0 < max_size pkg_cache) by reflexivity.
  assert (H3 : well_typed pkg_cache crowded = true) by (vm_compute; reflexivity).
  assert (H4 : zset_at 30 crowded (access_key pkg_cache) = Ok crowded_tracker)
    by (vm_compute; reflexivity).
  assert (H5 : max_size pkg_cache ≤ Z.of_nat (base.size crowded_tracker))
    by (vm_compute; discriminate).
  assert (H6 : crowded_tracker !! access_key pkg_cache = None)
    by (vm_compute; reflexivity).
  exact (conj H1 (conj H2 (conj H3 (conj H4 (conj H5 (conj H6
    (eviction_removes_oldest pkg_cache 30 crowded crowded_tracker
       H1 H2 H3 H4 H5 H6))))))).
Defined.

(** At the capacity of twenty the batch is of a tenth of the capacity
    and one key more: the pass selects the three keys assigned first. *)
Lemma crowded_victims :
  once_clean_size pkg_cache = 2
  ∧ victims pkg_cache crowded_tracker
    = ["lru-value:pkg:util:load::k1"; "lru-value:pkg:util:load::k2";
       "lru-value:pkg:util:load::k3"].
Proof. vm_compute. done. Qed.

(** In the cache of the doctest at capacity, the pass selects the key
    that was assigned first. *)
Lemma full_victims : victims d full_tracker = ["lru-value:unique_key::a"].
Proof. vm_compute. reflexivity. Qed.

(** ** Item assignment *)

(** The queue that [__setitem__] submits for a value that encodes. *)
Lemma setitem_eq (C : codec) self k v now (σ : store) :
  constructed self →
  well_typed self σ = true →
  0 ≤ once_clean_size self →
  0 < expiration self →
  __setitem__ C self (Str k) v now σ =
  match json_dumps C v with
  | None =>
      ((run now [HINCRBY (stat_key self) DUMPS_ERROR 1;
                 EXPIRE (stat_key self) EXPIRATION_STAT_KEY] σ).1, Ok tt)
  | Some s =>
      ((run now [SETEX (physical_key self k) (expiration self) s;
                 ZADD (access_key self) now (physical_key self k);
                 EXPIRE (access_key self) (expiration self);
                 HINCRBY (stat_key self) SET 1;
                 EXPIRE (stat_key self) EXPIRATION_STAT_KEY]
          (_ensure_room self now σ).1).1, Ok tt)
  end.
Proof.
  intros Hself Hσ Hocs Hexp.
  unfold __setitem__. rewrite joint_key_str. unfold encode, redis_pipeline.
  destruct (json_dumps C v) as [s|].
  - destruct (ensure_room_well_typed self now σ Hself Hσ Hocs) as [Hσ1 [b Hb]].
    destruct (_ensure_room self now σ) as [σ1 r]. cbn [fst snd] in *. subst r.
    apply execute_ok.
    apply (run_respects now _ self σ1 Hself Hσ1).
    + repeat constructor; cbn [respects]; eauto with keys.
    + by repeat constructor.
  - apply execute_ok.
    apply (run_respects now _ self σ Hself Hσ); by repeat constructor.
Qed.

Lemma setitem_well_typed (C : codec) self k v now (σ : store) :
  constructed self →
  well_typed self σ = true →
  0 ≤ once_clean_size self →
  0 < expiration self →
  well_typed self (__setitem__ C self (Str k) v now σ).1 = true.
Proof.
  intros Hself Hσ Hocs Hexp. rewrite setitem_eq by done.
  destruct (json_dumps C v) as [s|]; cbn [fst].
  - destruct (ensure_room_well_typed self now σ Hself Hσ Hocs) as [Hσ1 _].
    apply (run_respects now _ self _ Hself Hσ1).
    repeat constructor; cbn [respects]; eauto with keys.
  - apply (run_respects now _ self σ Hself Hσ); by repeat constructor.
Qed.

(** A record is added and the tracker gets its expiry time. *)
Lemma zadd_expire now k k' t m e o :
  holds_zset o = true → 0 < e →
  (exec_entry now (EXPIRE k' e) (exec_entry now (ZADD k t m) o).1).1
  = Some {| rval := RZSet (<[m := t]> (members_of (alive now o)));
            expire_at := Some (deadline now e) |}.
Proof.
  intros Ho He.
  assert (Hpos : (e <=? 0) = false) by (apply Z.leb_gt; lia).
  destruct o as [[[s|z|h] [d|]]|]; try done; cbn; rewrite ?Hpos; try done.
  destruct (now <=? d) eqn:Hlive; cbn; unfold live; cbn; rewrite ?Hlive, ?Hpos; cbn;
    by rewrite ?insert_empty.
Qed.

Lemma members_alive_size now o :
  (base.size (members_of (alive now o)) ≤ base.size (members_of o))%nat.
Proof.
  destruct o as [ent|]; cbn; [|done].
  destruct (live now ent); [done|]. cbn. rewrite map_size_empty. lia.
Qed.

(** After [_ensure_room], the live tracker is below the capacity. *)
Lemma ensure_room_makes_room self now (σ : store) :
  constructed self →
  0 < max_size self →
  well_typed self σ = true →
  Z.of_nat (base.size (records self σ)) ≤ max_size self →
  Z.of_nat (base.size (members_of (alive now ((_ensure_room self now σ).1 !! access_key self))))
  < max_size self.
Proof.
  intros Hself Hm Hσ Hbound.
  pose proof (once_clean_size_nonneg self Hself ltac:(lia)) as Hocs.
  rewrite ensure_room_eq by done. cbn zeta.
  set (z := members_of (alive now (σ !! access_key self))).
  destruct (Z.of_nat (base.size z) <? max_size self) eqn:Hlt; cbn [fst].
  - by apply Z.ltb_lt in Hlt.
  - apply Z.ltb_ge in Hlt.
    assert (Hne : z ≠ ∅) by (intros Hz; rewrite Hz, map_size_empty in Hlt; lia).
    assert (Hzset : zset_at now σ (access_key self) = Ok z)
      by (apply zset_at_typed; by apply well_typed_access).
    destruct (records_typed self now σ z Hzset Hne) as (d & Hentry & Hlive).
    assert (Hrec : records self σ = z) by (unfold records; by rewrite Hentry).
    rewrite run_lookup, entry_after_app, Hentry. entry_steps.
    destruct (eviction_entry_access_sub now self (victims self z) z d Hlive)
      as [_ Hsub].
    set (o' := entry_after now (eviction self (victims self z)) (access_key self)
                 (Some {| rval := RZSet z; expire_at := d |})) in *.
    pose proof (members_alive_size now o') as Halive.
    assert (Hlen : (1 ≤ length (victims self z))%nat).
    { rewrite victims_length.
      assert (0 < base.size z)%nat by lia. lia. }
    destruct (victims self z) as [|k0 ks] eqn:Hv; [cbn in Hlen; lia|].
    assert (Hk0 : k0 ∈ victims self z) by (rewrite Hv; apply list_elem_of_here).
    destruct (elem_of_victims self z k0 Hk0) as (t0 & Hk0z & _).
    assert (Hle : (base.size (members_of o') ≤ base.size (delete k0 z))%nat).
    { apply map_subseteq_size, map_subseteq_spec. intros m t Hmt.
      destruct (Hsub m t Hmt) as [Hz Hnin].
      apply not_elem_of_cons in Hnin as [? _].
      by rewrite lookup_delete_ne. }
    rewrite map_size_delete_Some in Hle by eauto.
    rewrite Hrec in Hbound. lia.
Qed.

Lemma setitem_records (C : codec) self k v now (σ : store) :
  constructed self →
  0 < max_size self →
  0 < expiration self →
  well_typed self σ = true →
  Z.of_nat (base.size (records self σ)) ≤ max_size self →
  Z.of_nat (base.size (records self (__setitem__ C self (Str k) v now σ).1))
  ≤ max_size self.
Proof.
  intros Hself Hm Hexp Hσ Hbound.
  pose proof (once_clean_size_nonneg self Hself ltac:(lia)) as Hocs.
  rewrite setitem_eq by done.
  destruct (json_dumps C v) as [s|]; cbn [fst]; unfold records.
  - rewrite run_lookup. entry_steps.
    destruct (ensure_room_well_typed self now σ Hself Hσ Hocs) as [Hσ1 _].
    rewrite zadd_expire by eauto using well_typed_access. cbn [members_of].
    pose proof (ensure_room_makes_room self now σ Hself Hm Hσ Hbound) as Hroom.
    rewrite map_size_insert. case_match; cbn; lia.
  - rewrite run_lookup. by entry_steps.
Qed.

Lemma set_all_snoc (C : codec) self l x (σ : store) :
  set_all C self (l ++ [x]) σ
  = (__setitem__ C self (Str x.1.1) x.1.2 x.2 (set_all C self l σ)).1.
Proof. unfold set_all. by rewrite foldl_snoc. Qed.

(** The invariant of the tracker under item assignment. *)
Lemma set_all_invariant (C : codec) self l (σ : store) :
  constructed self →
  0 < max_size self →
  0 < expiration self →
  well_typed self σ = true →
  Z.of_nat (base.size (records self σ)) ≤ max_size self →
  well_typed self (set_all C self l σ) = true
  ∧ Z.of_nat (base.size (records self (set_all C self l σ))) ≤ max_size self.
Proof.
  intros Hself Hm Hexp Hσ Hbound.
  pose proof (once_clean_size_nonneg self Hself ltac:(lia)) as Hocs.
  induction l as [|x l IH] using rev_ind; [done|].
  destruct IH as [IH1 IH2]. rewrite set_all_snoc. split.
  - by apply setitem_well_typed.
  - by apply setitem_records.
Qed.

Lemma size_bounded self now (σ : store) :
  well_typed self σ = true →
  ∃ n, size self now σ = Ok n
       ∧ n ≤ Z.of_nat (base.size (records self σ)).
Proof.
  intros Hσ. rewrite size_typed by by apply well_typed_access.
  eexists. split; [done|].
  pose proof (members_alive_size now (σ !! access_key self)). unfold records. lia.
Qed.

(** ** Filling a fresh cache *)

Global Instance physical_key_injective self : Inj (=) (=) (physical_key self).
Proof. intros k k'. apply physical_key_inj. Qed.

Lemma tracks_empty self until : tracks self ∅ [] until.
Proof.
  unfold tracks, well_typed. rewrite !lookup_empty. cbn.
  split; [done|]. split; [done|]. by left.
Qed.

Lemma tracks_live_members self (σ : store) keys until now :
  tracks self σ keys until → NoDup keys → (keys ≠ [] → now ≤ until) →
  dom (members_of (alive now (σ !! access_key self)))
  =@{gset string} list_to_set (physical_key self <$> keys)
  ∧ base.size (members_of (alive now (σ !! access_key self))) = length keys.
Proof.
  intros (_ & _ & Hacc) Hnd Hnow.
  assert (Hdom : dom (members_of (alive now (σ !! access_key self)))
                 =@{gset string} list_to_set (physical_key self <$> keys)).
  { destruct Hacc as [[-> ->]|(z & -> & Hdom)]; [cbn; apply dom_empty_L|].
    destruct keys as [|k0 keys].
    - cbn in Hdom. apply dom_empty_iff_L in Hdom as ->.
      unfold alive. case_match; cbn; apply dom_empty_L.
    - cbn [alive]. unfold live. cbn [expire_at].
      rewrite (proj2 (Z.leb_le now until)) by (by apply Hnow). done. }
  split; [done|].
  rewrite <-size_dom, Hdom, size_list_to_set, length_fmap; [done|].
  by apply (NoDup_fmap_2 (physical_key self)).
Qed.

Lemma fields_alive_none now o f :
  fields_of o !! f = None → fields_of (alive now o) !! f = None.
Proof.
  destruct o as [ent|]; cbn; [|done]. by destruct (live now ent).
Qed.

Lemma field_names_differ : SET ≠ POP.
Proof. done. Qed.

(** One more key while the tracker is below the capacity: no eviction. *)
Lemma setitem_tracks (C : codec) self (σ : store) keys until k v s now :
  constructed self →
  0 < max_size self →
  0 < expiration self →
  tracks self σ keys until →
  NoDup (keys ++ [k]) →
  Z.of_nat (length keys) < max_size self →
  (keys ≠ [] → now ≤ until) →
  json_dumps C v = Some s →
  tracks self (__setitem__ C self (Str k) v now σ).1 (keys ++ [k])
    (deadline now (expiration self)).
Proof.
  intros Hself Hm Hexp Htr Hnd Hlen Hnow Hdumps.
  pose proof (once_clean_size_nonneg self Hself ltac:(lia)) as Hocs.
  apply NoDup_app in Hnd as (Hnd & Hfresh & _).
  destruct (tracks_live_members self σ keys until now Htr Hnd Hnow) as [Hdom Hsize].
  destruct Htr as (Hσ & Hpop & Hacc).
  pose proof (setitem_well_typed C self k v now σ Hself Hσ Hocs Hexp) as Hσ'.
  rewrite setitem_eq in * by done. rewrite Hdumps in *. cbn [fst] in *.
  rewrite ensure_room_eq in * by done. cbn zeta in *.
  rewrite Hsize in *. rewrite (proj2 (Z.ltb_lt _ _)) in * by done. cbn [fst] in *.
  split; [done|]. split.
  - rewrite run_lookup. entry_steps.
    rewrite stat_bump by (by apply well_typed_stat). cbn [fields_of].
    rewrite lookup_insert_ne by apply field_names_differ.
    by apply fields_alive_none.
  - right. eexists. split.
    + rewrite run_lookup. entry_steps.
      rewrite zadd_expire by (by (apply well_typed_access) || done). done.
    + rewrite dom_insert_L, Hdom, fmap_app. cbn [fmap list_fmap].
      rewrite list_to_set_snoc_L. apply (comm_L (∪)).
Qed.

Lemma hincrby_field now k f n o :
  holds_hash o = true →
  fields_of (alive now (exec_entry now (HINCRBY k f n) o).1) !! f
  = Some (default 0 (fields_of (alive now o) !! f) + n).
Proof.
  intros Ho. destruct o as [[[s|z|h] [d|]]|]; try done; cbn.
  - destruct (now <=? d) eqn:Hlive; cbn; unfold live; cbn; rewrite ?Hlive; cbn.
    + by rewrite lookup_insert_eq.
    + by rewrite lookup_singleton_eq, lookup_empty.
  - by rewrite lookup_insert_eq.
  - by rewrite lookup_singleton_eq, lookup_empty.
Qed.

(** One more key when the tracker is at the capacity: the pass evicts at
    least one key and counts it. *)
Lemma setitem_evicts (C : codec) self (σ : store) keys until k v s now :
  constructed self →
  0 < max_size self →
  0 < expiration self →
  tracks self σ keys until →
  NoDup keys →
  Z.of_nat (length keys) = max_size self →
  now ≤ until →
  json_dumps C v = Some s →
  1 ≤ counter self now (__setitem__ C self (Str k) v now σ).1 POP.
Proof.
  intros Hself Hm Hexp Htr Hnd Hlen Hnow Hdumps.
  pose proof (once_clean_size_nonneg self Hself ltac:(lia)) as Hocs.
  destruct (tracks_live_members self σ keys until now Htr Hnd (λ _, Hnow))
    as [Hdom Hsize].
  destruct Htr as (Hσ & Hpop & Hacc).
  pose proof (setitem_well_typed C self k v now σ Hself Hσ Hocs Hexp) as Hσ'.
  rewrite counter_typed by (by apply well_typed_stat).
  destruct (ensure_room_well_typed self now σ Hself Hσ Hocs) as [Hσ1 _].
  rewrite setitem_eq in * by done. rewrite Hdumps in *. cbn [fst] in *.
  rewrite run_lookup. entry_steps.
  rewrite stat_bump by (by apply well_typed_stat). rewrite alive_stat_bumped.
  cbn [fields_of]. rewrite lookup_insert_ne by apply field_names_differ.
  rewrite ensure_room_eq in * by done. cbn zeta in *.
  set (z := members_of (alive now (σ !! access_key self))) in *.
  rewrite Hsize in *. rewrite (proj2 (Z.ltb_ge _ _)) in * by lia. cbn [fst] in *.
  assert (Hstat : stat_key self ∉ victims self z).
  { intros (t & Ht & _)%elem_of_victims.
    assert (Hin : stat_key self ∈ dom z) by (apply elem_of_dom; eauto).
    rewrite Hdom in Hin. apply elem_of_list_to_set, list_elem_of_fmap in Hin
      as (k' & Heq & _).
    by apply (stat_ne_physical_key self k' Hself). }
  rewrite run_lookup, entry_after_app.
  rewrite eviction_entry_other by eauto with keys.
  entry_steps.
  rewrite hincrby_field by (by apply well_typed_stat).
  rewrite (fields_alive_none now _ POP Hpop). cbn.
  rewrite victims_length. lia.
Qed.

Lemma within_snoc span ts t' t :
  within span (ts ++ [t'; t]) → within span (ts ++ [t']) ∧ t ≤ t' + span.
Proof.
  induction ts as [|t0 ts IH]; cbn.
  - intros [? _]. done.
  - destruct ts as [|t1 ts]; cbn in *.
    + intros (? & ? & _). done.
    + intros [? Hrest]. destruct (IH Hrest) as [? ?]. done.
Qed.

Lemma within_init span ts t : within span (ts ++ [t]) → within span ts.
Proof.
  destruct ts as [|t' ts _] using rev_ind; [done|].
  rewrite <-app_assoc. cbn. intros H. by apply within_snoc in H as [? _].
Qed.

Lemma within_last span ts t t' :
  within span (ts ++ [t]) → last ts = Some t' → t ≤ t' + span.
Proof.
  destruct ts as [|t0 ts _] using rev_ind; [done|].
  rewrite last_snoc. intros H [= ->].
  rewrite <-app_assoc in H. cbn in H. by apply within_snoc in H as [_ ?].
Qed.

(** While fewer than [max_size] distinct keys have been assigned to a
    fresh cache, with no gap longer than the expiry between assignments,
    the tracker holds exactly their records. *)
Lemma set_all_tracks (C : codec) self (l : list (string * pyval * Z)) :
  constructed self →
  0 < max_size self →
  0 < expiration self →
  NoDup l.*1.*1 →
  Z.of_nat (length l) ≤ max_size self →
  Forall (λ x, is_Some (json_dumps C x.1.2)) l →
  within (expiration self * ticks_per_second) l.*2 →
  tracks self (set_all C self l ∅) l.*1.*1
    (deadline (default 0 (last l.*2)) (expiration self)).
Proof.
  intros Hself Hm Hexp.
  induction l as [|[[k v] t] l IH] using rev_ind; intros Hnd Hlen Henc Hwithin.
  - apply tracks_empty.
  - rewrite !fmap_app in *. cbn [fmap list_fmap fst snd] in *.
    rewrite length_app in Hlen. cbn in Hlen.
    apply Forall_app in Henc as [Henc [[s Hs] _]%Forall_cons].
    rewrite last_snoc, set_all_snoc. cbn [default fst snd].
    apply (setitem_tracks C self _ _ (deadline (default 0 (last l.*2)) (expiration self))
             k v s t); try done.
    + apply IH; [|lia|done|by eapply within_init].
      by apply NoDup_app in Hnd as [? _].
    + rewrite length_fmap, length_fmap. lia.
    + intros Hne. destruct (last l.*2) as [t'|] eqn:Hlast.
      * cbn. unfold deadline. by eapply within_last.
      * apply last_None in Hlast. destruct l; [done|discriminate].
Qed.

(** C3: in a cache with a positive capacity and expiry, (1) from a store
    whose tracker holds at most [max_size] records, after every sequence
    of item assignments the tracker holds at most [max_size] records;
    (2) assigning [max_size + 1] distinct keys to a fresh cache, each
    value encodable and no gap longer than the expiry between two
    assignments, makes the last assignment evict at least one key (the
    POP counter is at least one) and leaves at most [max_size] records. *)
Theorem tracker_never_exceeds_capacity (C : codec) self
    (l : list (string * pyval * Z)) (σ : store) now
    (l' : list (string * pyval * Z)) k v t :
  constructed self →
  0 < max_size self →
  0 < expiration self →
  (well_typed self σ = true →
   Z.of_nat (base.size (records self σ)) ≤ max_size self →
   ∃ n, size self now (set_all C self l σ) = Ok n ∧ n ≤ max_size self)
  ∧ (NoDup (l' ++ [(k, v, t)]).*1.*1 →
     Z.of_nat (length l') = max_size self →
     Forall (λ x, is_Some (json_dumps C x.1.2)) (l' ++ [(k, v, t)]) →
     within (expiration self * ticks_per_second) (l' ++ [(k, v, t)]).*2 →
     1 ≤ counter self t (set_all C self (l' ++ [(k, v, t)]) ∅) POP
     ∧ ∃ n, size self t (set_all C self (l' ++ [(k, v, t)]) ∅) = Ok n
            ∧ n ≤ max_size self).
Proof.
  intros Hself Hm Hexp. split.
  - intros Hσ Hbound.
    destruct (set_all_invariant C self l σ Hself Hm Hexp Hσ Hbound) as [Hσ' Hb'].
    destruct (size_bounded self now _ Hσ') as (n & Hn & Hle).
    exists n. split; [done|lia].
  - intros Hnd Hlen Henc Hwithin. split.
    + rewrite set_all_snoc. cbn [fst snd].
      rewrite !fmap_app in *. cbn [fmap list_fmap fst snd] in *.
      apply Forall_app in Henc as [Henc [[s Hs] _]%Forall_cons]. cbn in Hs.
      apply NoDup_app in Hnd as (Hnd & _ & _).
      apply (setitem_evicts C self _ l'.*1.*1
               (deadline (default 0 (last l'.*2)) (expiration self)) k v s t);
        try done.
      * apply set_all_tracks; [done..|lia|done|by eapply within_init].
      * rewrite !length_fmap. done.
      * destruct (last l'.*2) as [t'|] eqn:Hlast.
        -- cbn. unfold deadline. by eapply within_last.
        -- apply last_None in Hlast. destruct l'; [cbn in Hlen; lia|discriminate].
    + assert (Hσ0 : well_typed self ∅ = true).
      { unfold well_typed. by rewrite !lookup_empty. }
      assert (Hb0 : Z.of_nat (base.size (records self ∅)) ≤ max_size self).
      { unfold records. rewrite lookup_empty. cbn. rewrite map_size_empty. lia. }
      destruct (set_all_invariant C self (l' ++ [(k, v, t)]) ∅
                  Hself Hm Hexp Hσ0 Hb0) as [Hσ' Hb'].
      destruct (size_bounded self t _ Hσ') as (n & Hn & Hle).
      exists n. split; [done|lia].
Qed.

Lemma tracker_never_exceeds_capacity_witness :
  constructed d
  ∧ 0 < max_size d
  ∧ 0 < expiration d
  ∧ well_typed d ∅ = true
  ∧ Z.of_nat (base.size (records d ∅)) ≤ max_size d
  ∧ NoDup ([("a", VInt 1, 10); ("b", VInt 2, 20); ("c", VInt 3, 30)]
             ++ [("d", VInt 4, 40)]).*1.*1
  ∧ Z.of_nat (length [("a", VInt 1, 10); ("b", VInt 2, 20); ("c", VInt 3, 30)])
    = max_size d
  ∧ Forall (λ x : string * pyval * Z, is_Some (json_dumps int_codec x.1.2))
      ([("a", VInt 1, 10); ("b", VInt 2, 20); ("c", VInt 3, 30)] ++ [("d", VInt 4, 40)])
  ∧ within (expiration d * ticks_per_second)
      ([("a", VInt 1, 10); ("b", VInt 2, 20); ("c", VInt 3, 30)] ++ [("d", VInt 4, 40)]).*2
  ∧ (∃ n, size d 6 (set_all int_codec d [("x", VInt 0, 5)] ∅) = Ok n ∧ n ≤ max_size d)
  ∧ 1 ≤ counter d 40
          (set_all int_codec d
             ([("a", VInt 1, 10); ("b", VInt 2, 20); ("c", VInt 3, 30)]
                ++ [("d", VInt 4, 40)]) ∅) POP
  ∧ ∃ n, size d 40
           (set_all int_codec d
              ([("a", VInt 1, 10); ("b", VInt 2, 20); ("c", VInt 3, 30)]
                 ++ [("d", VInt 4, 40)]) ∅) = Ok n
         ∧ n ≤ max_size d.
Proof.
  assert (H1 : constructed d)
    by (exists (Some (Str "unique_key")), EmptyString; reflexivity).
  assert (H2 : 0 < max_size d) by reflexivity.
  assert (H3 : 0 < expiration d) by reflexivity.
  assert (H4 : well_typed d ∅ = true) by reflexivity.
  assert (H5 : Z.of_nat (base.size (records d ∅)) ≤ max_size d)
    by (vm_compute; discriminate).
  assert (H6 : NoDup ([("a", VInt 1, 10); ("b", VInt 2, 20); ("c", VInt 3, 30)]
                        ++ [("d", VInt 4, 40)]).*1.*1)
    by (apply (bool_decide_unpack _); vm_compute; exact I).
  assert (H7 : Z.of_nat (length [("a", VInt 1, 10); ("b", VInt 2, 20); ("c", VInt 3, 30)])
               = max_size d) by reflexivity.
  assert (H8 : Forall (λ x : string * pyval * Z, is_Some (json_dumps int_codec x.1.2))
                 ([("a", VInt 1, 10); ("b", VInt 2, 20); ("c", VInt 3, 30)]
                    ++ [("d", VInt 4, 40)]))
    by (repeat constructor; eexists; reflexivity).
  assert (H9 : within (expiration d * ticks_per_second)
                 ([("a", VInt 1, 10); ("b", VInt 2, 20); ("c", VInt 3, 30)]
                    ++ [("d", VInt 4, 40)]).*2)
    by (cbn; unfold ticks_per_second; lia).
  destruct (tracker_never_exceeds_capacity int_codec d [("x", VInt 0, 5)] ∅ 6
              [("a", VInt 1, 10); ("b", VInt 2, 20); ("c", VInt 3, 30)]
              "d" (VInt 4) 40 H1 H2 H3) as [HA HB].
  specialize (HA H4 H5). specialize (HB H6 H7 H8 H9).
  exact (conj H1 (conj H2 (conj H3 (conj H4 (conj H5 (conj H6 (conj H7 (conj H8 (conj H9
    (conj HA HB)))))))))).
Defined.

(** C3, counterexample: four distinct keys assigned two seconds apart
    to the cache of the doctest (capacity three, expiry one second).
    The tracker has expired before each next assignment, so no pass
    evicts anything: POP stays at zero. *)
Lemma slow_insertions_evict_nothing :
  ¬ (1 ≤ counter d 6000000
           (set_all int_codec d
              [("a", VInt 1, 0); ("b", VInt 2, 2000000); ("c", VInt 3, 4000000);
               ("d", VInt 4, 6000000)] ∅) POP).
Proof.
  assert (Hpop : counter d 6000000
           (set_all int_codec d
              [("a", VInt 1, 0); ("b", VInt 2, 2000000); ("c", VInt 3, 4000000);
               ("d", VInt 4, 6000000)] ∅) POP = 0) by (vm_compute; reflexivity).
  rewrite Hpop. lia.
Qed.

(** In that run the tracker holds one record after the last assignment,
    and all four keys were counted as set. *)
Lemma slow_insertions_leave_one_record :
  let σ := set_all int_codec d
             [("a", VInt 1, 0); ("b", VInt 2, 2000000); ("c", VInt 3, 4000000);
              ("d", VInt 4, 6000000)] ∅ in
  size d 6000000 σ = Ok 1 ∧ counter d 6000000 σ SET = 4
  ∧ counter d 6000000 σ POP = 0.
Proof. vm_compute. done. Qed.

(** In that run exactly one key is evicted, and three records stay. *)
Lemma doctest_run_evicts_one :
  let σ := set_all int_codec d
             [("a", VInt 1, 10); ("b", VInt 2, 20); ("c", VInt 3, 30);
              ("d", VInt 4, 40)] ∅ in
  counter d 40 σ POP = 1 ∧ size d 40 σ = Ok 3
  ∧ (__getitem__ int_codec d (Str "a") 50 σ).2 = Raise (KeyError (Str "a"))
  ∧ (__getitem__ int_codec d (Str "d") 50 σ).2 = Ok (VInt 4).
Proof. vm_compute. done. Qed.

(** ** Item lookup *)

Lemma get_entry now (σ : store) k s d :
  σ !! k = Some {| rval := RString s; expire_at := Some d |} →
  GET now σ k = if now <=? d then Ok (Some s) else Ok None.
Proof.
  intros Hk. unfold GET, lookup_live. rewrite Hk. cbn. unfold live. cbn.
  by destruct (now <=? d).
Qed.

(** A hit: the queue that [__getitem__] submits, and the value. *)
Lemma getitem_hit (C : codec) self k s w now (σ : store) :
  constructed self →
  well_typed self σ = true →
  GET now σ (physical_key self k) = Ok (Some s) →
  json_loads C s = Some w →
  __getitem__ C self (Str k) now σ
  = ((run now [ZADD (access_key self) now (physical_key self k);
               EXPIRE (access_key self) (expiration self);
               HINCRBY (stat_key self) HIT 1;
               EXPIRE (stat_key self) EXPIRATION_STAT_KEY] σ).1, Ok w).
Proof.
  intros Hself Hσ Hget Hloads.
  unfold __getitem__. rewrite joint_key_str. unfold encode.
  rewrite Hget, Hloads. unfold redis_pipeline.
  rewrite execute_ok; [done|].
  apply (run_respects now _ self σ Hself Hσ); by repeat constructor.
Qed.

(** The store after a lookup is as well typed as before. *)
Lemma getitem_well_typed (C : codec) self k now (σ : store) :
  constructed self →
  well_typed self σ = true →
  well_typed self (__getitem__ C self (Str k) now σ).1 = true.
Proof.
  intros Hself Hσ.
  unfold __getitem__. rewrite joint_key_str. unfold encode, redis_pipeline.
  destruct (GET now σ (physical_key self k)) as [[s|]|e]; [| |done].
  - destruct (json_loads C s) as [w|].
    + rewrite execute_ok; [|apply (run_respects now _ self σ Hself Hσ); by repeat constructor].
      apply (run_respects now _ self σ Hself Hσ); by repeat constructor.
    + rewrite execute_ok; [|apply (run_respects now _ self σ Hself Hσ); by repeat constructor].
      apply (run_respects now _ self σ Hself Hσ); by repeat constructor.
  - rewrite execute_ok; [|apply (run_respects now _ self σ Hself Hσ); by repeat constructor].
    assert (Hσ1 : well_typed self
              (run now [HINCRBY (stat_key self) MISS 1;
                        EXPIRE (stat_key self) EXPIRATION_STAT_KEY] σ).1 = true)
      by (apply (run_respects now _ self σ Hself Hσ); by repeat constructor).
    cbn [execute run fst snd]. by case_match.
Qed.

(** The entry that an assignment leaves under the key. *)
Lemma setitem_entry (C : codec) self k v s now (σ : store) :
  constructed self →
  well_typed self σ = true →
  0 ≤ once_clean_size self →
  0 < expiration self →
  json_dumps C v = Some s →
  (__setitem__ C self (Str k) v now σ).1 !! physical_key self k
  = Some {| rval := RString s; expire_at := Some (deadline now (expiration self)) |}.
Proof.
  intros Hself Hσ Hocs Hexp Hdumps.
  rewrite setitem_eq by done. rewrite Hdumps. cbn [fst].
  rewrite run_lookup. entry_steps. cbn.
  by rewrite (proj2 (Z.leb_gt _ _)) by lia.
Qed.

(** Assignment, then lookup no later than [expiration] seconds after it:
    the lookup returns the decoding of what was encoded. *)
Lemma set_then_get (C : codec) self k v s w now now' (σ : store) :
  constructed self →
  well_typed self σ = true →
  0 ≤ max_size self →
  0 < expiration self →
  json_dumps C v = Some s →
  json_loads C s = Some w →
  now' ≤ deadline now (expiration self) →
  (__setitem__ C self (Str k) v now σ).2 = Ok tt
  ∧ (__getitem__ C self (Str k) now' (__setitem__ C self (Str k) v now σ).1).2 = Ok w.
Proof.
  intros Hself Hσ Hm Hexp Hdumps Hloads Hnow.
  pose proof (once_clean_size_nonneg self Hself Hm) as Hocs.
  pose proof (setitem_well_typed C self k v now σ Hself Hσ Hocs Hexp) as Hσ'.
  pose proof (setitem_entry C self k v s now σ Hself Hσ Hocs Hexp Hdumps) as Hentry.
  split.
  - rewrite setitem_eq by done. by rewrite Hdumps.
  - erewrite getitem_hit; [done..| |done].
    erewrite get_entry by done. by rewrite (proj2 (Z.leb_le _ _)).
Qed.

(** ** The decorator *)

(** A function whose result does not encode is invoked again by the
    second of two immediate calls with the same arguments. *)
Lemma unencodable_result_runs_twice :
  let r1 := inner sample_hash int_codec false d raw_bytes 0 0 [VInt 1] [] 0 0 (∅, 0%nat) in
  let r2 := inner sample_hash int_codec false d raw_bytes 0 0 [VInt 1] [] 1 1 r1.1 in
  r1.2 = Ok (VBytes "raw") ∧ r2.2 = Ok (VBytes "raw") ∧ r2.1.2 = 2%nat.
Proof. vm_compute. done. Qed.

(** C5, counterexample: with the function [g] that returns bytes, which
    the serializer rejects, two immediate calls [g(1)] do not leave the
    count of invocations at one. *)
Lemma second_call_invokes_again :
  ¬ (let r1 := inner sample_hash int_codec false d raw_bytes 0 0 [VInt 1] [] 0 0 (∅, 0%nat) in
     let r2 := inner sample_hash int_codec false d raw_bytes 0 0 [VInt 1] [] 1 1 r1.1 in
     r2.1.2 = 1%nat).
Proof. vm_compute. discriminate. Qed.

(** ** The diagnostic of a miss *)

Lemma prefix_cons c sep c' s :
  String.prefix (String c sep) (String c' s)
  = if ascii_dec c c' then String.prefix sep s else false.
Proof. reflexivity. Qed.

Lemma prefix_drop sep s :
  String.prefix sep s = true → s = sep +:+ drop_str (String.length sep) s.
Proof.
  revert s. induction sep as [|c sep IH]; intros s; [intros _; reflexivity|].
  destruct s as [|c' s]; [done|]. rewrite prefix_cons.
  destruct (ascii_dec c c') as [->|]; [|done].
  intros Hp.
  change (String c' s = String c' (sep +:+ drop_str (String.length sep) s)).
  f_equal. by apply IH.
Qed.

Lemma prefix_app sep b : String.prefix sep (sep +:+ b) = true.
Proof.
  induction sep as [|c sep IH]; [by destruct b|].
  change (String c sep +:+ b) with (String c (sep +:+ b)). rewrite prefix_cons.
  by destruct (ascii_dec c c).
Qed.

Lemma find_Some sep s i :
  find sep s = Some i →
  s = take_str i s +:+ sep +:+ drop_str (i + String.length sep) s.
Proof.
  revert i. induction s as [|c s IH]; intros i; cbn [find].
  - destruct (String.prefix sep EmptyString) eqn:Hp; [|done].
    intros [= <-]. by apply prefix_drop.
  - destruct (String.prefix sep (String c s)) eqn:Hp.
    + intros [= <-]. by apply prefix_drop.
    + destruct (find sep s) as [j|]; [|done]. intros [= <-].
      change (String c s
              = String c (take_str j s +:+ sep +:+ drop_str (j + String.length sep) s)).
      f_equal. by apply IH.
Qed.

Lemma find_unfold sub s :
  find sub s
  = if String.prefix sub s then Some 0%nat
    else match s with
         | EmptyString => None
         | String _ s' => S <$> find sub s'
         end.
Proof. by destruct s. Qed.

Lemma find_app sep a b : is_Some (find sep (a +:+ sep +:+ b)).
Proof.
  induction a as [|c a IH]; rewrite find_unfold.
  - change (EmptyString +:+ sep +:+ b) with (sep +:+ b).
    rewrite prefix_app. by eauto.
  - change (String c a +:+ sep +:+ b) with (String c (a +:+ sep +:+ b)).
    destruct (String.prefix sep _); [by eauto|].
    destruct IH as [j ->]. by eauto.
Qed.

(** [s.split(sep, 1)[1]] is what follows an occurrence of [sep]. *)
Lemma split1_tail sep a b :
  ∃ a' b', item1 (split1 sep (a +:+ sep +:+ b)) = Ok b'
           ∧ a +:+ sep +:+ b = a' +:+ sep +:+ b'.
Proof.
  unfold split1. destruct (find_app sep a b) as [i Hi]. rewrite Hi.
  eexists _, _. split; [done|]. by apply find_Some.
Qed.

Lemma app_cons c a b : String c a +:+ b = String c (a +:+ b).
Proof. reflexivity. Qed.

Lemma utf8_run_app st a b :
  utf8_run st (a +:+ b)
  = match utf8_run st a with
    | Some st' => utf8_run st' b
    | None => None
    end.
Proof.
  revert st. induction a as [|c a IH]; intros st; [done|].
  rewrite app_cons. cbn [utf8_run].
  destruct (utf8_step st c); [apply IH|done].
Qed.

Lemma utf8_valid_app a b :
  utf8_valid a = true → utf8_valid b = true → utf8_valid (a +:+ b) = true.
Proof.
  unfold utf8_valid. rewrite utf8_run_app.
  destruct (utf8_run U_start a) as [[|n lo hi]|]; done.
Qed.

(** In a state that the decoder reaches, a continuation byte is at least
    0x80. *)
Lemma utf8_step_good st c st' :
  (match st with U_start => True | U_cont _ lo _ => (0x80 ≤ lo)%N end) →
  utf8_step st c = Some st' →
  (match st' with U_start => True | U_cont _ lo _ => (0x80 ≤ lo)%N end).
Proof.
  destruct st as [|n lo hi]; cbn; intros Hgood Hstep.
  - repeat case_match; simplify_eq; done.
  - repeat case_match; simplify_eq; done.
Qed.

Lemma utf8_step_ascii st c st' :
  (match st with U_start => True | U_cont _ lo _ => (0x80 ≤ lo)%N end) →
  is_ascii c → utf8_step st c = Some st' → st = U_start ∧ st' = U_start.
Proof.
  unfold is_ascii. destruct st as [|n lo hi]; cbn; intros Hgood Hc Hstep.
  - rewrite (proj2 (N.ltb_lt _ _)) in Hstep by done. by simplify_eq.
  - case_match eqn:Hin; [|done].
    apply andb_prop in Hin as [Hlo _]. apply N.leb_le in Hlo. lia.
Qed.

(** What follows an ASCII byte of well-formed UTF-8 is well-formed. *)
Lemma utf8_run_tail st a c b st' :
  (match st with U_start => True | U_cont _ lo _ => (0x80 ≤ lo)%N end) →
  is_ascii c →
  utf8_run st (a +:+ String c b) = Some st' →
  utf8_run U_start b = Some st'.
Proof.
  revert st. induction a as [|c0 a IH]; intros st Hgood Hc.
  - change (EmptyString +:+ String c b) with (String c b). cbn [utf8_run].
    destruct (utf8_step st c) as [st1|] eqn:Hstep; [|done].
    by destruct (utf8_step_ascii st c st1 Hgood Hc Hstep) as [_ ->].
  - rewrite app_cons. cbn [utf8_run].
    destruct (utf8_step st c0) as [st1|] eqn:Hstep; [|done].
    apply IH; [|done]. by eapply utf8_step_good.
Qed.

Lemma utf8_valid_tail a b :
  utf8_valid (a +:+ "::" +:+ b) = true → utf8_valid b = true.
Proof.
  unfold utf8_valid.
  destruct (utf8_run U_start (a +:+ "::" +:+ b)) as [st|] eqn:Hrun; [|done].
  change (a +:+ "::" +:+ b) with (a +:+ String ":" (String ":" b)) in Hrun.
  apply utf8_run_tail in Hrun; [|done|by compute].
  change (utf8_run U_start (String ":" b)) with (utf8_run U_start b) in Hrun.
  by rewrite Hrun.
Qed.

(** For an identity and a key that are text, the diagnostic decodes. *)
Lemma miss_diagnostic self k :
  utf8_valid (unique_key self) = true →
  utf8_valid k = true →
  ∃ real_key,
    bind (item1 (split1 PREFIX_DELIMITER (physical_key self k))) decode = Ok real_key.
Proof.
  intros Huk Hk.
  assert (Hpk : utf8_valid (physical_key self k) = true).
  { unfold physical_key.
    repeat apply utf8_valid_app; done. }
  destruct (split1_tail PREFIX_DELIMITER ("lru-value:" +:+ unique_key self) k)
    as (a' & b' & Hitem & Heq).
  change (("lru-value:" +:+ unique_key self) +:+ PREFIX_DELIMITER +:+ k)
    with (physical_key self k) in *.
  rewrite Hitem. cbn [bind]. unfold decode.
  rewrite Heq in Hpk. apply utf8_valid_tail in Hpk. rewrite Hpk. eauto.
Qed.

(** A miss: the lookup counts it and raises KeyError. *)
Lemma getitem_miss (C : codec) self k now (σ : store) :
  constructed self →
  well_typed self σ = true →
  utf8_valid (unique_key self) = true →
  utf8_valid k = true →
  GET now σ (physical_key self k) = Ok None →
  ∃ real_key,
    __getitem__ C self (Str k) now σ
    = ((run now [HINCRBY (stat_key self) MISS 1;
                 EXPIRE (stat_key self) EXPIRATION_STAT_KEY] σ).1,
       Raise (KeyError (Str real_key))).
Proof.
  intros Hself Hσ Huk Hk Hget.
  destruct (miss_diagnostic self k Huk Hk) as [real_key Hdiag].
  exists real_key.
  unfold __getitem__. rewrite joint_key_str. unfold encode.
  rewrite Hget. rewrite execute_ok
    by (apply (run_respects now _ self σ Hself Hσ); by repeat constructor).
  unfold redis_pipeline. cbn [execute run]. by rewrite Hdiag.
Qed.

(** ** An entry between its assignment and its expiry *)

Lemma entry_after_spared_none now cmds k :
  Forall (spares k) cmds → entry_after now cmds k None = None.
Proof.
  induction 1 as [|c cmds Hc _ IH]; [done|]. cbn [entry_after].
  case_decide as Hk; [|done]. by rewrite (Hc Hk).
Qed.

(** Commands that spare a key leave its entry as it is, or delete it. *)
Lemma entry_after_spared now cmds k o :
  Forall (spares k) cmds →
  entry_after now cmds k o = None ∨ entry_after now cmds k o = o.
Proof.
  intros Hall. revert o. induction Hall as [|c cmds Hc Hall IH]; intros o; [by right|].
  cbn [entry_after]. case_decide as Hk; [|apply IH].
  rewrite (Hc Hk). cbn. left. by apply entry_after_spared_none.
Qed.

Lemma run_spared now cmds k (σ : store) :
  Forall (spares k) cmds →
  (run now cmds σ).1 !! k = None ∨ (run now cmds σ).1 !! k = σ !! k.
Proof. intros. rewrite run_lookup. by apply entry_after_spared. Qed.

Lemma eviction_spares self keys k :
  k ≠ access_key self → Forall (spares k) (eviction self keys).
Proof.
  intros Hne. induction keys as [|k0 keys IH]; [constructor|].
  rewrite eviction_cons. repeat constructor; [| |done].
  - by intros [= ->].
  - by intros [= ?].
Qed.

Lemma ensure_room_spares self now (σ : store) k :
  physical_key self k ≠ access_key self →
  physical_key self k ≠ stat_key self →
  (_ensure_room self now σ).1 !! physical_key self k = None
  ∨ (_ensure_room self now σ).1 !! physical_key self k = σ !! physical_key self k.
Proof.
  intros Hacc Hstat. unfold _ensure_room.
  destruct (size self now σ) as [n|e]; [|by right].
  destruct (n <? max_size self); [by right|].
  destruct (ZRANGE now σ (access_key self) 0 (once_clean_size self)) as [keys|e];
    [|by right].
  fold (eviction self keys).
  assert (Hst : ∀ r : store * result unit,
             (match r with
              | (σ', Raise e) => (σ', Raise e)
              | (σ', Ok _) => (σ', Ok false)
              end).1 = r.1) by (by intros [? [?|?]]).
  rewrite Hst. unfold redis_pipeline. rewrite execute_fst.
  apply run_spared, Forall_app. split; [by apply eviction_spares|].
  repeat constructor. by intros [= ?].
Qed.

(** An operation that does not assign [k] leaves the entry of [k] as it
    is, or deletes it. *)
Lemma apply_spares (C : codec) self x (σ : store) k :
  constructed self →
  assigns k x.1 = false →
  apply C self x σ !! physical_key self k = None
  ∨ apply C self x σ !! physical_key self k = σ !! physical_key self k.
Proof.
  intros Hself Hx.
  pose proof (physical_key_ne_access self k Hself) as Hacc.
  pose proof (physical_key_ne_stat self k Hself) as Hstat.
  assert (Hs1 : ∀ f n, spares (physical_key self k) (HINCRBY (stat_key self) f n))
    by (by intros f n [= ?]).
  assert (Hs2 : ∀ n, spares (physical_key self k) (EXPIRE (stat_key self) n))
    by (by intros n [= ?]).
  assert (Hs3 : ∀ n, spares (physical_key self k) (EXPIRE (access_key self) n))
    by (by intros n [= ?]).
  assert (Hs4 : ∀ t m, spares (physical_key self k) (ZADD (access_key self) t m))
    by (by intros t m [= ?]).
  assert (Hs5 : ∀ m, spares (physical_key self k) (ZREM (access_key self) m))
    by (by intros m [= ?]).
  assert (Hs6 : ∀ k', spares (physical_key self k) (Redis.DEL k'))
    by (by intros k' [= ->]).
  destruct x as [[k' v|k'|k'] t]; unfold apply; cbn [fst snd] in *.
  - (* assignment to another key *)
    assert (Hne : physical_key self k' ≠ physical_key self k).
    { intros Heq%physical_key_inj. subst k'. cbn in Hx.
      by rewrite String.eqb_refl in Hx. }
    assert (Hs0 : ∀ e s, spares (physical_key self k) (SETEX (physical_key self k') e s))
      by (intros e s Hk; by destruct Hne).
    unfold __setitem__. rewrite joint_key_str. unfold encode, redis_pipeline.
    destruct (json_dumps C v) as [s|].
    + destruct (ensure_room_spares self t σ k Hacc Hstat) as [Hroom|Hroom];
        destruct (_ensure_room self t σ) as [σ1 [b|e]]; cbn [fst] in *;
        rewrite ?execute_fst.
      * left. rewrite run_lookup, Hroom. apply entry_after_spared_none.
        repeat constructor; eauto.
      * by left.
      * rewrite <-Hroom. apply run_spared.
        repeat constructor; eauto.
      * by right.
    + rewrite execute_fst. apply run_spared. repeat constructor; eauto.
  - (* lookup *)
    unfold __getitem__. rewrite joint_key_str. unfold encode, redis_pipeline.
    destruct (GET t σ (physical_key self k')) as [[s|]|e]; [| |by right].
    + destruct (json_loads C s) as [w|].
      * destruct (execute t _ σ) as [σ1 [?|?]] eqn:Hex; cbn [fst];
          (replace σ1 with (execute t
             [ZADD (access_key self) t (physical_key self k');
              EXPIRE (access_key self) (expiration self);
              HINCRBY (stat_key self) HIT 1;
              EXPIRE (stat_key self) EXPIRATION_STAT_KEY] σ).1 by (by rewrite Hex));
          rewrite execute_fst; apply run_spared; repeat constructor; eauto.
      * destruct (execute t _ σ) as [σ1 [?|?]] eqn:Hex; cbn [fst];
          (replace σ1 with (execute t
             [Redis.DEL (physical_key self k');
              HINCRBY (stat_key self) LOADS_ERROR 1;
              EXPIRE (stat_key self) EXPIRATION_STAT_KEY] σ).1 by (by rewrite Hex));
          rewrite execute_fst; apply run_spared; repeat constructor; eauto.
    + destruct (execute t _ σ) as [σ1 [?|?]] eqn:Hex; cbn [fst execute run];
        repeat case_match; cbn [fst];
        (replace σ1 with (execute t
           [HINCRBY (stat_key self) MISS 1;
            EXPIRE (stat_key self) EXPIRATION_STAT_KEY] σ).1 by (by rewrite Hex));
        rewrite execute_fst; apply run_spared; repeat constructor; eauto.
  - (* removal *)
    unfold __delitem__. rewrite joint_key_str. unfold encode, redis_pipeline.
    rewrite execute_fst. apply run_spared. repeat constructor; eauto.
Qed.

Lemma delitem_well_typed self k now (σ : store) :
  constructed self →
  well_typed self σ = true →
  well_typed self (__delitem__ self (Str k) now σ).1 = true.
Proof.
  intros Hself Hσ. unfold __delitem__. rewrite joint_key_str.
  unfold encode, redis_pipeline. rewrite execute_fst.
  apply (run_respects now _ self σ Hself Hσ). by repeat constructor.
Qed.

Lemma apply_well_typed (C : codec) self x (σ : store) :
  constructed self →
  0 ≤ max_size self →
  0 < expiration self →
  well_typed self σ = true →
  well_typed self (apply C self x σ) = true.
Proof.
  intros Hself Hm Hexp Hσ.
  pose proof (once_clean_size_nonneg self Hself Hm) as Hocs.
  destruct x as [[k v|k|k] t]; unfold apply; cbn [fst snd].
  - by apply setitem_well_typed.
  - by apply getitem_well_typed.
  - by apply delitem_well_typed.
Qed.

Lemma apply_all_snoc (C : codec) self tr x (σ : store) :
  apply_all C self (tr ++ [x]) σ = apply C self x (apply_all C self tr σ).
Proof. unfold apply_all. by rewrite foldl_snoc. Qed.

(** A trace without an assignment of [k] leaves the entry of [k] as it
    is, or deletes it, and keeps the store well typed. *)
Lemma apply_all_spares (C : codec) self tr (σ : store) k :
  constructed self →
  0 ≤ max_size self →
  0 < expiration self →
  well_typed self σ = true →
  Forall (λ x : op * Z, assigns k x.1 = false) tr →
  well_typed self (apply_all C self tr σ) = true
  ∧ (apply_all C self tr σ !! physical_key self k = None
     ∨ apply_all C self tr σ !! physical_key self k = σ !! physical_key self k).
Proof.
  intros Hself Hm Hexp Hσ.
  induction tr as [|x tr IH] using rev_ind; intros Htr; [by split; [|right]|].
  apply Forall_app in Htr as [Htr [Hx _]%Forall_cons].
  destruct (IH Htr) as [Hσ' Hentry]. rewrite apply_all_snoc. split.
  - by apply apply_well_typed.
  - destruct (apply_spares C self x (apply_all C self tr σ) k Hself Hx) as [-> | ->];
      [by left|done].
Qed.

(** Lookup of [k] more than [expiration] seconds after its last
    assignment, whatever else was done in between, in a cache whose
    identity is text: a miss, raised as KeyError. *)
Lemma expired_lookup_misses (C : codec) self k v s tr now now' (σ : store) :
  constructed self →
  0 ≤ max_size self →
  0 < expiration self →
  well_typed self σ = true →
  utf8_valid (unique_key self) = true →
  utf8_valid k = true →
  json_dumps C v = Some s →
  Forall (λ x : op * Z, assigns k x.1 = false) tr →
  deadline now (expiration self) < now' →
  ∃ real_key,
    (__getitem__ C self (Str k) now'
       (apply_all C self tr (__setitem__ C self (Str k) v now σ).1)).2
    = Raise (KeyError (Str real_key)).
Proof.
  intros Hself Hm Hexp Hσ Huk Hk Hdumps Htr Hnow.
  pose proof (once_clean_size_nonneg self Hself Hm) as Hocs.
  pose proof (setitem_well_typed C self k v now σ Hself Hσ Hocs Hexp) as Hσ1.
  pose proof (setitem_entry C self k v s now σ Hself Hσ Hocs Hexp Hdumps) as Hentry.
  destruct (apply_all_spares C self tr _ k Hself Hm Hexp Hσ1 Htr) as [Hσ2 Hkeep].
  rewrite Hentry in Hkeep.
  assert (Hget : GET now' (apply_all C self tr (__setitem__ C self (Str k) v now σ).1)
                   (physical_key self k) = Ok None).
  { destruct Hkeep as [Hnone|Hsome].
    - unfold GET, lookup_live. by rewrite Hnone.
    - erewrite get_entry by done. by rewrite (proj2 (Z.leb_gt _ _)). }
  destruct (getitem_miss C self k now' _ Hself Hσ2 Huk Hk Hget) as [real_key Hmiss].
  exists real_key. by rewrite Hmiss.
Qed.

(** ** A cache whose identity is not text *)

Lemma odd_constructed : new_cache (Some (Bytes colon_ff)) 3 1 EmptyString = Ok odd.
Proof. reflexivity. Qed.

(** C1: in the cache with the identity [b':\xff'], the assignment
    [d['foo'] = 7] followed by a lookup within the expiry time returns 7;
    the lookup after the expiry time, like the lookup of a key that was
    never assigned, does not raise KeyError: the diagnostic of the miss
    splits the entry key at the first double colon, which here is the
    colon of the prefix and the colon that starts the identity, and
    decoding what follows raises UnicodeDecodeError. *)
Theorem miss_raises_unicode_decode_error :
  new_cache (Some (Bytes colon_ff)) 3 1 EmptyString = Ok odd
  ∧ (let σ := (__setitem__ int_codec odd (Str "foo") (VInt 7) 0 ∅).1 in
     (__getitem__ int_codec odd (Str "foo") 500000 σ).2 = Ok (VInt 7)
     ∧ (__getitem__ int_codec odd (Str "foo") 2000000 σ).2 = Raise UnicodeDecodeError)
  ∧ (__getitem__ int_codec odd (Str "foo") 0 ∅).2 = Raise UnicodeDecodeError.
Proof. vm_compute. done. Qed.

(** In the cache of the doctest, whose identity is text, the same
    lookups raise KeyError. *)
Lemma doctest_miss :
  let σ := (__setitem__ int_codec d (Str "foo") (VInt 7) 0 ∅).1 in
  (__getitem__ int_codec d (Str "foo") 500000 σ).2 = Ok (VInt 7)
  ∧ (__getitem__ int_codec d (Str "foo") 2000000 σ).2 = Raise (KeyError (Str "foo"))
  ∧ (__getitem__ int_codec d (Str "foo") 0 ∅).2 = Raise (KeyError (Str "foo")).
Proof. vm_compute. done. Qed.

(** ** What one operation changes *)

Lemma entry_after_untouched now cmds k o :
  Forall (λ c, cmd_key c ≠ k) cmds → entry_after now cmds k o = o.
Proof.
  induction 1 as [|c cmds Hc _ IH]; [done|].
  by rewrite entry_after_cons_ne.
Qed.

Lemma run_untouched now cmds (σ : store) k :
  Forall (λ c, cmd_key c ≠ k) cmds → (run now cmds σ).1 !! k = σ !! k.
Proof. intros. rewrite run_lookup. by apply entry_after_untouched. Qed.

Lemma zset_at_live now (σ : store) k z e :
  σ !! k = Some {| rval := RZSet z; expire_at := Some (deadline now e) |} →
  0 ≤ e → zset_at now σ k = Ok z.
Proof.
  intros Hk He. unfold zset_at, lookup_live. rewrite Hk. unfold alive.
  by rewrite deadline_live.
Qed.

Lemma zset_at_members now (σ : store) k z :
  holds_zset (σ !! k) = true → zset_at now σ k = Ok z →
  members_of (alive now (σ !! k)) = z.
Proof. intros Hz. rewrite zset_at_typed by done. by intros [= ->]. Qed.

(** A record is removed and the tracker gets its expiry time. *)
Lemma zrem_expire now k k' m e o :
  holds_zset o = true → 0 < e →
  members_of (alive now
    (exec_entry now (EXPIRE k' e) (exec_entry now (ZREM k m) o).1).1)
  = delete m (members_of (alive now o)).
Proof.
  intros Ho He.
  assert (Hpos : (e <=? 0) = false) by (apply Z.leb_gt; lia).
  assert (Hdl : ∀ rv, live now {| rval := rv; expire_at := Some (deadline now e) |} = true)
    by (intros; apply deadline_live; lia).
  destruct o as [[[s|z|h] [d|]]|]; try done; cbn.
  - destruct (now <=? d) eqn:Hlive; cbn; unfold live; cbn; rewrite ?Hlive; cbn.
    + destruct (decide (delete m z = ∅)) as [Hempty|Hne]; cbn; rewrite ?Hlive, ?Hpos; cbn.
      * by rewrite Hempty.
      * specialize (Hdl (RZSet (delete m z))). unfold live in Hdl. cbn in Hdl. by rewrite Hdl.
    + rewrite Hlive. cbn. by rewrite delete_empty.
  - destruct (decide (delete m z = ∅)) as [Hempty|Hne]; cbn; rewrite ?Hpos; cbn.
    + by rewrite Hempty.
    + specialize (Hdl (RZSet (delete m z))). unfold live in Hdl. cbn in Hdl. by rewrite Hdl.
Qed.

(** ** Assignment *)

(** X1: an assignment whose value does not encode raises nothing and
    writes nothing but the DUMPS_ERROR counter: the stat hash is the
    live one with one added to DUMPS_ERROR and every other field as it
    was, it gets its thirty days from the clock reading, and the entry,
    the tracker and every other key of the store are as before. *)
Theorem unencodable_assignment_writes_nothing (C : codec) self k v now (σ : store) :
  constructed self →
  well_typed self σ = true →
  json_dumps C v = None →
  ∃ σ' h,
    __setitem__ C self (Str k) v now σ = (σ', Ok tt)
    ∧ report_usage self now σ = Ok h
    ∧ σ' !! stat_key self
      = Some {| rval := RHash (<[DUMPS_ERROR := default 0 (h !! DUMPS_ERROR) + 1]> h);
                expire_at := Some (deadline now EXPIRATION_STAT_KEY) |}
    ∧ counter self now σ' DUMPS_ERROR = counter self now σ DUMPS_ERROR + 1
    ∧ (∀ field, field ≠ DUMPS_ERROR →
                counter self now σ' field = counter self now σ field)
    ∧ ∀ key, key ≠ stat_key self → σ' !! key = σ !! key.
Proof.
  intros Hself Hσ Hdumps.
  set (cmds := [HINCRBY (stat_key self) DUMPS_ERROR 1;
                EXPIRE (stat_key self) EXPIRATION_STAT_KEY]).
  assert (Hcmds : Forall (respects self) cmds) by (by repeat constructor).
  assert (Hpos : Forall positive_ttl cmds) by (by repeat constructor).
  destruct (run_respects now cmds self σ Hself Hσ Hcmds) as [Hσ' Hok].
  pose proof (well_typed_stat self σ Hσ) as Hh.
  assert (Hstat : (run now cmds σ).1 !! stat_key self
    = Some {| rval := RHash (<[DUMPS_ERROR :=
                default 0 (fields_of (alive now (σ !! stat_key self)) !! DUMPS_ERROR) + 1]>
                (fields_of (alive now (σ !! stat_key self))));
              expire_at := Some (deadline now EXPIRATION_STAT_KEY) |}).
  { rewrite run_lookup. unfold cmds. entry_steps. by rewrite stat_bump. }
  exists (run now cmds σ).1, (fields_of (alive now (σ !! stat_key self))).
  split; [|split; [|split; [|split; [|split]]]].
  - unfold __setitem__. rewrite joint_key_str. rewrite Hdumps.
    unfold redis_pipeline. fold cmds. by apply execute_ok, Hok.
  - unfold report_usage. by apply hgetall_typed.
  - exact Hstat.
  - rewrite !counter_typed by eauto using well_typed_stat.
    rewrite Hstat, alive_stat_bumped. cbn [fields_of]. by rewrite lookup_insert_eq.
  - intros field Hfield.
    rewrite !counter_typed by eauto using well_typed_stat.
    rewrite Hstat, alive_stat_bumped. cbn [fields_of].
    by rewrite lookup_insert_ne.
  - intros key Hkey. apply run_untouched.
    repeat constructor; cbn [cmd_key]; congruence.
Qed.

Lemma unencodable_assignment_writes_nothing_witness :
  constructed d
  ∧ well_typed d full = true
  ∧ json_dumps int_codec (VBytes "raw") = None
  ∧ ∃ σ' h,
      __setitem__ int_codec d (Str "a") (VBytes "raw") 40 full = (σ', Ok tt)
      ∧ report_usage d 40 full = Ok h
      ∧ σ' !! stat_key d
        = Some {| rval := RHash (<[DUMPS_ERROR := default 0 (h !! DUMPS_ERROR) + 1]> h);
                  expire_at := Some (deadline 40 EXPIRATION_STAT_KEY) |}
      ∧ counter d 40 σ' DUMPS_ERROR = counter d 40 full DUMPS_ERROR + 1
      ∧ (∀ field, field ≠ DUMPS_ERROR →
                  counter d 40 σ' field = counter d 40 full field)
      ∧ ∀ key, key ≠ stat_key d → σ' !! key = full !! key.
Proof.
  assert (H1 : constructed d)
    by (exists (Some (Str "unique_key")), EmptyString; reflexivity).
  assert (H2 : well_typed d full = true) by (vm_compute; reflexivity).
  assert (H3 : json_dumps int_codec (VBytes "raw") = None) by reflexivity.
  exact (conj H1 (conj H2 (conj H3
    (unencodable_assignment_writes_nothing int_codec d "a" (VBytes "raw") 40 full
       H1 H2 H3)))).
Defined.

(** Below the capacity [_ensure_room] has nothing to do. *)
Lemma ensure_room_below self now (σ : store) z :
  zset_at now σ (access_key self) = Ok z →
  Z.of_nat (base.size z) < max_size self →
  _ensure_room self now σ = (σ, Ok true).
Proof.
  intros Hz Hroom. unfold _ensure_room, LRU.size, ZCARD. rewrite Hz. cbn [bind].
  by rewrite (proj2 (Z.ltb_lt _ _)).
Qed.

(** The queue of an assignment below the capacity runs on the store as
    it is. *)
Lemma setitem_below (C : codec) self k v s now (σ : store) z :
  constructed self →
  well_typed self σ = true →
  0 < expiration self →
  json_dumps C v = Some s →
  zset_at now σ (access_key self) = Ok z →
  Z.of_nat (base.size z) < max_size self →
  __setitem__ C self (Str k) v now σ
  = ((run now [SETEX (physical_key self k) (expiration self) s;
               ZADD (access_key self) now (physical_key self k);
               EXPIRE (access_key self) (expiration self);
               HINCRBY (stat_key self) SET 1;
               EXPIRE (stat_key self) EXPIRATION_STAT_KEY] σ).1, Ok tt).
Proof.
  intros Hself Hσ Hexp Hdumps Hz Hroom.
  assert (Hm : 0 ≤ max_size self)
    by (pose proof (Nat2Z.is_nonneg (base.size z)); lia).
  pose proof (once_clean_size_nonneg self Hself Hm) as Hocs.
  rewrite (setitem_eq C self k v now σ Hself Hσ Hocs Hexp), Hdumps.
  by rewrite (ensure_room_below self now σ z Hz Hroom).
Qed.

(** X2: below the capacity an assignment evicts nothing.  It stores the
    encoded value under the entry key with the expiry time, records the
    access at the clock reading, adds one to SET and leaves every other
    key of the store as it was. *)
Theorem assignment_below_capacity (C : codec) self k v s now (σ : store) z :
  constructed self →
  well_typed self σ = true →
  0 < expiration self →
  json_dumps C v = Some s →
  zset_at now σ (access_key self) = Ok z →
  Z.of_nat (base.size z) < max_size self →
  ∃ σ', __setitem__ C self (Str k) v now σ = (σ', Ok tt)
    ∧ σ' !! physical_key self k
      = Some {| rval := RString s;
                expire_at := Some (deadline now (expiration self)) |}
    ∧ zset_at now σ' (access_key self) = Ok (<[physical_key self k := now]> z)
    ∧ counter self now σ' SET = counter self now σ SET + 1
    ∧ ∀ key, key ≠ physical_key self k → key ≠ access_key self →
             key ≠ stat_key self → σ' !! key = σ !! key.
Proof.
  intros Hself Hσ Hexp Hdumps Hz Hroom.
  pose proof (zset_at_members now σ _ z (well_typed_access self σ Hσ) Hz) as Hmem.
  pose proof (setitem_below C self k v s now σ z Hself Hσ Hexp Hdumps Hz Hroom) as Hset.
  assert (Hσ' : well_typed self (__setitem__ C self (Str k) v now σ).1 = true).
  { rewrite Hset. cbn [fst]. apply (run_respects now _ self σ Hself Hσ).
    repeat constructor; cbn [respects]; eauto with keys. }
  rewrite Hset in Hσ'. cbn [fst] in Hσ'.
  eexists. split; [exact Hset|].
  split; [|split; [|split]].
  - rewrite run_lookup. entry_steps. cbn.
    by rewrite (proj2 (Z.leb_gt _ _)) by lia.
  - apply (zset_at_live now _ _ _ (expiration self)); [|lia].
    rewrite run_lookup. entry_steps.
    rewrite zadd_expire by (by (apply well_typed_access) || done).
    by rewrite Hmem.
  - rewrite !counter_typed by eauto using well_typed_stat.
    rewrite run_lookup. entry_steps.
    rewrite stat_bump by (by apply well_typed_stat). rewrite alive_stat_bumped.
    cbn [fields_of]. by rewrite lookup_insert_eq.
  - intros key H1 H2 H3. apply run_untouched.
    repeat constructor; cbn [cmd_key]; congruence.
Qed.

Lemma assignment_below_capacity_witness :
  constructed d
  ∧ well_typed d ∅ = true
  ∧ 0 < expiration d
  ∧ json_dumps int_codec (VInt 7) = Some "7"
  ∧ zset_at 0 ∅ (access_key d) = Ok ∅
  ∧ Z.of_nat (base.size (∅ : gmap string Z)) < max_size d
  ∧ ∃ σ', __setitem__ int_codec d (Str "foo") (VInt 7) 0 ∅ = (σ', Ok tt)
      ∧ σ' !! physical_key d "foo"
        = Some {| rval := RString "7"; expire_at := Some (deadline 0 (expiration d)) |}
      ∧ zset_at 0 σ' (access_key d) = Ok (<[physical_key d "foo" := 0]> ∅)
      ∧ counter d 0 σ' SET = counter d 0 ∅ SET + 1
      ∧ ∀ key, key ≠ physical_key d "foo" → key ≠ access_key d →
               key ≠ stat_key d → σ' !! key = (∅ : store) !! key.
Proof.
  assert (H1 : constructed d)
    by (exists (Some (Str "unique_key")), EmptyString; reflexivity).
  assert (H2 : well_typed d ∅ = true) by reflexivity.
  assert (H3 : 0 < expiration d) by reflexivity.
  assert (H4 : json_dumps int_codec (VInt 7) = Some "7") by reflexivity.
  assert (H5 : zset_at 0 ∅ (access_key d) = Ok ∅) by reflexivity.
  assert (H6 : Z.of_nat (base.size (∅ : gmap string Z)) < max_size d) by reflexivity.
  exact (conj H1 (conj H2 (conj H3 (conj H4 (conj H5 (conj H6
    (assignment_below_capacity int_codec d "foo" (VInt 7) "7" 0 ∅ ∅
       H1 H2 H3 H4 H5 H6))))))).
Defined.

(** ** Removal *)

(** The queue that [__delitem__] submits. *)
Lemma delitem_eq self k now (σ : store) :
  constructed self →
  well_typed self σ = true →
  __delitem__ self (Str k) now σ
  = ((run now [Redis.DEL (physical_key self k);
               ZREM (access_key self) (physical_key self k);
               EXPIRE (access_key self) (expiration self);
               HINCRBY (stat_key self) DEL 1;
               EXPIRE (stat_key self) EXPIRATION_STAT_KEY] σ).1, Ok tt).
Proof.
  intros Hself Hσ. unfold __delitem__. rewrite joint_key_str.
  unfold encode, redis_pipeline. apply execute_ok.
  apply (run_respects now _ self σ Hself Hσ); by repeat constructor.
Qed.

(** X3: item removal never raises, whether the key is cached or not.  It
    deletes the entry and its access record, adds one to DEL and leaves
    every other key of the store as it was. *)
Theorem removal_deletes_entry_and_record self k now (σ : store) z :
  constructed self →
  well_typed self σ = true →
  0 < expiration self →
  zset_at now σ (access_key self) = Ok z →
  ∃ σ', __delitem__ self (Str k) now σ = (σ', Ok tt)
    ∧ σ' !! physical_key self k = None
    ∧ zset_at now σ' (access_key self) = Ok (delete (physical_key self k) z)
    ∧ counter self now σ' DEL = counter self now σ DEL + 1
    ∧ ∀ key, key ≠ physical_key self k → key ≠ access_key self →
             key ≠ stat_key self → σ' !! key = σ !! key.
Proof.
  intros Hself Hσ Hexp Hz.
  pose proof (zset_at_members now σ _ z (well_typed_access self σ Hσ) Hz) as Hmem.
  pose proof (delitem_eq self k now σ Hself Hσ) as Hdel.
  pose proof (delitem_well_typed self k now σ Hself Hσ) as Hσ'.
  rewrite Hdel in Hσ'. cbn [fst] in Hσ'.
  eexists. split; [exact Hdel|].
  split; [|split; [|split]].
  - rewrite run_lookup. by entry_steps.
  - rewrite zset_at_typed by (by apply well_typed_access).
    rewrite run_lookup. entry_steps.
    rewrite zrem_expire by (by (apply well_typed_access) || done).
    by rewrite Hmem.
  - rewrite !counter_typed by eauto using well_typed_stat.
    rewrite run_lookup. entry_steps.
    rewrite stat_bump by (by apply well_typed_stat). rewrite alive_stat_bumped.
    cbn [fields_of]. by rewrite lookup_insert_eq.
  - intros key H1 H2 H3. apply run_untouched.
    repeat constructor; cbn [cmd_key]; congruence.
Qed.

Lemma removal_deletes_entry_and_record_witness :
  constructed d
  ∧ well_typed d full = true
  ∧ 0 < expiration d
  ∧ zset_at 40 full (access_key d) = Ok full_tracker
  ∧ ∃ σ', __delitem__ d (Str "b") 40 full = (σ', Ok tt)
      ∧ σ' !! physical_key d "b" = None
      ∧ zset_at 40 σ' (access_key d) = Ok (delete (physical_key d "b") full_tracker)
      ∧ counter d 40 σ' DEL = counter d 40 full DEL + 1
      ∧ ∀ key, key ≠ physical_key d "b" → key ≠ access_key d →
               key ≠ stat_key d → σ' !! key = full !! key.
Proof.
  assert (H1 : constructed d)
    by (exists (Some (Str "unique_key")), EmptyString; reflexivity).
  assert (H2 : well_typed d full = true) by (vm_compute; reflexivity).
  assert (H3 : 0 < expiration d) by reflexivity.
  assert (H4 : zset_at 40 full (access_key d) = Ok full_tracker)
    by (vm_compute; reflexivity).
  exact (conj H1 (conj H2 (conj H3 (conj H4
    (removal_deletes_entry_and_record d "b" 40 full full_tracker H1 H2 H3 H4))))).
Defined.

(** ** Lookup *)

(** The lookup of a key without live entry, whatever the diagnostic. *)
Lemma getitem_miss_eq (C : codec) self k now (σ : store) :
  constructed self →
  well_typed self σ = true →
  GET now σ (physical_key self k) = Ok None →
  __getitem__ C self (Str k) now σ
  = ((run now [HINCRBY (stat_key self) MISS 1;
               EXPIRE (stat_key self) EXPIRATION_STAT_KEY] σ).1,
     match bind (item1 (split1 PREFIX_DELIMITER (physical_key self k))) decode with
     | Raise e => Raise e
     | Ok real_key => Raise (KeyError (Str real_key))
     end).
Proof.
  intros Hself Hσ Hget.
  unfold __getitem__. rewrite joint_key_str. unfold encode.
  rewrite Hget. rewrite execute_ok
    by (apply (run_respects now _ self σ Hself Hσ); by repeat constructor).
  unfold redis_pipeline. cbn [execute run].
  by destruct (bind (item1 (split1 PREFIX_DELIMITER (physical_key self k))) decode).
Qed.

(** X4: a hit returns the decoded value, records the access at the clock
    reading and adds one to HIT.  The entry keeps the deadline it got
    when it was assigned: a hit does not prolong it.  Every other key of
    the store is as it was. *)
Theorem hit_refreshes_record_only (C : codec) self k s w dl now (σ : store) z :
  constructed self →
  well_typed self σ = true →
  0 < expiration self →
  σ !! physical_key self k = Some {| rval := RString s; expire_at := Some dl |} →
  now ≤ dl →
  json_loads C s = Some w →
  zset_at now σ (access_key self) = Ok z →
  ∃ σ', __getitem__ C self (Str k) now σ = (σ', Ok w)
    ∧ σ' !! physical_key self k
      = Some {| rval := RString s; expire_at := Some dl |}
    ∧ zset_at now σ' (access_key self) = Ok (<[physical_key self k := now]> z)
    ∧ counter self now σ' HIT = counter self now σ HIT + 1
    ∧ ∀ key, key ≠ access_key self → key ≠ stat_key self → σ' !! key = σ !! key.
Proof.
  intros Hself Hσ Hexp Hent Hlive Hloads Hz.
  pose proof (zset_at_members now σ _ z (well_typed_access self σ Hσ) Hz) as Hmem.
  assert (Hget : GET now σ (physical_key self k) = Ok (Some s)).
  { rewrite (get_entry now σ _ s dl Hent). by rewrite (proj2 (Z.leb_le _ _)). }
  pose proof (getitem_hit C self k s w now σ Hself Hσ Hget Hloads) as Hhit.
  pose proof (getitem_well_typed C self k now σ Hself Hσ) as Hσ'.
  rewrite Hhit in Hσ'. cbn [fst] in Hσ'.
  assert (Hother : ∀ key, key ≠ access_key self → key ≠ stat_key self →
    (run now [ZADD (access_key self) now (physical_key self k);
              EXPIRE (access_key self) (expiration self);
              HINCRBY (stat_key self) HIT 1;
              EXPIRE (stat_key self) EXPIRATION_STAT_KEY] σ).1 !! key = σ !! key).
  { intros key H1 H2. apply run_untouched.
    repeat constructor; cbn [cmd_key]; congruence. }
  eexists. split; [exact Hhit|].
  split; [|split; [|split]].
  - rewrite Hother; eauto with keys.
  - apply (zset_at_live now _ _ _ (expiration self)); [|lia].
    rewrite run_lookup. entry_steps.
    rewrite zadd_expire by (by (apply well_typed_access) || done).
    by rewrite Hmem.
  - rewrite !counter_typed by eauto using well_typed_stat.
    rewrite run_lookup. entry_steps.
    rewrite stat_bump by (by apply well_typed_stat). rewrite alive_stat_bumped.
    cbn [fields_of]. by rewrite lookup_insert_eq.
  - exact Hother.
Qed.

Lemma hit_refreshes_record_only_witness :
  constructed d
  ∧ well_typed d full = true
  ∧ 0 < expiration d
  ∧ full !! physical_key d "a"
    = Some {| rval := RString "1"; expire_at := Some 1000010 |}
  ∧ 40 ≤ 1000010
  ∧ json_loads int_codec "1" = Some (VInt 1)
  ∧ zset_at 40 full (access_key d) = Ok full_tracker
  ∧ ∃ σ', __getitem__ int_codec d (Str "a") 40 full = (σ', Ok (VInt 1))
      ∧ σ' !! physical_key d "a"
        = Some {| rval := RString "1"; expire_at := Some 1000010 |}
      ∧ zset_at 40 σ' (access_key d) = Ok (<[physical_key d "a" := 40]> full_tracker)
      ∧ counter d 40 σ' HIT = counter d 40 full HIT + 1
      ∧ ∀ key, key ≠ access_key d → key ≠ stat_key d → σ' !! key = full !! key.
Proof.
  assert (H1 : constructed d)
    by (exists (Some (Str "unique_key")), EmptyString; reflexivity).
  assert (H2 : well_typed d full = true) by (vm_compute; reflexivity).
  assert (H3 : 0 < expiration d) by reflexivity.
  assert (H4 : full !! physical_key d "a"
               = Some {| rval := RString "1"; expire_at := Some 1000010 |})
    by (vm_compute; reflexivity).
  assert (H5 : 40 ≤ 1000010) by discriminate.
  assert (H6 : json_loads int_codec "1" = Some (VInt 1)) by reflexivity.
  assert (H7 : zset_at 40 full (access_key d) = Ok full_tracker)
    by (vm_compute; reflexivity).
  exact (conj H1 (conj H2 (conj H3 (conj H4 (conj H5 (conj H6 (conj H7
    (hit_refreshes_record_only int_codec d "a" "1" (VInt 1) 1000010 40 full
       full_tracker H1 H2 H3 H4 H5 H6 H7)))))))).
Defined.

(** ** The constructor *)

Lemma bytes_in_app sep a b : bytes_in sep (a +:+ sep +:+ b) = true.
Proof. unfold bytes_in. by destruct (find_app sep a b) as [i ->]. Qed.

(** X5: an identity that contains the prefix delimiter, given as text or
    as bytes, is refused with ValueError before anything else happens:
    the store is untouched, also when the counters were to be cleared. *)
Theorem constructor_rejects_delimiter a c max_size expiration clear_stat
    uuid4_bytes (σ : store) :
  __init__ (Some (Str (a +:+ PREFIX_DELIMITER +:+ c))) max_size expiration
    clear_stat uuid4_bytes σ = (σ, Raise ValueError)
  ∧ __init__ (Some (Bytes (a +:+ PREFIX_DELIMITER +:+ c))) max_size expiration
      clear_stat uuid4_bytes σ = (σ, Raise ValueError).
Proof.
  unfold __init__, new_cache, encode. by rewrite bytes_in_app.
Qed.

(** A converted capacity below [2^1023] in magnitude is a finite double. *)
Lemma float_of_int_finite n :
  Z.abs n < 2 ^ 1023 → ∃ x, float_of_int n = Ok x.
Proof.
  intros Hn. unfold float_of_int, round_signed.
  destruct (round53_bound (Z.abs n) 0 (Z.abs_nonneg n)) as (He & Hm & Hb).
  destruct (round53 (Z.abs n) 0) as [m e]. cbn [fst snd] in *.
  rewrite Z.sub_0_r in Hb.
  assert (Hlt : (2 ^ 1024 <=? Z.abs (Z.sgn n * m) * 2 ^ e) = false).
  { apply Z.leb_gt.
    assert (Habs : Z.abs (Z.sgn n * m) ≤ m)
      by (rewrite Z.abs_mul, (Z.abs_eq m) by done; pose proof (Z.sgn_spec n); nia).
    assert (0 < 2 ^ e) by (apply Z.pow_pos_nonneg; lia).
    assert (H1024 : 2 ^ 1024 = 2 * 2 ^ 1023) by reflexivity.
    nia. }
  rewrite Hlt. eauto.
Qed.

(** X6: the constructor accepts every identity without the prefix
    delimiter and every capacity below [2^1023] in magnitude (zero and
    negative ones too), and an omitted identity becomes the random bytes
    as they are drawn, without the check for the delimiter. *)
Theorem constructor_accepts uk max_size expiration uuid4_bytes :
  bytes_in PREFIX_DELIMITER uk = false →
  Z.abs max_size < 2 ^ 1023 →
  (∃ self, new_cache (Some (Bytes uk)) max_size expiration uuid4_bytes = Ok self
     ∧ unique_key self = uk
     ∧ access_key self = "lru-access:" +:+ bytes_repr uk
     ∧ stat_key self = "lru-stat:" +:+ bytes_repr uk)
  ∧ (∃ self, new_cache None max_size expiration uuid4_bytes = Ok self
       ∧ unique_key self = uuid4_bytes).
Proof.
  intros Huk Hm.
  destruct (float_of_int_finite max_size Hm) as [x Hx].
  unfold new_cache, int_times_float. rewrite Huk, Hx. cbn [bind].
  split; eexists; (split; [reflexivity|]); cbn; done.
Qed.

Lemma constructor_accepts_witness :
  bytes_in PREFIX_DELIMITER "unique_key" = false
  ∧ Z.abs 3 < 2 ^ 1023
  ∧ (∃ self, new_cache (Some (Bytes "unique_key")) 3 1 "0123456789abcdef" = Ok self
       ∧ unique_key self = "unique_key"
       ∧ access_key self = "lru-access:" +:+ bytes_repr "unique_key"
       ∧ stat_key self = "lru-stat:" +:+ bytes_repr "unique_key")
    ∧ (∃ self, new_cache None 3 1 "0123456789abcdef" = Ok self
         ∧ unique_key self = "0123456789abcdef").
Proof.
  assert (H1 : bytes_in PREFIX_DELIMITER "unique_key" = false) by reflexivity.
  assert (H2 : Z.abs 3 < 2 ^ 1023) by reflexivity.
  exact (conj H1 (conj H2
    (constructor_accepts "unique_key" 3 1 "0123456789abcdef" H1 H2))).
Defined.

(** The rounded mantissa of an int of at least [2^1024] is out of the
    range of a double. *)
Lemma round53_large n :
  2 ^ 1024 ≤ n → 2 ^ 1024 ≤ (round53 n 0).1 * 2 ^ (round53 n 0).2.
Proof.
  intros Hn. unfold round53.
  assert (Hpos : 0 < n) by (assert (0 < 2 ^ 1024) by reflexivity; lia).
  assert (Hlog : 1024 ≤ Z.log2 n) by (apply Z.log2_le_pow2; lia).
  destruct (Z.log2 n + 1 <=? 53) eqn:Hbits; [apply Z.leb_le in Hbits; lia|].
  cbn [fst snd]. rewrite Z.add_0_l.
  set (sh := Z.log2 n + 1 - 53).
  assert (Hsh : 0 < sh) by (unfold sh; lia).
  assert (Hq : Z.shiftr n sh = n / 2 ^ sh) by (apply Z.shiftr_div_pow2; lia).
  assert (Hp : 0 < 2 ^ sh) by (apply Z.pow_pos_nonneg; lia).
  assert (Hlow : 2 ^ 52 ≤ n / 2 ^ sh).
  { apply Z.div_le_lower_bound; [done|].
    rewrite <-Z.pow_add_r by lia.
    replace (sh + 52) with (Z.log2 n) by (unfold sh; lia).
    apply Z.log2_spec. lia. }
  assert (Hbig : 2 ^ 1024 ≤ 2 ^ 52 * 2 ^ sh).
  { rewrite <-Z.pow_add_r by lia. apply Z.pow_le_mono_r; unfold sh; lia. }
  rewrite Hq. case_match; nia.
Qed.

(** X7: a capacity of [2^1024] or more does not convert to a double:
    the constructor raises OverflowError when it computes the size of an
    eviction batch, and the store is untouched. *)
Theorem constructor_overflows uk max_size expiration clear_stat uuid4_bytes
    (σ : store) :
  bytes_in PREFIX_DELIMITER uk = false →
  2 ^ 1024 ≤ max_size →
  __init__ (Some (Bytes uk)) max_size expiration clear_stat uuid4_bytes σ
  = (σ, Raise OverflowError).
Proof.
  intros Huk Hm.
  assert (Hpos : 0 < max_size) by (assert (0 < 2 ^ 1024) by reflexivity; lia).
  pose proof (round53_large max_size Hm) as Hbig.
  pose proof (round53_nonneg max_size 0 ltac:(lia)) as Hnn.
  unfold __init__, new_cache, int_times_float, float_of_int, round_signed.
  rewrite Huk. cbn [bind].
  rewrite (Z.abs_eq max_size) by lia. rewrite Z.sgn_pos by done.
  destruct (round53 max_size 0) as [m e]. cbn [fst snd] in *.
  rewrite Z.mul_1_l, (Z.abs_eq m) by done.
  by rewrite (proj2 (Z.leb_le _ _) Hbig).
Qed.

Lemma constructor_overflows_witness :
  bytes_in PREFIX_DELIMITER "unique_key" = false
  ∧ 2 ^ 1024 ≤ 2 ^ 1030
  ∧ __init__ (Some (Bytes "unique_key")) (2 ^ 1030) 1 true EmptyString ∅
    = (∅, Raise OverflowError).
Proof.
  assert (H1 : bytes_in PREFIX_DELIMITER "unique_key" = false) by reflexivity.
  assert (H2 : 2 ^ 1024 ≤ 2 ^ 1030) by discriminate.
  exact (conj H1 (conj H2
    (constructor_overflows "unique_key" (2 ^ 1030) 1 true EmptyString ∅ H1 H2))).
Defined.

(** X8: constructing with [clear_stat] set resets every counter of the
    identity to zero; entries, tracker and every other key stay.  Without
    it the constructor does not write to the store at all. *)
Theorem clear_stat_resets_counters uk max_size expiration uuid4_bytes self
    now (σ σ' : store) :
  __init__ uk max_size expiration true uuid4_bytes σ = (σ', Ok self) →
  report_usage self now σ' = Ok ∅
  ∧ (∀ field, counter self now σ' field = 0)
  ∧ (∀ key, key ≠ stat_key self → σ' !! key = σ !! key)
  ∧ __init__ uk max_size expiration false uuid4_bytes σ = (σ, Ok self).
Proof.
  unfold __init__. intros Hinit.
  destruct (new_cache uk max_size expiration uuid4_bytes) as [self0|e]; [|done].
  injection Hinit as <- <-.
  assert (Hrep : report_usage self0 now (delete (stat_key self0) σ) = Ok ∅).
  { unfold report_usage, HGETALL, lookup_live. by rewrite lookup_delete_eq. }
  split; [done|]. split; [|split; [|done]].
  - intros field. unfold counter. by rewrite Hrep.
  - intros key Hkey. by rewrite lookup_delete_ne.
Qed.

Lemma clear_stat_resets_counters_witness :
  __init__ (Some (Str "unique_key")) 3 1 true EmptyString full
  = (delete (stat_key d) full, Ok d)
  ∧ report_usage d 40 (delete (stat_key d) full) = Ok ∅
  ∧ (∀ field, counter d 40 (delete (stat_key d) full) field = 0)
  ∧ (∀ key, key ≠ stat_key d → delete (stat_key d) full !! key = full !! key)
  ∧ __init__ (Some (Str "unique_key")) 3 1 false EmptyString full = (full, Ok d).
Proof.
  assert (H1 : __init__ (Some (Str "unique_key")) 3 1 true EmptyString full
               = (delete (stat_key d) full, Ok d)) by reflexivity.
  exact (conj H1
    (clear_stat_resets_counters (Some (Str "unique_key")) 3 1 EmptyString d 40
       full (delete (stat_key d) full) H1)).
Defined.

(** ** What is left when nothing is assigned any more *)

(** X9: an assignment of a value that encodes gives the tracker the
    expiry time of the cache, counted from the clock reading: the
    tracker holds the record of the key at that reading; until the
    deadline [size] is the number of its records, and once the deadline
    has passed [size] is zero, whatever the tracker held. *)
Theorem size_is_zero_after_expiry (C : codec) self k v s now (σ : store) :
  constructed self →
  well_typed self σ = true →
  0 ≤ max_size self →
  0 < expiration self →
  json_dumps C v = Some s →
  ∃ z,
    (__setitem__ C self (Str k) v now σ).1 !! access_key self
    = Some {| rval := RZSet z;
              expire_at := Some (deadline now (expiration self)) |}
    ∧ z !! physical_key self k = Some now
    ∧ (∀ now', now' ≤ deadline now (expiration self) →
         LRU.size self now' (__setitem__ C self (Str k) v now σ).1
         = Ok (Z.of_nat (base.size z)))
    ∧ (∀ now', deadline now (expiration self) < now' →
         LRU.size self now' (__setitem__ C self (Str k) v now σ).1 = Ok 0).
Proof.
  intros Hself Hσ Hm Hexp Hdumps.
  pose proof (once_clean_size_nonneg self Hself Hm) as Hocs.
  destruct (ensure_room_well_typed self now σ Hself Hσ Hocs) as [Hσ1 _].
  rewrite (setitem_eq C self k v now σ Hself Hσ Hocs Hexp), Hdumps. cbn [fst].
  eexists. split; [|split; [|split]].
  - rewrite run_lookup. entry_steps.
    by rewrite zadd_expire by (by (apply well_typed_access) || done).
  - apply lookup_insert_eq.
  - intros now' Hlive. unfold LRU.size, ZCARD, zset_at, lookup_live.
    rewrite run_lookup. entry_steps.
    rewrite zadd_expire by (by (apply well_typed_access) || done).
    unfold alive, live. cbn [expire_at].
    by rewrite (proj2 (Z.leb_le _ _) Hlive).
  - intros now' Hlate. unfold LRU.size, ZCARD, zset_at, lookup_live.
    rewrite run_lookup. entry_steps.
    rewrite zadd_expire by (by (apply well_typed_access) || done).
    unfold alive, live. cbn [expire_at].
    by rewrite (proj2 (Z.leb_gt _ _) Hlate).
Qed.

Lemma size_is_zero_after_expiry_witness :
  constructed d
  ∧ well_typed d full = true
  ∧ 0 ≤ max_size d
  ∧ 0 < expiration d
  ∧ json_dumps int_codec (VInt 4) = Some "4"
  ∧ ∃ z,
      (__setitem__ int_codec d (Str "e") (VInt 4) 40 full).1 !! access_key d
      = Some {| rval := RZSet z; expire_at := Some (deadline 40 (expiration d)) |}
      ∧ z !! physical_key d "e" = Some 40
      ∧ (∀ now', now' ≤ deadline 40 (expiration d) →
           LRU.size d now' (__setitem__ int_codec d (Str "e") (VInt 4) 40 full).1
           = Ok (Z.of_nat (base.size z)))
      ∧ (∀ now', deadline 40 (expiration d) < now' →
           LRU.size d now' (__setitem__ int_codec d (Str "e") (VInt 4) 40 full).1
           = Ok 0).
Proof.
  assert (H1 : constructed d)
    by (exists (Some (Str "unique_key")), EmptyString; reflexivity).
  assert (H2 : well_typed d full = true) by (vm_compute; reflexivity).
  assert (H3 : 0 ≤ max_size d) by discriminate.
  assert (H4 : 0 < expiration d) by reflexivity.
  assert (H5 : json_dumps int_codec (VInt 4) = Some "4") by reflexivity.
  exact (conj H1 (conj H2 (conj H3 (conj H4 (conj H5
    (size_is_zero_after_expiry int_codec d "e" (VInt 4) "4" 40 full
       H1 H2 H3 H4 H5)))))).
Defined.

(** X10: every assignment, encodable or not, renews the thirty days of
    the stat key from the clock reading: the stat hash holds the counter
    of the assignment (SET, or DUMPS_ERROR for a value that does not
    encode); until the deadline [report_usage] returns that hash, and
    once the deadline has passed it is empty: the counters are
    forgotten. *)
Theorem report_usage_forgets_after_thirty_days (C : codec) self k v now
    (σ : store) :
  constructed self →
  well_typed self σ = true →
  0 ≤ max_size self →
  0 < expiration self →
  ∃ h,
    (__setitem__ C self (Str k) v now σ).1 !! stat_key self
    = Some {| rval := RHash h;
              expire_at := Some (deadline now EXPIRATION_STAT_KEY) |}
    ∧ is_Some (h !! match json_dumps C v with
                    | Some _ => SET
                    | None => DUMPS_ERROR
                    end)
    ∧ (∀ now', now' ≤ deadline now EXPIRATION_STAT_KEY →
         report_usage self now' (__setitem__ C self (Str k) v now σ).1 = Ok h)
    ∧ (∀ now', deadline now EXPIRATION_STAT_KEY < now' →
         report_usage self now' (__setitem__ C self (Str k) v now σ).1 = Ok ∅).
Proof.
  intros Hself Hσ Hm Hexp.
  pose proof (once_clean_size_nonneg self Hself Hm) as Hocs.
  destruct (ensure_room_well_typed self now σ Hself Hσ Hocs) as [Hσ1 _].
  rewrite (setitem_eq C self k v now σ Hself Hσ Hocs Hexp).
  destruct (json_dumps C v) as [s|]; cbn [fst]; eexists;
    (split; [rewrite run_lookup; entry_steps;
             by rewrite stat_bump by (by apply well_typed_stat)|]);
    (split; [rewrite lookup_insert_eq; by eauto|]);
    (split; intros now' Hnow'; unfold report_usage, HGETALL, lookup_live;
       rewrite run_lookup; entry_steps;
       rewrite stat_bump by (by apply well_typed_stat);
       unfold alive, live; cbn [expire_at]).
  - by rewrite (proj2 (Z.leb_le _ _) Hnow').
  - by rewrite (proj2 (Z.leb_gt _ _) Hnow').
  - by rewrite (proj2 (Z.leb_le _ _) Hnow').
  - by rewrite (proj2 (Z.leb_gt _ _) Hnow').
Qed.

Lemma report_usage_forgets_after_thirty_days_witness :
  constructed d
  ∧ well_typed d full = true
  ∧ 0 ≤ max_size d
  ∧ 0 < expiration d
  ∧ ∃ h,
      (__setitem__ int_codec d (Str "e") (VInt 4) 40 full).1 !! stat_key d
      = Some {| rval := RHash h;
                expire_at := Some (deadline 40 EXPIRATION_STAT_KEY) |}
      ∧ is_Some (h !! match json_dumps int_codec (VInt 4) with
                      | Some _ => SET
                      | None => DUMPS_ERROR
                      end)
      ∧ (∀ now', now' ≤ deadline 40 EXPIRATION_STAT_KEY →
           report_usage d now' (__setitem__ int_codec d (Str "e") (VInt 4) 40 full).1
           = Ok h)
      ∧ (∀ now', deadline 40 EXPIRATION_STAT_KEY < now' →
           report_usage d now' (__setitem__ int_codec d (Str "e") (VInt 4) 40 full).1
           = Ok ∅).
Proof.
  assert (H1 : constructed d)
    by (exists (Some (Str "unique_key")), EmptyString; reflexivity).
  assert (H2 : well_typed d full = true) by (vm_compute; reflexivity).
  assert (H3 : 0 ≤ max_size d) by discriminate.
  assert (H4 : 0 < expiration d) by reflexivity.
  exact (conj H1 (conj H2 (conj H3 (conj H4
    (report_usage_forgets_after_thirty_days int_codec d "e" (VInt 4) 40 full
       H1 H2 H3 H4))))).
Defined.

(** ** An expiry time that is not positive *)

(** A tracker that is given no time to live is gone at once. *)
Lemma zadd_expire_nonpositive now k k' t m e o :
  holds_zset o = true → e ≤ 0 →
  (exec_entry now (EXPIRE k' e) (exec_entry now (ZADD k t m) o).1).1 = None.
Proof.
  intros Ho He.
  assert (Hneg : (e <=? 0) = true) by (by apply Z.leb_le).
  destruct o as [[[s|z|h] [dl|]]|]; try done; cbn.
  - unfold live; cbn. destruct (now <=? dl) eqn:Hlive; cbn.
    + unfold live; cbn. by rewrite Hlive, Hneg.
    + by rewrite Hneg.
  - by rewrite Hneg.
  - by rewrite Hneg.
Qed.

(** X11: with an expiry time of zero or less the store refuses the entry:
    every assignment of a value that encodes raises the error of the
    store, and the key has no entry afterwards unless it had one. *)
Theorem nonpositive_expiration_refuses (C : codec) self k v s now (σ : store) z :
  constructed self →
  well_typed self σ = true →
  expiration self ≤ 0 →
  json_dumps C v = Some s →
  zset_at now σ (access_key self) = Ok z →
  Z.of_nat (base.size z) < max_size self →
  ∃ σ', __setitem__ C self (Str k) v now σ = (σ', Raise ResponseError)
    ∧ σ' !! physical_key self k = σ !! physical_key self k
    ∧ LRU.size self now σ' = Ok 0.
Proof.
  intros Hself Hσ Hexp Hdumps Hz Hroom.
  set (cmds := [SETEX (physical_key self k) (expiration self) s;
                ZADD (access_key self) now (physical_key self k);
                EXPIRE (access_key self) (expiration self);
                HINCRBY (stat_key self) SET 1;
                EXPIRE (stat_key self) EXPIRATION_STAT_KEY]).
  assert (Hneg : (expiration self <=? 0) = true) by (by apply Z.leb_le).
  assert (Hfail : (run now cmds σ).2 = false).
  { unfold cmds. rewrite run_cons. cbn [snd exec exec_entry]. by rewrite Hneg. }
  exists (run now cmds σ).1. split; [|split].
  - unfold __setitem__. rewrite joint_key_str. unfold encode. rewrite Hdumps.
    rewrite (ensure_room_below self now σ z Hz Hroom).
    unfold redis_pipeline, execute. fold cmds.
    destruct (run now cmds σ) as [σ' ok]. cbn [fst snd] in *. by subst ok.
  - rewrite run_lookup. unfold cmds. entry_steps. cbn [exec_entry]. by rewrite Hneg.
  - unfold LRU.size, ZCARD, zset_at, lookup_live.
    rewrite run_lookup. unfold cmds. entry_steps.
    by rewrite zadd_expire_nonpositive by (by (apply well_typed_access) || done).
Qed.

Lemma nonpositive_expiration_refuses_witness :
  constructed immediate
  ∧ well_typed immediate ∅ = true
  ∧ expiration immediate ≤ 0
  ∧ json_dumps int_codec (VInt 7) = Some "7"
  ∧ zset_at 5 ∅ (access_key immediate) = Ok ∅
  ∧ Z.of_nat (base.size (∅ : gmap string Z)) < max_size immediate
  ∧ ∃ σ', __setitem__ int_codec immediate (Str "foo") (VInt 7) 5 ∅
          = (σ', Raise ResponseError)
      ∧ σ' !! physical_key immediate "foo" = (∅ : store) !! physical_key immediate "foo"
      ∧ LRU.size immediate 5 σ' = Ok 0.
Proof.
  assert (H1 : constructed immediate)
    by (exists (Some (Str "unique_key")), EmptyString; reflexivity).
  assert (H2 : well_typed immediate ∅ = true) by reflexivity.
  assert (H3 : expiration immediate ≤ 0) by discriminate.
  assert (H4 : json_dumps int_codec (VInt 7) = Some "7") by reflexivity.
  assert (H5 : zset_at 5 ∅ (access_key immediate) = Ok ∅) by reflexivity.
  assert (H6 : Z.of_nat (base.size (∅ : gmap string Z)) < max_size immediate)
    by reflexivity.
  exact (conj H1 (conj H2 (conj H3 (conj H4 (conj H5 (conj H6
    (nonpositive_expiration_refuses int_codec immediate "foo" (VInt 7) "7" 5 ∅ ∅
       H1 H2 H3 H4 H5 H6))))))).
Defined.

(** ** Where the entry key is split *)

Lemma find_skip c s :
  c ≠ ":"%char → find "::" (String c s) = S <$> find "::" s.
Proof.
  intros Hc. rewrite find_unfold, prefix_cons.
  by destruct (ascii_dec ":" c) as [<-|].
Qed.

Lemma find_colon_skip c s :
  c ≠ ":"%char →
  find "::" (String ":" (String c s)) = S <$> find "::" (String c s).
Proof.
  intros Hc. rewrite find_unfold, !prefix_cons.
  destruct (ascii_dec ":" ":"); [|done].
  by destruct (ascii_dec ":" c) as [<-|].
Qed.

Lemma bytes_in_tail c s : bytes_in "::" (String c s) = false → bytes_in "::" s = false.
Proof.
  unfold bytes_in. rewrite find_unfold.
  destruct (String.prefix "::" (String c s)); [done|].
  by destruct (find "::" s).
Qed.

Lemma bytes_in_head s : bytes_in "::" (String ":" (String ":" s)) = false → False.
Proof. unfold bytes_in. rewrite find_unfold. by destruct s. Qed.

Lemma ends_with_colon_cons c c' s :
  ends_with_colon (String c (String c' s)) = ends_with_colon (String c' s).
Proof. reflexivity. Qed.

Lemma ends_with_colon_app a b :
  b ≠ EmptyString → ends_with_colon (a +:+ b) = ends_with_colon b.
Proof.
  intros Hb. induction a as [|c a IH]; [done|].
  rewrite app_cons. destruct (a +:+ b) as [|c' s] eqn:Hab.
  - destruct a; [by destruct b|done].
  - by rewrite ends_with_colon_cons.
Qed.

Lemma ends_with_colon_snoc a : ends_with_colon (a +:+ ":") = true.
Proof. by rewrite ends_with_colon_app. Qed.

(** The delimiter that follows a prefix without two colons in a row and
    without a colon at its end is the leftmost one. *)
Lemma find_first a b :
  bytes_in "::" a = false → ends_with_colon a = false →
  find "::" (a +:+ "::" +:+ b) = Some (String.length a).
Proof.
  induction a as [|c a IH]; intros Hin Hend.
  - change (EmptyString +:+ "::" +:+ b) with ("::" +:+ b).
    by rewrite find_unfold, prefix_app.
  - rewrite app_cons.
    assert (Hrec : find "::" (a +:+ "::" +:+ b) = Some (String.length a)).
    { apply IH; [by eapply bytes_in_tail|].
      destruct a as [|c' a]; [done|]. by rewrite ends_with_colon_cons in Hend. }
    destruct (ascii_dec c ":") as [->|Hc].
    + destruct a as [|c' a]; [done|].
      rewrite app_cons in *.
      destruct (ascii_dec c' ":") as [->|Hc']; [by destruct (bytes_in_head _ Hin)|].
      rewrite find_colon_skip by done. by rewrite Hrec.
    + rewrite find_skip by done. by rewrite Hrec.
Qed.

Lemma drop_str_app a b n :
  drop_str (String.length a + n) (a +:+ b) = drop_str n b.
Proof. induction a as [|c a IH]; [done|]. by rewrite app_cons. Qed.

(** [key.split(b'::', 1)[1]] when the first delimiter is the leftmost. *)
Lemma split1_first a b :
  bytes_in "::" a = false → ends_with_colon a = false →
  item1 (split1 "::" (a +:+ "::" +:+ b)) = Ok b.
Proof.
  intros Hin Hend. unfold split1. rewrite find_first by done.
  cbn [item1]. rewrite drop_str_app. reflexivity.
Qed.

(** The prefix of an entry key inherits what the identity has. *)
Lemma prefixed_identity_clean uk :
  uk ≠ EmptyString →
  String.prefix ":" uk = false →
  bytes_in "::" uk = false →
  ends_with_colon uk = false →
  bytes_in "::" ("lru-value:" +:+ uk) = false
  ∧ ends_with_colon ("lru-value:" +:+ uk) = false.
Proof.
  intros Hne Hfirst Hin Hend. split; [|by rewrite ends_with_colon_app].
  destruct uk as [|c uk]; [done|].
  assert (Hc : c ≠ ":"%char).
  { intros ->. rewrite prefix_cons in Hfirst.
    destruct (ascii_dec ":" ":"); [by destruct uk|done]. }
  unfold bytes_in in *.
  change ("lru-value:" +:+ String c uk)
    with (String "l" (String "r" (String "u" (String "-" (String "v"
           (String "a" (String "l" (String "u" (String "e"
             (String ":" (String c uk))))))))))).
  rewrite !find_skip by done. rewrite find_colon_skip by done.
  by destruct (find "::" (String c uk)).
Qed.

(** X12: for an identity that is not empty, has no colon at either end
    and no two colons in a row, the lookup of a key without live entry
    raises KeyError with the key as it was given, adds one to MISS and
    changes nothing else: the tracker keeps the record of an expired
    entry. *)
Theorem miss_names_the_key (C : codec) self k now (σ : store) :
  constructed self →
  well_typed self σ = true →
  unique_key self ≠ EmptyString →
  String.prefix NAMESPACE_DELIMITER (unique_key self) = false →
  bytes_in PREFIX_DELIMITER (unique_key self) = false →
  ends_with_colon (unique_key self) = false →
  utf8_valid k = true →
  GET now σ (physical_key self k) = Ok None →
  ∃ σ', __getitem__ C self (Str k) now σ = (σ', Raise (KeyError (Str k)))
    ∧ counter self now σ' MISS = counter self now σ MISS + 1
    ∧ ∀ key, key ≠ stat_key self → σ' !! key = σ !! key.
Proof.
  intros Hself Hσ Hne Hfirst Hin Hend Hk Hget.
  destruct (prefixed_identity_clean _ Hne Hfirst Hin Hend) as [Hin' Hend'].
  assert (Hdiag : bind (item1 (split1 PREFIX_DELIMITER (physical_key self k))) decode
                  = Ok k).
  { change (physical_key self k) with (("lru-value:" +:+ unique_key self) +:+ "::" +:+ k).
    change PREFIX_DELIMITER with "::".
    rewrite split1_first by done. cbn [bind]. unfold decode. by rewrite Hk. }
  set (cmds := [HINCRBY (stat_key self) MISS 1;
                EXPIRE (stat_key self) EXPIRATION_STAT_KEY]).
  assert (Hσ' : well_typed self (run now cmds σ).1 = true)
    by (apply (run_respects now _ self σ Hself Hσ); by repeat constructor).
  exists (run now cmds σ).1. split; [|split].
  - rewrite (getitem_miss_eq C self k now σ Hself Hσ Hget). by rewrite Hdiag.
  - rewrite !counter_typed by eauto using well_typed_stat.
    rewrite run_lookup. unfold cmds. entry_steps.
    rewrite stat_bump by (by apply well_typed_stat). rewrite alive_stat_bumped.
    cbn [fields_of]. by rewrite lookup_insert_eq.
  - intros key Hkey. apply run_untouched.
    repeat constructor; cbn [cmd_key]; congruence.
Qed.

Lemma miss_names_the_key_witness :
  constructed d
  ∧ well_typed d full = true
  ∧ unique_key d ≠ EmptyString
  ∧ String.prefix NAMESPACE_DELIMITER (unique_key d) = false
  ∧ bytes_in PREFIX_DELIMITER (unique_key d) = false
  ∧ ends_with_colon (unique_key d) = false
  ∧ utf8_valid "a" = true
  ∧ GET 1000011 full (physical_key d "a") = Ok None
  ∧ ∃ σ', __getitem__ int_codec d (Str "a") 1000011 full
          = (σ', Raise (KeyError (Str "a")))
      ∧ counter d 1000011 σ' MISS = counter d 1000011 full MISS + 1
      ∧ ∀ key, key ≠ stat_key d → σ' !! key = full !! key.
Proof.
  assert (H1 : constructed d)
    by (exists (Some (Str "unique_key")), EmptyString; reflexivity).
  assert (H2 : well_typed d full = true) by (vm_compute; reflexivity).
  assert (H3 : unique_key d ≠ EmptyString) by discriminate.
  assert (H4 : String.prefix NAMESPACE_DELIMITER (unique_key d) = false) by reflexivity.
  assert (H5 : bytes_in PREFIX_DELIMITER (unique_key d) = false) by reflexivity.
  assert (H6 : ends_with_colon (unique_key d) = false) by reflexivity.
  assert (H7 : utf8_valid "a" = true) by reflexivity.
  assert (H8 : GET 1000011 full (physical_key d "a") = Ok None)
    by (vm_compute; reflexivity).
  exact (conj H1 (conj H2 (conj H3 (conj H4 (conj H5 (conj H6 (conj H7 (conj H8
    (miss_names_the_key int_codec d "a" 1000011 full
       H1 H2 H3 H4 H5 H6 H7 H8))))))))).
Defined.

Lemma string_app_assoc (a b c : string) : (a +:+ b) +:+ c = a +:+ b +:+ c.
Proof. induction a as [|x a IH]; [done|]. rewrite !app_cons. by rewrite IH. Qed.

(** X13: an identity that ends with one colon shifts the split: the
    KeyError of a miss carries the key with a colon in front. *)
Theorem miss_names_colon_key (C : codec) self uk k now (σ : store) :
  constructed self →
  well_typed self σ = true →
  unique_key self = uk +:+ NAMESPACE_DELIMITER →
  uk ≠ EmptyString →
  String.prefix NAMESPACE_DELIMITER uk = false →
  bytes_in PREFIX_DELIMITER uk = false →
  ends_with_colon uk = false →
  utf8_valid k = true →
  GET now σ (physical_key self k) = Ok None →
  (__getitem__ C self (Str k) now σ).2
  = Raise (KeyError (Str (NAMESPACE_DELIMITER +:+ k))).
Proof.
  intros Hself Hσ Huk Hne Hfirst Hin Hend Hk Hget.
  destruct (prefixed_identity_clean _ Hne Hfirst Hin Hend) as [Hin' Hend'].
  assert (Hkey : physical_key self k = ("lru-value:" +:+ uk) +:+ "::" +:+ ":" +:+ k).
  { unfold physical_key. rewrite Huk.
    change PREFIX_DELIMITER with "::". change NAMESPACE_DELIMITER with ":".
    rewrite !string_app_assoc. reflexivity. }
  rewrite (getitem_miss_eq C self k now σ Hself Hσ Hget). cbn [snd].
  rewrite Hkey. change PREFIX_DELIMITER with "::".
  rewrite split1_first by done. cbn [bind]. unfold decode.
  change (utf8_valid (":" +:+ k)) with (utf8_valid k).
  by rewrite Hk.
Qed.

Lemma miss_names_colon_key_witness :
  constructed d_colon
  ∧ well_typed d_colon ∅ = true
  ∧ unique_key d_colon = "unique_key" +:+ NAMESPACE_DELIMITER
  ∧ "unique_key" ≠ EmptyString
  ∧ String.prefix NAMESPACE_DELIMITER "unique_key" = false
  ∧ bytes_in PREFIX_DELIMITER "unique_key" = false
  ∧ ends_with_colon "unique_key" = false
  ∧ utf8_valid "foo" = true
  ∧ GET 0 ∅ (physical_key d_colon "foo") = Ok None
  ∧ (__getitem__ int_codec d_colon (Str "foo") 0 ∅).2
    = Raise (KeyError (Str (NAMESPACE_DELIMITER +:+ "foo"))).
Proof.
  assert (H1 : constructed d_colon)
    by (exists (Some (Str "unique_key:")), EmptyString; reflexivity).
  assert (H2 : well_typed d_colon ∅ = true) by reflexivity.
  assert (H3 : unique_key d_colon = "unique_key" +:+ NAMESPACE_DELIMITER) by reflexivity.
  assert (H4 : "unique_key" ≠ EmptyString) by discriminate.
  assert (H5 : String.prefix NAMESPACE_DELIMITER "unique_key" = false) by reflexivity.
  assert (H6 : bytes_in PREFIX_DELIMITER "unique_key" = false) by reflexivity.
  assert (H7 : ends_with_colon "unique_key" = false) by reflexivity.
  assert (H8 : utf8_valid "foo" = true) by reflexivity.
  assert (H9 : GET 0 ∅ (physical_key d_colon "foo") = Ok None) by reflexivity.
  exact (conj H1 (conj H2 (conj H3 (conj H4 (conj H5 (conj H6 (conj H7 (conj H8 (conj H9
    (miss_names_colon_key int_codec d_colon "unique_key" "foo" 0 ∅
       H1 H2 H3 H4 H5 H6 H7 H8 H9)))))))))).
Defined.

(** ** Entry keys of two caches *)

Lemma string_app_eq_split (a b x y : string) :
  a +:+ x = b +:+ y →
  ∃ r, (b = a +:+ r ∧ x = r +:+ y) ∨ (a = b +:+ r ∧ y = r +:+ x).
Proof.
  revert b. induction a as [|c a IH]; intros b Heq.
  - exists b. left. by split.
  - destruct b as [|c' b].
    + exists (String c a). right. by split.
    + rewrite !app_cons in Heq. injection Heq as <- Heq.
      destruct (IH b Heq) as [r [[-> ->]|[-> ->]]]; exists r; [left|right]; by split.
Qed.

Lemma string_app_nil (a : string) : a +:+ EmptyString = a.
Proof. induction a as [|c a IH]; [done|]. by rewrite app_cons, IH. Qed.

(** One identity cannot be the other with something appended. *)
Lemma no_longer_identity a r k k' :
  bytes_in "::" (a +:+ r) = false →
  ends_with_colon (a +:+ r) = false →
  "::" +:+ k = r +:+ "::" +:+ k' → r = EmptyString.
Proof.
  intros Hin Hend Heq.
  destruct r as [|c r]; [done|]. exfalso.
  rewrite app_cons in Heq. injection Heq as <- Heq.
  destruct r as [|c r].
  - by rewrite ends_with_colon_snoc in Hend.
  - rewrite app_cons in Heq. injection Heq as <- _.
    change (String ":" (String ":" r)) with ("::" +:+ r) in Hin.
    by rewrite bytes_in_app in Hin.
Qed.

(** X14: two caches whose identities differ, have no two colons in a row
    and do not end with a colon never use the same entry key, whatever
    the logical keys. *)
Theorem distinct_identities_share_no_entry_key self1 self2 k1 k2 :
  bytes_in PREFIX_DELIMITER (unique_key self1) = false →
  ends_with_colon (unique_key self1) = false →
  bytes_in PREFIX_DELIMITER (unique_key self2) = false →
  ends_with_colon (unique_key self2) = false →
  unique_key self1 ≠ unique_key self2 →
  physical_key self1 k1 ≠ physical_key self2 k2.
Proof.
  change PREFIX_DELIMITER with "::".
  intros Hin1 Hend1 Hin2 Hend2 Hne Heq. apply Hne.
  unfold physical_key in Heq. apply (inj (String.app _)) in Heq.
  change PREFIX_DELIMITER with "::" in Heq.
  destruct (string_app_eq_split _ _ _ _ Heq) as [r [[Hr Hx]|[Hr Hx]]].
  - rewrite Hr in Hin2, Hend2.
    rewrite (no_longer_identity _ r k1 k2 Hin2 Hend2 Hx) in Hr.
    by rewrite Hr, string_app_nil.
  - rewrite Hr in Hin1, Hend1.
    rewrite (no_longer_identity _ r k2 k1 Hin1 Hend1 Hx) in Hr.
    by rewrite Hr, string_app_nil.
Qed.

Lemma distinct_identities_share_no_entry_key_witness :
  bytes_in PREFIX_DELIMITER (unique_key d) = false
  ∧ ends_with_colon (unique_key d) = false
  ∧ bytes_in PREFIX_DELIMITER (unique_key pkg_cache) = false
  ∧ ends_with_colon (unique_key pkg_cache) = false
  ∧ unique_key d ≠ unique_key pkg_cache
  ∧ physical_key d "foo" ≠ physical_key pkg_cache "foo".
Proof.
  assert (H1 : bytes_in PREFIX_DELIMITER (unique_key d) = false) by reflexivity.
  assert (H2 : ends_with_colon (unique_key d) = false) by reflexivity.
  assert (H3 : bytes_in PREFIX_DELIMITER (unique_key pkg_cache) = false) by reflexivity.
  assert (H4 : ends_with_colon (unique_key pkg_cache) = false) by reflexivity.
  assert (H5 : unique_key d ≠ unique_key pkg_cache) by discriminate.
  exact (conj H1 (conj H2 (conj H3 (conj H4 (conj H5
    (distinct_identities_share_no_entry_key d pkg_cache "foo" "foo"
       H1 H2 H3 H4 H5)))))).
Defined.

(** ** Two identities, one entry key *)

Lemma physical_key_colon self1 self2 k :
  unique_key self1 = unique_key self2 +:+ NAMESPACE_DELIMITER →
  physical_key self1 k = physical_key self2 (NAMESPACE_DELIMITER +:+ k).
Proof.
  intros Huk. unfold physical_key. rewrite Huk.
  change PREFIX_DELIMITER with "::". change NAMESPACE_DELIMITER with ":".
  rewrite !string_app_assoc. reflexivity.
Qed.

(** The keys of one cache are no tracker or stat key of another. *)
Lemma foreign_keys self1 self2 k :
  constructed self1 → constructed self2 →
  physical_key self1 k ≠ access_key self2
  ∧ physical_key self1 k ≠ stat_key self2
  ∧ access_key self1 ≠ stat_key self2
  ∧ stat_key self1 ≠ access_key self2.
Proof.
  intros (Ha1 & Hs1 & _)%constructed_inv (Ha2 & Hs2 & _)%constructed_inv.
  rewrite Ha1, Hs1, Ha2, Hs2. unfold physical_key.
  repeat split; intros Heq; by injection Heq.
Qed.

(** An assignment below the capacity of one cache keeps the store well
    typed for another. *)
Lemma setitem_below_foreign (C : codec) self1 self2 k v s now (σ : store) z :
  constructed self1 → constructed self2 →
  well_typed self1 σ = true → well_typed self2 σ = true →
  0 < expiration self1 →
  json_dumps C v = Some s →
  zset_at now σ (access_key self1) = Ok z →
  Z.of_nat (base.size z) < max_size self1 →
  well_typed self2 (__setitem__ C self1 (Str k) v now σ).1 = true.
Proof.
  intros Hself1 Hself2 Hσ1 Hσ2 Hexp Hdumps Hz Hroom.
  destruct (foreign_keys self1 self2 k Hself1 Hself2) as (Hpa & Hps & Has & Hsa).
  rewrite (setitem_below C self1 k v s now σ z) by done. cbn [fst].
  set (cmds := [SETEX _ _ _; _; _; _; _]).
  assert (Hσ' : well_typed self1 (run now cmds σ).1 = true).
  { apply (run_respects now _ self1 σ Hself1 Hσ1).
    repeat constructor; cbn [respects]; eauto with keys. }
  unfold well_typed. apply andb_true_intro. split.
  - destruct (decide (access_key self2 = access_key self1)) as [->|Hne].
    + by apply well_typed_access.
    + rewrite run_untouched; [by apply well_typed_access|].
      unfold cmds. repeat constructor; cbn [cmd_key]; congruence.
  - destruct (decide (stat_key self2 = stat_key self1)) as [->|Hne].
    + by apply well_typed_stat.
    + rewrite run_untouched; [by apply well_typed_stat|].
      unfold cmds. repeat constructor; cbn [cmd_key]; congruence.
Qed.

(** X15: the entry keys of an identity and of the same identity with a
    colon appended overlap: what one cache stores under [k], the other
    serves under the key [k] with a colon in front. *)
Theorem trailing_colon_identities_collide (C : codec) self1 self2 k v s w
    now now' (σ : store) z :
  constructed self1 →
  constructed self2 →
  unique_key self1 = unique_key self2 +:+ NAMESPACE_DELIMITER →
  well_typed self1 σ = true →
  well_typed self2 σ = true →
  0 < expiration self1 →
  json_dumps C v = Some s →
  json_loads C s = Some w →
  zset_at now σ (access_key self1) = Ok z →
  Z.of_nat (base.size z) < max_size self1 →
  now' ≤ deadline now (expiration self1) →
  ∃ σ', __setitem__ C self1 (Str k) v now σ = (σ', Ok tt)
    ∧ (__getitem__ C self2 (Str (NAMESPACE_DELIMITER +:+ k)) now' σ').2 = Ok w.
Proof.
  intros Hself1 Hself2 Huk Hσ1 Hσ2 Hexp Hdumps Hloads Hz Hroom Hnow.
  pose proof (setitem_below_foreign C self1 self2 k v s now σ z
                Hself1 Hself2 Hσ1 Hσ2 Hexp Hdumps Hz Hroom) as Hσ'.
  pose proof (setitem_below C self1 k v s now σ z Hself1 Hσ1 Hexp Hdumps Hz Hroom)
    as Hset.
  rewrite Hset in Hσ'. cbn [fst] in Hσ'.
  eexists. split; [exact Hset|].
  erewrite getitem_hit; [done|done|done| |exact Hloads].
  rewrite <-(physical_key_colon self1 self2 k Huk).
  erewrite get_entry.
  - by rewrite (proj2 (Z.leb_le _ _) Hnow).
  - rewrite run_lookup. entry_steps. cbn.
    by rewrite (proj2 (Z.leb_gt _ _)) by lia.
Qed.

Lemma trailing_colon_identities_collide_witness :
  constructed d_colon
  ∧ constructed d
  ∧ unique_key d_colon = unique_key d +:+ NAMESPACE_DELIMITER
  ∧ well_typed d_colon ∅ = true
  ∧ well_typed d ∅ = true
  ∧ 0 < expiration d_colon
  ∧ json_dumps int_codec (VInt 7) = Some "7"
  ∧ json_loads int_codec "7" = Some (VInt 7)
  ∧ zset_at 0 ∅ (access_key d_colon) = Ok ∅
  ∧ Z.of_nat (base.size (∅ : gmap string Z)) < max_size d_colon
  ∧ 5 ≤ deadline 0 (expiration d_colon)
  ∧ ∃ σ', __setitem__ int_codec d_colon (Str "foo") (VInt 7) 0 ∅ = (σ', Ok tt)
      ∧ (__getitem__ int_codec d (Str (NAMESPACE_DELIMITER +:+ "foo")) 5 σ').2
        = Ok (VInt 7).
Proof.
  assert (H1 : constructed d_colon)
    by (exists (Some (Str "unique_key:")), EmptyString; reflexivity).
  assert (H2 : constructed d)
    by (exists (Some (Str "unique_key")), EmptyString; reflexivity).
  assert (H3 : unique_key d_colon = unique_key d +:+ NAMESPACE_DELIMITER) by reflexivity.
  assert (H4 : well_typed d_colon ∅ = true) by reflexivity.
  assert (H5 : well_typed d ∅ = true) by reflexivity.
  assert (H6 : 0 < expiration d_colon) by reflexivity.
  assert (H7 : json_dumps int_codec (VInt 7) = Some "7") by reflexivity.
  assert (H8 : json_loads int_codec "7" = Some (VInt 7)) by reflexivity.
  assert (H9 : zset_at 0 ∅ (access_key d_colon) = Ok ∅) by reflexivity.
  assert (H10 : Z.of_nat (base.size (∅ : gmap string Z)) < max_size d_colon)
    by reflexivity.
  assert (H11 : 5 ≤ deadline 0 (expiration d_colon)) by discriminate.
  exact (conj H1 (conj H2 (conj H3 (conj H4 (conj H5 (conj H6 (conj H7 (conj H8
    (conj H9 (conj H10 (conj H11
      (trailing_colon_identities_collide int_codec d_colon d "foo" (VInt 7) "7"
         (VInt 7) 0 5 ∅ ∅ H1 H2 H3 H4 H5 H6 H7 H8 H9 H10 H11)))))))))))).
Defined.

(** ** Traffic on other keys *)

(** A lookup or a removal of another key leaves the entry of [k] as it
    is. *)
Lemma bystander_keeps_entry (C : codec) self x (σ : store) k :
  constructed self →
  bystander k x.1 = true →
  apply C self x σ !! physical_key self k = σ !! physical_key self k.
Proof.
  intros Hself Hx.
  pose proof (physical_key_ne_access self k Hself) as Hacc.
  pose proof (physical_key_ne_stat self k Hself) as Hstat.
  destruct x as [[k' v|k'|k'] t]; unfold apply; cbn [fst snd] in *; [done| |].
  - (* lookup *)
    assert (Hne : physical_key self k' ≠ physical_key self k).
    { intros Heq%physical_key_inj. subst k'. cbn in Hx.
      by rewrite String.eqb_refl in Hx. }
    unfold __getitem__. rewrite joint_key_str. unfold encode, redis_pipeline.
    destruct (GET t σ (physical_key self k')) as [[s|]|e]; [| |done].
    + destruct (json_loads C s) as [w|].
      * destruct (execute t _ σ) as [σ1 [?|?]] eqn:Hex; cbn [fst];
          (replace σ1 with (execute t
             [ZADD (access_key self) t (physical_key self k');
              EXPIRE (access_key self) (expiration self);
              HINCRBY (stat_key self) HIT 1;
              EXPIRE (stat_key self) EXPIRATION_STAT_KEY] σ).1 by (by rewrite Hex));
          rewrite execute_fst; apply run_untouched;
          repeat constructor; cbn [cmd_key]; congruence.
      * destruct (execute t _ σ) as [σ1 [?|?]] eqn:Hex; cbn [fst];
          (replace σ1 with (execute t
             [Redis.DEL (physical_key self k');
              HINCRBY (stat_key self) LOADS_ERROR 1;
              EXPIRE (stat_key self) EXPIRATION_STAT_KEY] σ).1 by (by rewrite Hex));
          rewrite execute_fst; apply run_untouched;
          repeat constructor; cbn [cmd_key]; congruence.
    + destruct (execute t _ σ) as [σ1 [?|?]] eqn:Hex; cbn [fst execute run];
        repeat case_match; cbn [fst];
        (replace σ1 with (execute t
           [HINCRBY (stat_key self) MISS 1;
            EXPIRE (stat_key self) EXPIRATION_STAT_KEY] σ).1 by (by rewrite Hex));
        rewrite execute_fst; apply run_untouched;
        repeat constructor; cbn [cmd_key]; congruence.
  - (* removal *)
    assert (Hne : physical_key self k' ≠ physical_key self k).
    { intros Heq%physical_key_inj. subst k'. cbn in Hx.
      by rewrite String.eqb_refl in Hx. }
    unfold __delitem__. rewrite joint_key_str. unfold encode, redis_pipeline.
    rewrite execute_fst. apply run_untouched.
    repeat constructor; cbn [cmd_key]; congruence.
Qed.

Lemma bystander_assigns k o : bystander k o = true → assigns k o = false.
Proof. by destruct o. Qed.

Lemma bystanders_keep_entry (C : codec) self tr (σ : store) k :
  constructed self →
  Forall (λ x : op * Z, bystander k x.1 = true) tr →
  apply_all C self tr σ !! physical_key self k = σ !! physical_key self k.
Proof.
  intros Hself.
  induction tr as [|x tr IH] using rev_ind; intros Htr; [done|].
  apply Forall_app in Htr as [Htr [Hx _]%Forall_cons].
  rewrite apply_all_snoc, bystander_keeps_entry by done. by apply IH.
Qed.

(** X16: an assigned value is served until its expiry time whatever
    lookups and removals of other keys happen in between, at whatever
    clock readings. *)
Theorem value_survives_bystanders (C : codec) self k v s w tr now now' (σ : store) :
  constructed self →
  well_typed self σ = true →
  0 ≤ max_size self →
  0 < expiration self →
  json_dumps C v = Some s →
  json_loads C s = Some w →
  Forall (λ x : op * Z, bystander k x.1 = true) tr →
  now' ≤ deadline now (expiration self) →
  (__getitem__ C self (Str k) now'
     (apply_all C self tr (__setitem__ C self (Str k) v now σ).1)).2 = Ok w.
Proof.
  intros Hself Hσ Hm Hexp Hdumps Hloads Htr Hnow.
  pose proof (once_clean_size_nonneg self Hself Hm) as Hocs.
  pose proof (setitem_well_typed C self k v now σ Hself Hσ Hocs Hexp) as Hσ1.
  pose proof (setitem_entry C self k v s now σ Hself Hσ Hocs Hexp Hdumps) as Hentry.
  assert (Htr' : Forall (λ x : op * Z, assigns k x.1 = false) tr)
    by (eapply Forall_impl; [exact Htr|]; intros x; apply bystander_assigns).
  destruct (apply_all_spares C self tr _ k Hself Hm Hexp Hσ1 Htr') as [Hσ2 _].
  erewrite getitem_hit; [done|done|done| |exact Hloads].
  erewrite get_entry.
  - by rewrite (proj2 (Z.leb_le _ _) Hnow).
  - by rewrite bystanders_keep_entry.
Qed.

Lemma value_survives_bystanders_witness :
  constructed d
  ∧ well_typed d full = true
  ∧ 0 ≤ max_size d
  ∧ 0 < expiration d
  ∧ json_dumps int_codec (VInt 7) = Some "7"
  ∧ json_loads int_codec "7" = Some (VInt 7)
  ∧ Forall (λ x : op * Z, bystander "foo" x.1 = true)
      [(Lookup "b", 50); (Remove "c", 60); (Lookup "nil", 70)]
  ∧ 80 ≤ deadline 40 (expiration d)
  ∧ (__getitem__ int_codec d (Str "foo") 80
       (apply_all int_codec d [(Lookup "b", 50); (Remove "c", 60); (Lookup "nil", 70)]
          (__setitem__ int_codec d (Str "foo") (VInt 7) 40 full).1)).2
    = Ok (VInt 7).
Proof.
  assert (H1 : constructed d)
    by (exists (Some (Str "unique_key")), EmptyString; reflexivity).
  assert (H2 : well_typed d full = true) by (vm_compute; reflexivity).
  assert (H3 : 0 ≤ max_size d) by discriminate.
  assert (H4 : 0 < expiration d) by reflexivity.
  assert (H5 : json_dumps int_codec (VInt 7) = Some "7") by reflexivity.
  assert (H6 : json_loads int_codec "7" = Some (VInt 7)) by reflexivity.
  assert (H7 : Forall (λ x : op * Z, bystander "foo" x.1 = true)
                 [(Lookup "b", 50); (Remove "c", 60); (Lookup "nil", 70)])
    by (repeat constructor).
  assert (H8 : 80 ≤ deadline 40 (expiration d)) by discriminate.
  exact (conj H1 (conj H2 (conj H3 (conj H4 (conj H5 (conj H6 (conj H7 (conj H8
    (value_survives_bystanders int_codec d "foo" (VInt 7) "7" (VInt 7)
       [(Lookup "b", 50); (Remove "c", 60); (Lookup "nil", 70)] 40 80 full
       H1 H2 H3 H4 H5 H6 H7 H8))))))))).
Defined.

(** X17: no operation on another key changes the value or the deadline of
    an entry: after any trace without an assignment of [k] the entry of
    [k] is as it was, or gone (evicted, removed or found undecodable). *)
Theorem entry_is_never_altered_by_others (C : codec) self tr (σ : store) k :
  constructed self →
  well_typed self σ = true →
  0 ≤ max_size self →
  0 < expiration self →
  Forall (λ x : op * Z, assigns k x.1 = false) tr →
  apply_all C self tr σ !! physical_key self k = None
  ∨ apply_all C self tr σ !! physical_key self k = σ !! physical_key self k.
Proof.
  intros Hself Hσ Hm Hexp Htr.
  by destruct (apply_all_spares C self tr σ k Hself Hm Hexp Hσ Htr) as [_ ?].
Qed.

Lemma entry_is_never_altered_by_others_witness :
  constructed d
  ∧ well_typed d full = true
  ∧ 0 ≤ max_size d
  ∧ 0 < expiration d
  ∧ Forall (λ x : op * Z, assigns "b" x.1 = false)
      [(Assign "e" (VInt 5), 40); (Lookup "b", 50); (Remove "c", 60)]
  ∧ (apply_all int_codec d
       [(Assign "e" (VInt 5), 40); (Lookup "b", 50); (Remove "c", 60)] full
     !! physical_key d "b" = None
     ∨ apply_all int_codec d
         [(Assign "e" (VInt 5), 40); (Lookup "b", 50); (Remove "c", 60)] full
       !! physical_key d "b" = full !! physical_key d "b").
Proof.
  assert (H1 : constructed d)
    by (exists (Some (Str "unique_key")), EmptyString; reflexivity).
  assert (H2 : well_typed d full = true) by (vm_compute; reflexivity).
  assert (H3 : 0 ≤ max_size d) by discriminate.
  assert (H4 : 0 < expiration d) by reflexivity.
  assert (H5 : Forall (λ x : op * Z, assigns "b" x.1 = false)
                 [(Assign "e" (VInt 5), 40); (Lookup "b", 50); (Remove "c", 60)])
    by (repeat constructor).
  exact (conj H1 (conj H2 (conj H3 (conj H4 (conj H5
    (entry_is_never_altered_by_others int_codec d
       [(Assign "e" (VInt 5), 40); (Lookup "b", 50); (Remove "c", 60)] full "b"
       H1 H2 H3 H4 H5)))))).
Defined.

(** X18: more than [expiration] seconds after its last assignment, and
    whatever else was done in between, the lookup of a key raises
    KeyError with the key as it was given (for an identity that is not
    empty, has no colon at either end and no two colons in a row). *)
Theorem expired_lookup_names_the_key (C : codec) self k v s tr now now'
    (σ : store) :
  constructed self →
  well_typed self σ = true →
  0 ≤ max_size self →
  0 < expiration self →
  unique_key self ≠ EmptyString →
  String.prefix NAMESPACE_DELIMITER (unique_key self) = false →
  bytes_in PREFIX_DELIMITER (unique_key self) = false →
  ends_with_colon (unique_key self) = false →
  utf8_valid k = true →
  json_dumps C v = Some s →
  Forall (λ x : op * Z, assigns k x.1 = false) tr →
  deadline now (expiration self) < now' →
  (__getitem__ C self (Str k) now'
     (apply_all C self tr (__setitem__ C self (Str k) v now σ).1)).2
  = Raise (KeyError (Str k)).
Proof.
  intros Hself Hσ Hm Hexp Hne Hfirst Hin Hend Hk Hdumps Htr Hnow.
  pose proof (once_clean_size_nonneg self Hself Hm) as Hocs.
  pose proof (setitem_well_typed C self k v now σ Hself Hσ Hocs Hexp) as Hσ1.
  pose proof (setitem_entry C self k v s now σ Hself Hσ Hocs Hexp Hdumps) as Hentry.
  destruct (apply_all_spares C self tr _ k Hself Hm Hexp Hσ1 Htr) as [Hσ2 Hkeep].
  rewrite Hentry in Hkeep.
  assert (Hget : GET now' (apply_all C self tr (__setitem__ C self (Str k) v now σ).1)
                   (physical_key self k) = Ok None).
  { destruct Hkeep as [Hnone|Hsome].
    - unfold GET, lookup_live. by rewrite Hnone.
    - erewrite get_entry by done. by rewrite (proj2 (Z.leb_gt _ _)). }
  destruct (prefixed_identity_clean _ Hne Hfirst Hin Hend) as [Hin' Hend'].
  rewrite (getitem_miss_eq C self k now' _ Hself Hσ2 Hget). cbn [snd].
  change (physical_key self k) with (("lru-value:" +:+ unique_key self) +:+ "::" +:+ k).
  change PREFIX_DELIMITER with "::".
  rewrite split1_first by done. cbn [bind]. unfold decode. by rewrite Hk.
Qed.

Lemma expired_lookup_names_the_key_witness :
  constructed d
  ∧ well_typed d ∅ = true
  ∧ 0 ≤ max_size d
  ∧ 0 < expiration d
  ∧ unique_key d ≠ EmptyString
  ∧ String.prefix NAMESPACE_DELIMITER (unique_key d) = false
  ∧ bytes_in PREFIX_DELIMITER (unique_key d) = false
  ∧ ends_with_colon (unique_key d) = false
  ∧ utf8_valid "foo" = true
  ∧ json_dumps int_codec (VInt 7) = Some "7"
  ∧ Forall (λ x : op * Z, assigns "foo" x.1 = false) [(Lookup "foo", 5)]
  ∧ deadline 0 (expiration d) < 1100000
  ∧ (__getitem__ int_codec d (Str "foo") 1100000
       (apply_all int_codec d [(Lookup "foo", 5)]
          (__setitem__ int_codec d (Str "foo") (VInt 7) 0 ∅).1)).2
    = Raise (KeyError (Str "foo")).
Proof.
  assert (H1 : constructed d)
    by (exists (Some (Str "unique_key")), EmptyString; reflexivity).
  assert (H2 : well_typed d ∅ = true) by reflexivity.
  assert (H3 : 0 ≤ max_size d) by discriminate.
  assert (H4 : 0 < expiration d) by reflexivity.
  assert (H5 : unique_key d ≠ EmptyString) by discriminate.
  assert (H6 : String.prefix NAMESPACE_DELIMITER (unique_key d) = false) by reflexivity.
  assert (H7 : bytes_in PREFIX_DELIMITER (unique_key d) = false) by reflexivity.
  assert (H8 : ends_with_colon (unique_key d) = false) by reflexivity.
  assert (H9 : utf8_valid "foo" = true) by reflexivity.
  assert (H10 : json_dumps int_codec (VInt 7) = Some "7") by reflexivity.
  assert (H11 : Forall (λ x : op * Z, assigns "foo" x.1 = false) [(Lookup "foo", 5)])
    by (repeat constructor).
  assert (H12 : deadline 0 (expiration d) < 1100000) by reflexivity.
  exact (conj H1 (conj H2 (conj H3 (conj H4 (conj H5 (conj H6 (conj H7 (conj H8
    (conj H9 (conj H10 (conj H11 (conj H12
      (expired_lookup_names_the_key int_codec d "foo" (VInt 7) "7" [(Lookup "foo", 5)]
         0 1100000 ∅ H1 H2 H3 H4 H5 H6 H7 H8 H9 H10 H11 H12))))))))))))).
Defined.

(** ** Decorated functions and their caches *)

(** X19: the entry key of a decorated call is made of the identity of the
    cache and the hash of the arguments, and of nothing else: when two
    functions are decorated with one cache and two calls have arguments
    with the same hash, the second call is served what the first has
    stored, and its function is not invoked. *)
Theorem equal_hashes_share_an_entry (H : hash_impl) (C : codec) self
    f1 f2 g1 g2 g1' g2' args1 kwargs1 args2 kwargs2 h miss s w
    now1 now1' now2 now2' (σ : store) (n : nat) :
  constructed self →
  well_typed self σ = true →
  0 ≤ max_size self →
  0 < expiration self →
  _hash_args H args1 kwargs1 = Ok h →
  _hash_args H args2 kwargs2 = Ok h →
  (__getitem__ C self (Str (hex h)) now1 σ).2 = Raise (KeyError miss) →
  json_dumps C (call f1 args1 kwargs1) = Some s →
  json_loads C s = Some w →
  now2 ≤ deadline now1' (expiration self) →
  let r1 := inner H C false self f1 g1 g2 args1 kwargs1 now1 now1' (σ, n) in
  let r2 := inner H C false self f2 g1' g2' args2 kwargs2 now2 now2' r1.1 in
  r1.2 = Ok (call f1 args1 kwargs1) ∧ r1.1.2 = S n
  ∧ r2.2 = Ok w ∧ r2.1.2 = S n.
Proof.
  intros Hself Hσ Hm Hexp Hh1 Hh2 Hmiss Hdumps Hloads Hnow. cbn zeta.
  pose proof (getitem_well_typed C self (hex h) now1 σ Hself Hσ) as Hσ1.
  destruct (__getitem__ C self (Str (hex h)) now1 σ) as [σ1 r] eqn:Hget.
  cbn [fst snd] in *. subst r.
  destruct (set_then_get C self (hex h) (call f1 args1 kwargs1) s w now1' now2 σ1
              Hself Hσ1 Hm Hexp Hdumps Hloads Hnow) as [Hset Hhit].
  destruct (__setitem__ C self (Str (hex h)) (call f1 args1 kwargs1) now1' σ1)
    as [σ2 r2] eqn:Hset2.
  cbn [fst snd] in *. subst r2.
  assert (Hr1 : inner H C false self f1 g1 g2 args1 kwargs1 now1 now1' (σ, n)
                = ((σ2, S n), Ok (call f1 args1 kwargs1))).
  { unfold inner. rewrite Hh1. cbn [fst snd]. by rewrite Hget, Hset2. }
  rewrite Hr1. cbn [fst snd].
  split; [done|]. split; [done|].
  unfold inner. rewrite Hh2. cbn [fst snd].
  destruct (__getitem__ C self (Str (hex h)) now2 σ2) as [σ3 r3].
  cbn [fst snd] in *. by subst r3.
Qed.

Lemma equal_hashes_share_an_entry_witness :
  constructed pkg_cache
  ∧ well_typed pkg_cache ∅ = true
  ∧ 0 ≤ max_size pkg_cache
  ∧ 0 < expiration pkg_cache
  ∧ _hash_args sample_hash [VInt (-1)] [] = Ok 2931981938838123505
  ∧ _hash_args sample_hash [VInt (-2)] [] = Ok 2931981938838123505
  ∧ (__getitem__ int_codec pkg_cache (Str (hex 2931981938838123505)) 0 ∅).2
    = Raise (KeyError (Str "0x28b07e0a004eb3f1"))
  ∧ json_dumps int_codec (call util_load [VInt (-1)] []) = Some "-1"
  ∧ json_loads int_codec "-1" = Some (VInt (-1))
  ∧ 5 ≤ deadline 1 (expiration pkg_cache)
  ∧ let r1 := inner sample_hash int_codec false pkg_cache util_load 0 0
                [VInt (-1)] [] 0 1 (∅, 0%nat) in
    let r2 := inner sample_hash int_codec false pkg_cache util_method 0 0
                [VInt (-2)] [] 5 6 r1.1 in
    r1.2 = Ok (call util_load [VInt (-1)] []) ∧ r1.1.2 = 1%nat
    ∧ r2.2 = Ok (VInt (-1)) ∧ r2.1.2 = 1%nat.
Proof.
  assert (H1 : constructed pkg_cache)
    by (exists (Some (Str "pkg:util:load")), EmptyString; reflexivity).
  assert (H2 : well_typed pkg_cache ∅ = true) by reflexivity.
  assert (H3 : 0 ≤ max_size pkg_cache) by discriminate.
  assert (H4 : 0 < expiration pkg_cache) by reflexivity.
  assert (H5 : _hash_args sample_hash [VInt (-1)] [] = Ok 2931981938838123505)
    by (vm_compute; reflexivity).
  assert (H6 : _hash_args sample_hash [VInt (-2)] [] = Ok 2931981938838123505)
    by (vm_compute; reflexivity).
  assert (H7 : (__getitem__ int_codec pkg_cache
                  (Str (hex 2931981938838123505)) 0 ∅).2
               = Raise (KeyError (Str "0x28b07e0a004eb3f1")))
    by (vm_compute; reflexivity).
  assert (H8 : json_dumps int_codec (call util_load [VInt (-1)] []) = Some "-1")
    by (vm_compute; reflexivity).
  assert (H9 : json_loads int_codec "-1" = Some (VInt (-1))) by reflexivity.
  assert (H10 : 5 ≤ deadline 1 (expiration pkg_cache)) by discriminate.
  exact (conj H1 (conj H2 (conj H3 (conj H4 (conj H5 (conj H6 (conj H7 (conj H8
    (conj H9 (conj H10
      (equal_hashes_share_an_entry sample_hash int_codec pkg_cache
         util_load util_method 0 0 0 0 [VInt (-1)] [] [VInt (-2)] []
         2931981938838123505 (Str "0x28b07e0a004eb3f1") "-1" (VInt (-1)) 0 1 5 6
         ∅ 0%nat H1 H2 H3 H4 H5 H6 H7 H8 H9 H10))))))))))).
Defined.

Lemma replace_byte_app old new a b :
  replace_byte old new (a +:+ b) = replace_byte old new a +:+ replace_byte old new b.
Proof. induction a as [|c a IH]; [done|]. rewrite app_cons. cbn. by rewrite IH. Qed.

Lemma new_cache_fields uk m e u self :
  new_cache uk m e u = Ok self → max_size self = m ∧ expiration self = e.
Proof.
  unfold new_cache. intros Hnew.
  destruct (match uk with Some _ => _ | None => _ end) as [b|]; [|done].
  cbn [bind] in Hnew.
  destruct (int_times_float m ONCE_CLEAN_RATIO) as [x|]; [|done].
  cbn [bind] in Hnew. by injection Hnew as <-.
Qed.

(** X20: the decorator makes the identity of its cache from the module
    and the qualified name with the dots replaced, so that a function
    [q2] of module [m.q1] and a function [q1.q2] of module [m] (a method
    [q2] of a class [q1]) get one and the same cache. *)
Theorem dotted_names_get_one_cache (H : hash_impl) (C : codec) m q1 q2
    body1 body2 max_size expiration typed u u' (σ σ' σ1 : store) g :
  wrapper H C max_size expiration None typed
    {| __module__ := m +:+ "." +:+ q1; __qualname__ := q2; call := body1 |} u σ
  = (σ1, Ok g) →
  ∃ self,
    constructed self
    ∧ σ1 = σ
    ∧ g = inner H C typed self
            {| __module__ := m +:+ "." +:+ q1; __qualname__ := q2; call := body1 |}
    ∧ wrapper H C max_size expiration None typed
        {| __module__ := m; __qualname__ := q1 +:+ "." +:+ q2; call := body2 |} u' σ'
      = (σ', Ok (inner H C typed self
                   {| __module__ := m; __qualname__ := q1 +:+ "." +:+ q2;
                      call := body2 |})).
Proof.
  unfold wrapper, __init__, encode. cbn [__module__ __qualname__].
  rewrite !replace_byte_app.
  change (replace_byte "." ":" ".") with ":". change NAMESPACE_DELIMITER with ":".
  rewrite !string_app_assoc.
  set (uk := replace_byte "." ":" m +:+ ":" +:+ replace_byte "." ":" q1
               +:+ ":" +:+ replace_byte "." ":" q2).
  change (new_cache (Some (Bytes uk)) max_size expiration u')
    with (new_cache (Some (Bytes uk)) max_size expiration u).
  destruct (new_cache (Some (Bytes uk)) max_size expiration u) as [self|e] eqn:Hnew;
    [|done].
  intros [= <- <-]. exists self. repeat split.
  destruct (new_cache_fields _ _ _ _ _ Hnew) as [Hm He].
  exists (Some (Bytes uk)), u. by rewrite Hm, He.
Qed.

Lemma dotted_names_get_one_cache_witness :
  wrapper sample_hash int_codec 20 1 None false
    {| __module__ := "pkg" +:+ "." +:+ "util"; __qualname__ := "load";
       call := call util_load |} EmptyString ∅
  = (∅, Ok (inner sample_hash int_codec false pkg_cache
              {| __module__ := "pkg" +:+ "." +:+ "util"; __qualname__ := "load";
                 call := call util_load |}))
  ∧ ∃ self,
      constructed self
      ∧ (∅ : store) = ∅
      ∧ inner sample_hash int_codec false pkg_cache
          {| __module__ := "pkg" +:+ "." +:+ "util"; __qualname__ := "load";
             call := call util_load |}
        = inner sample_hash int_codec false self
            {| __module__ := "pkg" +:+ "." +:+ "util"; __qualname__ := "load";
               call := call util_load |}
      ∧ wrapper sample_hash int_codec 20 1 None false
          {| __module__ := "pkg"; __qualname__ := "util" +:+ "." +:+ "load";
             call := call util_method |} EmptyString ∅
        = (∅, Ok (inner sample_hash int_codec false self
                    {| __module__ := "pkg"; __qualname__ := "util" +:+ "." +:+ "load";
                       call := call util_method |})).
Proof.
  assert (H1 : wrapper sample_hash int_codec 20 1 None false
                 {| __module__ := "pkg" +:+ "." +:+ "util"; __qualname__ := "load";
                    call := call util_load |} EmptyString ∅
               = (∅, Ok (inner sample_hash int_codec false pkg_cache
                           {| __module__ := "pkg" +:+ "." +:+ "util";
                              __qualname__ := "load"; call := call util_load |})))
    by reflexivity.
  exact (conj H1
    (dotted_names_get_one_cache sample_hash int_codec "pkg" "util" "load"
       (call util_load) (call util_method) 20 1 false EmptyString EmptyString
       ∅ ∅ ∅ _ H1)).
Defined.

(** The lookup of an entry whose bytes do not decode. *)
Lemma getitem_undecodable_eq (C : codec) self k raw now (σ : store) :
  constructed self →
  well_typed self σ = true →
  GET now σ (physical_key self k) = Ok (Some raw) →
  json_loads C raw = None →
  __getitem__ C self (Str k) now σ
  = ((run now [Redis.DEL (physical_key self k);
               HINCRBY (stat_key self) LOADS_ERROR 1;
               EXPIRE (stat_key self) EXPIRATION_STAT_KEY] σ).1,
     Raise (KeyError (Bytes (physical_key self k)))).
Proof.
  intros Hself Hσ Hget Hloads.
  unfold __getitem__. rewrite joint_key_str. unfold encode.
  rewrite Hget, Hloads. unfold redis_pipeline.
  rewrite execute_ok; [done|].
  apply (run_respects now _ self σ Hself Hσ); by repeat constructor.
Qed.

(** X21: a decorated call that finds an entry whose bytes do not decode
    treats it as a miss: the entry is dropped, the function is invoked
    once, its result is returned and stored in place of the bad entry. *)
Theorem decorated_call_replaces_undecodable_entry (H : hash_impl) (C : codec)
    self func g1 g2 args kwargs h raw s now now' (σ : store) (n : nat) :
  constructed self →
  well_typed self σ = true →
  0 ≤ max_size self →
  0 < expiration self →
  _hash_args H args kwargs = Ok h →
  GET now σ (physical_key self (hex h)) = Ok (Some raw) →
  json_loads C raw = None →
  json_dumps C (call func args kwargs) = Some s →
  let r := inner H C false self func g1 g2 args kwargs now now' (σ, n) in
  r.2 = Ok (call func args kwargs)
  ∧ r.1.2 = S n
  ∧ r.1.1 !! physical_key self (hex h)
    = Some {| rval := RString s;
              expire_at := Some (deadline now' (expiration self)) |}.
Proof.
  intros Hself Hσ Hm Hexp Hh Hget Hloads Hdumps. cbn zeta.
  pose proof (once_clean_size_nonneg self Hself Hm) as Hocs.
  pose proof (getitem_undecodable_eq C self (hex h) raw now σ Hself Hσ Hget Hloads)
    as Hdrop.
  pose proof (getitem_well_typed C self (hex h) now σ Hself Hσ) as Hσ1.
  rewrite Hdrop in Hσ1. cbn [fst] in Hσ1.
  set (σ1 := (run now _ σ).1) in *.
  pose proof (setitem_eq C self (hex h) (call func args kwargs) now' σ1
                Hself Hσ1 Hocs Hexp) as Hset.
  rewrite Hdumps in Hset.
  pose proof (setitem_entry C self (hex h) (call func args kwargs) s now' σ1
                Hself Hσ1 Hocs Hexp Hdumps) as Hentry.
  unfold inner. rewrite Hh. cbn [fst snd]. rewrite Hdrop. fold σ1.
  rewrite Hset in Hentry |- *. cbn [fst snd] in *. done.
Qed.

Lemma decorated_call_replaces_undecodable_entry_witness :
  constructed d
  ∧ well_typed d
      (exec 0 (SETEX (physical_key d "-0x1e81e11e9b6f8940") 1 "{oops") ∅).1 = true
  ∧ 0 ≤ max_size d
  ∧ 0 < expiration d
  ∧ _hash_args sample_hash [VInt 1] [] = Ok (-2198285614706559296)
  ∧ GET 5 (exec 0 (SETEX (physical_key d "-0x1e81e11e9b6f8940") 1 "{oops") ∅).1
      (physical_key d (hex (-2198285614706559296))) = Ok (Some "{oops")
  ∧ json_loads int_codec "{oops" = None
  ∧ json_dumps int_codec (call first_arg [VInt 1] []) = Some "1"
  ∧ let r := inner sample_hash int_codec false d first_arg 0 0 [VInt 1] [] 5 6
               ((exec 0 (SETEX (physical_key d "-0x1e81e11e9b6f8940") 1 "{oops") ∅).1,
                0%nat) in
    r.2 = Ok (call first_arg [VInt 1] [])
    ∧ r.1.2 = 1%nat
    ∧ r.1.1 !! physical_key d (hex (-2198285614706559296))
      = Some {| rval := RString "1";
                expire_at := Some (deadline 6 (expiration d)) |}.
Proof.
  assert (H1 : constructed d)
    by (exists (Some (Str "unique_key")), EmptyString; reflexivity).
  assert (H2 : well_typed d
                 (exec 0 (SETEX (physical_key d "-0x1e81e11e9b6f8940") 1 "{oops") ∅).1
               = true) by (vm_compute; reflexivity).
  assert (H3 : 0 ≤ max_size d) by discriminate.
  assert (H4 : 0 < expiration d) by reflexivity.
  assert (H5 : _hash_args sample_hash [VInt 1] [] = Ok (-2198285614706559296))
    by (vm_compute; reflexivity).
  assert (H6 : GET 5
                 (exec 0 (SETEX (physical_key d "-0x1e81e11e9b6f8940") 1 "{oops") ∅).1
                 (physical_key d (hex (-2198285614706559296))) = Ok (Some "{oops"))
    by (vm_compute; reflexivity).
  assert (H7 : json_loads int_codec "{oops" = None) by reflexivity.
  assert (H8 : json_dumps int_codec (call first_arg [VInt 1] []) = Some "1")
    by (vm_compute; reflexivity).
  exact (conj H1 (conj H2 (conj H3 (conj H4 (conj H5 (conj H6 (conj H7 (conj H8
    (decorated_call_replaces_undecodable_entry sample_hash int_codec d first_arg
       0 0 [VInt 1] [] (-2198285614706559296) "{oops" "1" 5 6 _ 0%nat
       H1 H2 H3 H4 H5 H6 H7 H8))))))))).
Defined.

(** ** Arguments that hash alike *)

(** X22: the hash of the arguments does not tell [-1] from [-2], nor a
    natural number [n] from [n + 2^61 - 1], in any position of the
    positional arguments and with any interpreter: such calls get one
    entry key. *)
Theorem hash_args_merges_numbers (H : hash_impl) before after kwargs n :
  0 ≤ n →
  _hash_args H (before ++ VInt (-1) :: after) kwargs
  = _hash_args H (before ++ VInt (-2) :: after) kwargs
  ∧ _hash_args H (before ++ VInt n :: after) kwargs
    = _hash_args H (before ++ VInt (n + hash_modulus) :: after) kwargs.
Proof.
  intros Hn.
  assert (Hmap : ∀ a b, py_hash H a = py_hash H b →
            mapM_result (py_hash H) (before ++ a :: after)
            = mapM_result (py_hash H) (before ++ b :: after)).
  { intros a b Hab. induction before as [|x before IH]; cbn; [by rewrite Hab|].
    by rewrite IH. }
  assert (Hmod : hash_int n = hash_int (n + hash_modulus)).
  { unfold hash_int. f_equal.
    assert (HM : 0 < hash_modulus) by reflexivity.
    rewrite (Z.abs_eq n), (Z.abs_eq (n + hash_modulus)) by lia.
    replace (n + hash_modulus) with (n + 1 * hash_modulus) by lia.
    rewrite Z.mod_add by lia.
    destruct (Z.eq_dec n 0) as [->|Hne].
    - rewrite Z.mod_0_l by lia. lia.
    - rewrite !Z.sgn_pos by lia. done. }
  unfold _hash_args. cbn [py_hash].
  split; [by rewrite (Hmap (VInt (-1)) (VInt (-2)))|].
  by rewrite (Hmap (VInt n) (VInt (n + hash_modulus))) by (cbn; by rewrite Hmod).
Qed.

Lemma hash_args_merges_numbers_witness :
  0 ≤ 0
  ∧ _hash_args sample_hash ([VStr "x"] ++ VInt (-1) :: []) [("y", VInt 3)]
    = _hash_args sample_hash ([VStr "x"] ++ VInt (-2) :: []) [("y", VInt 3)]
  ∧ _hash_args sample_hash ([VStr "x"] ++ VInt 0 :: []) [("y", VInt 3)]
    = _hash_args sample_hash ([VStr "x"] ++ VInt (0 + hash_modulus) :: [])
        [("y", VInt 3)].
Proof.
  assert (H1 : 0 ≤ 0) by discriminate.
  exact (conj H1
    (hash_args_merges_numbers sample_hash [VStr "x"] [] [("y", VInt 3)] 0 H1)).
Defined.

(** ** The least recently used key *)

(** The strictly oldest record of a tracker at the capacity is selected. *)
Lemma oldest_is_victim self z m ta :
  0 ≤ once_clean_size self →
  z !! m = Some ta →
  map_Forall (λ m' t, m' = m ∨ ta < t) z →
  m ∈ victims self z.
Proof.
  intros Hocs Hm Hold.
  destruct (decide (m ∈ victims self z)) as [|Hnin]; [done|]. exfalso.
  assert (Hlen : (1 ≤ length (victims self z))%nat).
  { rewrite victims_length.
    assert (0 < base.size z)%nat.
    { destruct (decide (z = ∅)) as [->|Hne]; [done|].
      apply map_size_non_empty_iff in Hne. lia. }
    lia. }
  destruct (victims self z) as [|m0 ms] eqn:Hv; [cbn in Hlen; lia|].
  assert (Hm0 : m0 ∈ victims self z) by (rewrite Hv; apply list_elem_of_here).
  destruct (elem_of_victims self z m0 Hm0) as (t0 & Hm0z & _).
  rewrite <-Hv in Hnin.
  pose proof (victims_oldest self z m0 t0 m ta Hm0 Hm0z Hnin Hm) as Hle.
  destruct (Hold m0 t0 Hm0z) as [->|Hlt]; [done|lia].
Qed.

(** X23: when the tracker is at the capacity, the assignment of another
    key evicts the key whose access record is the oldest: its entry is
    gone, a lookup finds nothing, and the new entry is stored. *)
Theorem least_recently_used_is_evicted (C : codec) self a k v s ta now now'
    (σ : store) z :
  constructed self →
  well_typed self σ = true →
  0 < max_size self →
  0 < expiration self →
  zset_at now σ (access_key self) = Ok z →
  max_size self ≤ Z.of_nat (base.size z) →
  z !! physical_key self a = Some ta →
  map_Forall (λ m t, m = physical_key self a ∨ ta < t) z →
  k ≠ a →
  json_dumps C v = Some s →
  ∃ σ', __setitem__ C self (Str k) v now σ = (σ', Ok tt)
    ∧ σ' !! physical_key self a = None
    ∧ GET now' σ' (physical_key self a) = Ok None
    ∧ σ' !! physical_key self k
      = Some {| rval := RString s;
                expire_at := Some (deadline now (expiration self)) |}.
Proof.
  intros Hself Hσ Hm Hexp Hz Hfull Ha Hold Hk Hdumps.
  pose proof (once_clean_size_nonneg self Hself ltac:(lia)) as Hocs.
  pose proof (zset_at_members now σ _ z (well_typed_access self σ Hσ) Hz) as Hmem.
  pose proof (oldest_is_victim self z _ ta Hocs Ha Hold) as Hvict.
  assert (Hne : physical_key self k ≠ physical_key self a)
    by (by intros ?%physical_key_inj).
  pose proof (setitem_eq C self k v now σ Hself Hσ Hocs Hexp) as Hset.
  rewrite Hdumps in Hset.
  pose proof (setitem_entry C self k v s now σ Hself Hσ Hocs Hexp Hdumps) as Hentry.
  rewrite Hset in Hentry. cbn [fst] in Hentry.
  assert (Hgone : (run now
      [SETEX (physical_key self k) (expiration self) s;
       ZADD (access_key self) now (physical_key self k);
       EXPIRE (access_key self) (expiration self);
       HINCRBY (stat_key self) SET 1;
       EXPIRE (stat_key self) EXPIRATION_STAT_KEY]
      (_ensure_room self now σ).1).1 !! physical_key self a = None).
  { rewrite run_untouched
      by (repeat constructor; cbn [cmd_key]; eauto with keys).
    rewrite ensure_room_eq by done. cbn zeta. rewrite Hmem.
    rewrite (proj2 (Z.ltb_ge _ _)) by lia. cbn [fst].
    rewrite run_lookup, entry_after_app.
    rewrite eviction_entry_victim by done.
    by rewrite entry_after_cons_ne by (cbn [cmd_key]; eauto with keys). }
  eexists. split; [exact Hset|]. split; [exact Hgone|]. split; [|exact Hentry].
  unfold GET, lookup_live. by rewrite Hgone.
Qed.

Lemma least_recently_used_is_evicted_witness :
  constructed d
  ∧ well_typed d full = true
  ∧ 0 < max_size d
  ∧ 0 < expiration d
  ∧ zset_at 40 full (access_key d) = Ok full_tracker
  ∧ max_size d ≤ Z.of_nat (base.size full_tracker)
  ∧ full_tracker !! physical_key d "a" = Some 10
  ∧ map_Forall (λ m t, m = physical_key d "a" ∨ 10 < t) full_tracker
  ∧ "e" ≠ "a"
  ∧ json_dumps int_codec (VInt 5) = Some "5"
  ∧ ∃ σ', __setitem__ int_codec d (Str "e") (VInt 5) 40 full = (σ', Ok tt)
      ∧ σ' !! physical_key d "a" = None
      ∧ GET 50 σ' (physical_key d "a") = Ok None
      ∧ σ' !! physical_key d "e"
        = Some {| rval := RString "5";
                  expire_at := Some (deadline 40 (expiration d)) |}.
Proof.
  assert (H1 : constructed d)
    by (exists (Some (Str "unique_key")), EmptyString; reflexivity).
  assert (H2 : well_typed d full = true) by (vm_compute; reflexivity).
  assert (H3 : 0 < max_size d) by reflexivity.
  assert (H4 : 0 < expiration d) by reflexivity.
  assert (H5 : zset_at 40 full (access_key d) = Ok full_tracker)
    by (vm_compute; reflexivity).
  assert (H6 : max_size d ≤ Z.of_nat (base.size full_tracker))
    by (vm_compute; discriminate).
  assert (H7 : full_tracker !! physical_key d "a" = Some 10)
    by (vm_compute; reflexivity).
  assert (H8 : map_Forall (λ m t, m = physical_key d "a" ∨ 10 < t) full_tracker).
  { apply map_Forall_to_list.
    assert (Hl : map_to_list full_tracker
                 = [(physical_key d "c", 30); (physical_key d "a", 10);
                    (physical_key d "b", 20)]) by (vm_compute; reflexivity).
    rewrite Hl.
    constructor; [right; reflexivity|].
    constructor; [left; reflexivity|].
    constructor; [right; reflexivity|]. constructor. }
  assert (H9 : "e" ≠ "a") by discriminate.
  assert (H10 : json_dumps int_codec (VInt 5) = Some "5") by reflexivity.
  exact (conj H1 (conj H2 (conj H3 (conj H4 (conj H5 (conj H6 (conj H7 (conj H8
    (conj H9 (conj H10
      (least_recently_used_is_evicted int_codec d "a" "e" (VInt 5) "5" 10 40 50
         full full_tracker H1 H2 H3 H4 H5 H6 H7 H8 H9 H10))))))))))).
Defined.

(** ** The quoted identity in the tracker and stat keys *)

Lemma all_bytes c : c ∈ (ascii_of_nat <$> seq 0 256).
Proof.
  rewrite <-(ascii_nat_embedding c). apply list_elem_of_fmap_2, elem_of_seq.
  pose proof (nat_ascii_bounded c). lia.
Qed.

(** No escape of one byte starts the escape of another, with either
    quote; checked over all pairs of bytes. *)
Lemma repr_byte_codes :
  forallb (λ q,
    forallb (λ c1,
      forallb (λ c2,
        Ascii.eqb c1 c2 || negb (String.prefix (repr_byte q c1) (repr_byte q c2)))
        (ascii_of_nat <$> seq 0 256))
      (ascii_of_nat <$> seq 0 256))
    [squote; dquote] = true.
Proof. vm_compute. reflexivity. Qed.

(** No escape starts with the quote. *)
Lemma repr_byte_heads :
  forallb (λ q,
    forallb (λ c,
      match repr_byte q c with
      | EmptyString => false
      | String c0 _ => negb (Ascii.eqb c0 q)
      end)
      (ascii_of_nat <$> seq 0 256))
    [squote; dquote] = true.
Proof. vm_compute. reflexivity. Qed.

Lemma repr_byte_prefix q c1 c2 :
  q = squote ∨ q = dquote →
  String.prefix (repr_byte q c1) (repr_byte q c2) = true → c1 = c2.
Proof.
  intros Hq Hp.
  pose proof repr_byte_codes as Hall.
  rewrite forallb_forall in Hall.
  assert (Hin : In q [squote; dquote]) by (destruct Hq as [-> | ->]; cbn; auto).
  specialize (Hall q Hin). rewrite forallb_forall in Hall.
  specialize (Hall c1 (proj1 (list_elem_of_In _ _) (all_bytes c1))).
  rewrite forallb_forall in Hall.
  specialize (Hall c2 (proj1 (list_elem_of_In _ _) (all_bytes c2))).
  rewrite Hp in Hall. cbn in Hall. rewrite orb_false_r in Hall.
  by apply Ascii.eqb_eq.
Qed.

Lemma repr_byte_head q c :
  q = squote ∨ q = dquote →
  ∃ c0 s, repr_byte q c = String c0 s ∧ c0 ≠ q.
Proof.
  intros Hq.
  pose proof repr_byte_heads as Hall.
  rewrite forallb_forall in Hall.
  assert (Hin : In q [squote; dquote]) by (destruct Hq as [-> | ->]; cbn; auto).
  specialize (Hall q Hin). rewrite forallb_forall in Hall.
  specialize (Hall c (proj1 (list_elem_of_In _ _) (all_bytes c))).
  destruct (repr_byte q c) as [|c0 s]; [done|].
  exists c0, s. split; [done|]. intros ->.
  by rewrite Ascii.eqb_refl in Hall.
Qed.

Lemma repr_byte_inj q c1 c2 r1 r2 :
  q = squote ∨ q = dquote →
  repr_byte q c1 +:+ r1 = repr_byte q c2 +:+ r2 → c1 = c2 ∧ r1 = r2.
Proof.
  intros Hq Heq.
  assert (Hc : c1 = c2).
  { destruct (string_app_eq_split _ _ _ _ Heq) as [r [[Hr _]|[Hr _]]].
    - apply (repr_byte_prefix q c1 c2 Hq). rewrite Hr. apply prefix_app.
    - symmetry. apply (repr_byte_prefix q c2 c1 Hq). rewrite Hr. apply prefix_app. }
  subst c2. split; [done|]. by apply (inj (String.app _)) in Heq.
Qed.

(** The body of a [repr] up to the closing quote determines the bytes. *)
Lemma repr_body_inj q b1 b2 t1 t2 :
  q = squote ∨ q = dquote →
  repr_body q b1 +:+ String q t1 = repr_body q b2 +:+ String q t2 → b1 = b2.
Proof.
  intros Hq. revert b2.
  induction b1 as [|c1 b1 IH]; intros [|c2 b2] Heq; cbn [repr_body] in Heq.
  - done.
  - exfalso. rewrite string_app_assoc in Heq.
    destruct (repr_byte_head q c2 Hq) as (c0 & s & Hc & Hne).
    rewrite Hc, app_cons in Heq.
    change (EmptyString +:+ String q t1) with (String q t1) in Heq.
    injection Heq as Heq _. by destruct Hne.
  - exfalso. rewrite string_app_assoc in Heq.
    destruct (repr_byte_head q c1 Hq) as (c0 & s & Hc & Hne).
    rewrite Hc, app_cons in Heq.
    change (EmptyString +:+ String q t2) with (String q t2) in Heq.
    injection Heq as Heq _. by destruct Hne.
  - rewrite !string_app_assoc in Heq.
    apply (repr_byte_inj q c1 c2 _ _ Hq) in Heq as [-> Heq].
    f_equal. by apply IH.
Qed.

Lemma repr_quote_cases b : repr_quote b = squote ∨ repr_quote b = dquote.
Proof. unfold repr_quote. case_match; auto. Qed.

(** ['{}'.format(b)] loses nothing of [b]. *)
Lemma bytes_repr_inj b1 b2 : bytes_repr b1 = bytes_repr b2 → b1 = b2.
Proof.
  unfold bytes_repr. intros Heq. injection Heq as Hq Heq.
  rewrite <-Hq in Heq.
  by apply (repr_body_inj _ b1 b2 EmptyString EmptyString (repr_quote_cases b1)).
Qed.

(** X24: the identity is quoted in the tracker key and in the stat key,
    and the quoting loses nothing: two caches with different identities
    have different tracker keys and different stat keys, and no tracker
    key is a stat key. *)
Theorem distinct_identities_have_distinct_trackers self1 self2 :
  constructed self1 →
  constructed self2 →
  unique_key self1 ≠ unique_key self2 →
  access_key self1 ≠ access_key self2
  ∧ stat_key self1 ≠ stat_key self2
  ∧ access_key self1 ≠ stat_key self2
  ∧ stat_key self1 ≠ access_key self2.
Proof.
  intros (Ha1 & Hs1 & _)%constructed_inv (Ha2 & Hs2 & _)%constructed_inv Hne.
  rewrite Ha1, Hs1, Ha2, Hs2.
  split; [|split; [|split]]; intros Heq.
  - apply (inj (String.app _)) in Heq. by apply Hne, bytes_repr_inj.
  - apply (inj (String.app _)) in Heq. by apply Hne, bytes_repr_inj.
  - by injection Heq.
  - by injection Heq.
Qed.

Lemma distinct_identities_have_distinct_trackers_witness :
  constructed d
  ∧ constructed d_colon
  ∧ unique_key d ≠ unique_key d_colon
  ∧ access_key d ≠ access_key d_colon
  ∧ stat_key d ≠ stat_key d_colon
  ∧ access_key d ≠ stat_key d_colon
  ∧ stat_key d ≠ access_key d_colon.
Proof.
  assert (H1 : constructed d)
    by (exists (Some (Str "unique_key")), EmptyString; reflexivity).
  assert (H2 : constructed d_colon)
    by (exists (Some (Str "unique_key:")), EmptyString; reflexivity).
  assert (H3 : unique_key d ≠ unique_key d_colon) by discriminate.
  exact (conj H1 (conj H2 (conj H3
    (distinct_identities_have_distinct_trackers d d_colon H1 H2 H3)))).
Defined.

(** ** The key of a decorated call *)

Lemma hex_digit_inj a b :
  (a < 16)%N → (b < 16)%N → hex_digit a = hex_digit b → a = b.
Proof.
  intros Ha Hb. unfold hex_digit.
  remember (N.to_nat a) as x eqn:Hx. remember (N.to_nat b) as y eqn:Hy.
  assert (Hx16 : (x < 16)%nat) by lia. assert (Hy16 : (y < 16)%nat) by lia.
  intros Heq. assert (x = y); [|lia]. clear Hx Hy Ha Hb.
  do 16 (destruct x as [|x];
         [do 16 (destruct y as [|y]; [done || discriminate Heq|]); lia|]).
  lia.
Qed.

Lemma hex_aux_length fuel n acc :
  (String.length acc ≤ String.length (hex_of_N_aux fuel n acc))%nat.
Proof.
  revert n acc. induction fuel as [|fuel IH]; intros n acc; cbn [hex_of_N_aux]; [lia|].
  case_match; [cbn; lia|].
  etrans; [|apply IH]. cbn. lia.
Qed.

Lemma hex_aux_longer fuel n acc :
  (String.length acc < String.length (hex_of_N_aux (S fuel) n acc))%nat.
Proof.
  cbn [hex_of_N_aux]. case_match; [cbn; lia|].
  eapply Nat.lt_le_trans; [|apply hex_aux_length]. cbn. lia.
Qed.

(** With enough fuel the digits determine the number. *)
Lemma hex_aux_inj f1 f2 n1 n2 acc1 acc2 :
  (n1 < 2 ^ N.of_nat (S f1))%N → (n2 < 2 ^ N.of_nat (S f2))%N →
  String.length acc1 = String.length acc2 →
  hex_of_N_aux (S f1) n1 acc1 = hex_of_N_aux (S f2) n2 acc2 →
  n1 = n2 ∧ acc1 = acc2.
Proof.
  revert f2 n1 n2 acc1 acc2.
  induction f1 as [f1 IH] using lt_wf_ind.
  intros f2 n1 n2 acc1 acc2 H1 H2 Hlen.
  assert (Hstep : ∀ f n, (n / 16 ≠ 0)%N → (n < 2 ^ N.of_nat (S f))%N →
            ∃ f', f = S f' ∧ (n / 16 < 2 ^ N.of_nat (S f'))%N).
  { intros f n Hn Hlt.
    assert (16 ≤ n)%N.
    { destruct (N.lt_ge_cases n 16) as [Hs|]; [|done].
      by rewrite N.div_small in Hn. }
    destruct f as [|f'].
    - change (2 ^ N.of_nat 1)%N with 2%N in Hlt. lia.
    - exists f'. split; [done|].
      apply N.Div0.div_lt_upper_bound.
      replace (N.of_nat (S (S f'))) with (N.succ (N.of_nat (S f'))) in Hlt by lia.
      rewrite N.pow_succ_r' in Hlt. lia. }
  cbn [hex_of_N_aux].
  destruct (n1 / 16 =? 0)%N eqn:Hd1; destruct (n2 / 16 =? 0)%N eqn:Hd2.
  - apply N.eqb_eq in Hd1, Hd2. intros [= Hdig ->].
    apply N.div_small_iff in Hd1, Hd2; [|done..].
    rewrite !N.mod_small in Hdig by done.
    split; [|done]. by apply hex_digit_inj.
  - apply N.eqb_neq in Hd2.
    destruct (Hstep f2 n2 Hd2 H2) as (f2' & -> & _).
    intros Heq. exfalso.
    pose proof (hex_aux_longer f2' (n2 / 16)
                  (String (hex_digit (n2 mod 16)) acc2)) as Hl.
    rewrite <-Heq in Hl. cbn in Hl. lia.
  - apply N.eqb_neq in Hd1.
    destruct (Hstep f1 n1 Hd1 H1) as (f1' & -> & _).
    intros Heq. exfalso.
    pose proof (hex_aux_longer f1' (n1 / 16)
                  (String (hex_digit (n1 mod 16)) acc1)) as Hl.
    rewrite Heq in Hl. cbn in Hl. lia.
  - apply N.eqb_neq in Hd1, Hd2.
    destruct (Hstep f1 n1 Hd1 H1) as (f1' & -> & H1').
    destruct (Hstep f2 n2 Hd2 H2) as (f2' & -> & H2').
    intros Heq.
    assert (Hlen' : String.length (String (hex_digit (n1 mod 16)) acc1)
                    = String.length (String (hex_digit (n2 mod 16)) acc2))
      by (cbn; lia).
    destruct (IH f1' ltac:(lia) f2' _ _ _ _ H1' H2' Hlen' Heq)
      as [Hdiv [= Hdig ->]].
    split; [|done].
    assert (Hmod : (n1 mod 16 = n2 mod 16)%N).
    { apply hex_digit_inj; [by apply N.mod_lt..|done]. }
    rewrite (N.div_mod n1 16), (N.div_mod n2 16) by done. by rewrite Hdiv, Hmod.
Qed.

Lemma hex_fuel n : (n < 2 ^ N.of_nat (S (N.to_nat (N.log2 n))))%N.
Proof.
  replace (N.of_nat (S (N.to_nat (N.log2 n)))) with (N.succ (N.log2 n)) by lia.
  destruct (N.eq_dec n 0%N) as [->|Hne]; [done|].
  apply N.log2_spec. lia.
Qed.

Lemma hex_inj a b : hex a = hex b → a = b.
Proof.
  unfold hex. intros Heq.
  destruct (a <? 0) eqn:Ha; destruct (b <? 0) eqn:Hb; try done.
  - injection Heq as Heq.
    apply hex_aux_inj in Heq as [Heq _]; [|apply hex_fuel..|done].
    apply Z.ltb_lt in Ha, Hb. lia.
  - injection Heq as Heq.
    apply hex_aux_inj in Heq as [Heq _]; [|apply hex_fuel..|done].
    apply Z.ltb_ge in Ha, Hb. lia.
Qed.

(** X25: within one cache two decorated calls use the same entry key only
    when the hashes of their arguments are equal: the key that [inner]
    forms with [hex] loses nothing of the hash. *)
Theorem distinct_hashes_get_distinct_keys self h1 h2 :
  physical_key self (encode (hex h1)) = physical_key self (encode (hex h2)) ↔ h1 = h2.
Proof.
  split; [|by intros ->].
  unfold encode. by intros Heq%physical_key_inj%hex_inj.
Qed.

(** ** A hit protects a key *)

(** The newest record of a tracker with more records than an eviction
    pass selects is not selected. *)
Lemma newest_is_no_victim self z m t :
  0 ≤ once_clean_size self →
  z !! m = Some t →
  map_Forall (λ m' t', m' = m ∨ t' < t) z →
  once_clean_size self + 1 < Z.of_nat (base.size z) →
  m ∉ victims self z.
Proof.
  intros Hocs Hm Hnew Hmany Hin.
  set (n := Z.to_nat (once_clean_size self + 1)).
  pose proof (zsorted_nodup z) as Hnd.
  rewrite <-(take_drop n (zsorted z)), fmap_app in Hnd.
  apply NoDup_app in Hnd as (_ & Hdisj & _).
  destruct (drop n (zsorted z)) as [|[m' t'] rest] eqn:Hdrop.
  { apply (f_equal length) in Hdrop. rewrite length_drop, length_zsorted in Hdrop.
    cbn in Hdrop. lia. }
  assert (Hm' : z !! m' = Some t').
  { apply elem_of_zsorted. rewrite <-(take_drop n (zsorted z)), Hdrop.
    apply elem_of_app. right. apply list_elem_of_here. }
  assert (Hout : m' ∉ victims self z).
  { rewrite victims_alt. intros Hv. apply (Hdisj m' Hv). cbn. apply list_elem_of_here. }
  pose proof (victims_oldest self z m t m' t' Hin Hm Hout Hm') as Hle.
  destruct (Hnew m' t' Hm') as [->|Hlt]; [done|lia].
Qed.

(** X26: a hit makes a key the most recently used one: when every other
    record of the tracker is older than the hit and the tracker holds
    more records than one eviction pass removes, the next assignment of
    another key leaves the entry in place, full tracker or not. *)
Theorem recently_used_survives_eviction (C : codec) self a k v s s' w dl
    now now2 (σ : store) z :
  constructed self →
  well_typed self σ = true →
  0 < max_size self →
  0 < expiration self →
  σ !! physical_key self a = Some {| rval := RString s; expire_at := Some dl |} →
  now ≤ dl →
  json_loads C s = Some w →
  zset_at now σ (access_key self) = Ok z →
  map_Forall (λ m t, m = physical_key self a ∨ t < now) z →
  once_clean_size self + 1 < Z.of_nat (base.size z) →
  k ≠ a →
  json_dumps C v = Some s' →
  now2 ≤ deadline now (expiration self) →
  ∃ σ1 σ2,
    __getitem__ C self (Str a) now σ = (σ1, Ok w)
    ∧ __setitem__ C self (Str k) v now2 σ1 = (σ2, Ok tt)
    ∧ σ2 !! physical_key self a
      = Some {| rval := RString s; expire_at := Some dl |}.
Proof.
  intros Hself Hσ Hmax Hexp Hent Hlive Hloads Hz Hold Hmany Hk Hdumps Hnow2.
  pose proof (once_clean_size_nonneg self Hself ltac:(lia)) as Hocs.
  pose proof (zset_at_members now σ _ z (well_typed_access self σ Hσ) Hz) as Hmem.
  pose proof (physical_key_ne_access self a Hself) as Hacc.
  pose proof (physical_key_ne_stat self a Hself) as Hstat.
  assert (Hne : physical_key self k ≠ physical_key self a)
    by (by intros ?%physical_key_inj).
  assert (Hget : GET now σ (physical_key self a) = Ok (Some s)).
  { rewrite (get_entry now σ _ s dl Hent). by rewrite (proj2 (Z.leb_le _ _)). }
  pose proof (getitem_hit C self a s w now σ Hself Hσ Hget Hloads) as Hhit.
  pose proof (getitem_well_typed C self a now σ Hself Hσ) as Hσ1.
  rewrite Hhit in Hσ1. cbn [fst] in Hσ1.
  set (σ1 := (run now _ σ).1) in *.
  assert (Hent1 : σ1 !! physical_key self a = σ !! physical_key self a).
  { apply run_untouched. repeat constructor; cbn [cmd_key]; congruence. }
  set (z1 := <[physical_key self a := now]> z).
  assert (Hz1 : members_of (alive now2 (σ1 !! access_key self)) = z1).
  { unfold σ1. rewrite run_lookup. entry_steps.
    rewrite zadd_expire by (by (apply well_typed_access) || done).
    rewrite Hmem. unfold alive, live. cbn [expire_at].
    by rewrite (proj2 (Z.leb_le _ _) Hnow2). }
  assert (Hsafe : physical_key self a ∉ victims self z1).
  { apply (newest_is_no_victim self z1 _ now Hocs).
    - apply lookup_insert_eq.
    - intros m t Hmt. destruct (decide (m = physical_key self a)) as [|Hm]; [by left|].
      unfold z1 in Hmt. rewrite lookup_insert_ne in Hmt by done.
      destruct (Hold m t Hmt) as [|]; [done|by right].
    - unfold z1. rewrite map_size_insert. case_match; unfold id; lia. }
  pose proof (setitem_eq C self k v now2 σ1 Hself Hσ1 Hocs Hexp) as Hset.
  rewrite Hdumps in Hset.
  exists σ1. eexists. split; [exact Hhit|]. split; [exact Hset|].
  rewrite run_untouched by (repeat constructor; cbn [cmd_key]; congruence).
  rewrite ensure_room_eq by done. cbn zeta. rewrite Hz1.
  destruct (Z.of_nat (base.size z1) <? max_size self); cbn [fst].
  - by rewrite Hent1.
  - rewrite run_lookup, entry_after_app.
    rewrite eviction_entry_other by done.
    rewrite entry_after_cons_ne by (cbn [cmd_key]; congruence).
    cbn [entry_after]. by rewrite Hent1.
Qed.

Lemma recently_used_survives_eviction_witness :
  constructed d
  ∧ well_typed d full = true
  ∧ 0 < max_size d
  ∧ 0 < expiration d
  ∧ full !! physical_key d "a"
    = Some {| rval := RString "1"; expire_at := Some 1000010 |}
  ∧ 40 ≤ 1000010
  ∧ json_loads int_codec "1" = Some (VInt 1)
  ∧ zset_at 40 full (access_key d) = Ok full_tracker
  ∧ map_Forall (λ m t, m = physical_key d "a" ∨ t < 40) full_tracker
  ∧ once_clean_size d + 1 < Z.of_nat (base.size full_tracker)
  ∧ "e" ≠ "a"
  ∧ json_dumps int_codec (VInt 5) = Some "5"
  ∧ 50 ≤ deadline 40 (expiration d)
  ∧ ∃ σ1 σ2,
      __getitem__ int_codec d (Str "a") 40 full = (σ1, Ok (VInt 1))
      ∧ __setitem__ int_codec d (Str "e") (VInt 5) 50 σ1 = (σ2, Ok tt)
      ∧ σ2 !! physical_key d "a"
        = Some {| rval := RString "1"; expire_at := Some 1000010 |}.
Proof.
  assert (H1 : constructed d)
    by (exists (Some (Str "unique_key")), EmptyString; reflexivity).
  assert (H2 : well_typed d full = true) by (vm_compute; reflexivity).
  assert (H3 : 0 < max_size d) by reflexivity.
  assert (H4 : 0 < expiration d) by reflexivity.
  assert (H5 : full !! physical_key d "a"
               = Some {| rval := RString "1"; expire_at := Some 1000010 |})
    by (vm_compute; reflexivity).
  assert (H6 : 40 ≤ 1000010) by discriminate.
  assert (H7 : json_loads int_codec "1" = Some (VInt 1)) by reflexivity.
  assert (H8 : zset_at 40 full (access_key d) = Ok full_tracker)
    by (vm_compute; reflexivity).
  assert (H9 : map_Forall (λ m t, m = physical_key d "a" ∨ t < 40) full_tracker).
  { apply map_Forall_to_list.
    assert (Hl : map_to_list full_tracker
                 = [(physical_key d "c", 30); (physical_key d "a", 10);
                    (physical_key d "b", 20)]) by (vm_compute; reflexivity).
    rewrite Hl.
    constructor; [right; reflexivity|].
    constructor; [left; reflexivity|].
    constructor; [right; reflexivity|]. constructor. }
  assert (H10 : once_clean_size d + 1 < Z.of_nat (base.size full_tracker))
    by (vm_compute; reflexivity).
  assert (H11 : "e" ≠ "a") by discriminate.
  assert (H12 : json_dumps int_codec (VInt 5) = Some "5") by reflexivity.
  assert (H13 : 50 ≤ deadline 40 (expiration d)) by discriminate.
  exact (conj H1 (conj H2 (conj H3 (conj H4 (conj H5 (conj H6 (conj H7 (conj H8
    (conj H9 (conj H10 (conj H11 (conj H12 (conj H13
      (recently_used_survives_eviction int_codec d "a" "e" (VInt 5) "1" "5" (VInt 1)
         1000010 40 50 full full_tracker
         H1 H2 H3 H4 H5 H6 H7 H8 H9 H10 H11 H12 H13)))))))))))))).
Defined.

(** ** Two calls of a decorated function *)

Lemma hex_digit_ascii n : (N_of_ascii (hex_digit n) <? 0x80)%N = true.
Proof.
  unfold hex_digit. destruct (N.to_nat n) as [|x]; [reflexivity|].
  do 15 (destruct x as [|x]; [reflexivity|]). reflexivity.
Qed.

Lemma hex_aux_valid fuel n acc :
  utf8_run U_start acc = Some U_start →
  utf8_run U_start (hex_of_N_aux fuel n acc) = Some U_start.
Proof.
  revert n acc. induction fuel as [|fuel IH]; intros n acc Hacc; [done|].
  cbn [hex_of_N_aux].
  assert (Hstep : utf8_run U_start (String (hex_digit (n mod 16)) acc) = Some U_start).
  { cbn [utf8_run utf8_step]. by rewrite hex_digit_ascii. }
  case_match; [done|]. by apply IH.
Qed.

(** The key of a decorated call is text. *)
Lemma hex_valid h : utf8_valid (hex h) = true.
Proof.
  unfold hex. apply utf8_valid_app; [by destruct (h <? 0)|].
  unfold utf8_valid. by rewrite hex_aux_valid.
Qed.

Lemma alive_later now now' o :
  alive now o = None → now ≤ now' → alive now' o = None.
Proof.
  unfold alive, live. destruct o as [[rv [dl|]]|]; cbn; [|done..].
  destruct (now <=? dl) eqn:Hl; [done|]. intros _ Hle.
  apply Z.leb_gt in Hl. by rewrite (proj2 (Z.leb_gt _ _)) by lia.
Qed.

(** After a lookup that raised KeyError the key has no live entry, then
    and later. *)
Lemma key_error_leaves_no_entry (C : codec) self k miss now now' (σ : store) :
  constructed self →
  well_typed self σ = true →
  (__getitem__ C self (Str k) now σ).2 = Raise (KeyError miss) →
  now ≤ now' →
  GET now' (__getitem__ C self (Str k) now σ).1 (physical_key self k) = Ok None.
Proof.
  intros Hself Hσ Hmiss Hle.
  assert (Hnone : ∀ σ' : store, alive now' (σ' !! physical_key self k) = None →
            GET now' σ' (physical_key self k) = Ok None).
  { intros σ' Hdead. unfold GET, lookup_live. by rewrite Hdead. }
  destruct (GET now σ (physical_key self k)) as [[raw|]|e] eqn:Hget.
  - destruct (json_loads C raw) as [w|] eqn:Hloads.
    + by rewrite (getitem_hit C self k raw w now σ Hself Hσ Hget Hloads) in Hmiss.
    + rewrite (getitem_undecodable_eq C self k raw now σ Hself Hσ Hget Hloads).
      cbn [fst]. apply Hnone. rewrite run_lookup. by entry_steps.
  - rewrite (getitem_miss_eq C self k now σ Hself Hσ Hget). cbn [fst].
    apply Hnone.
    rewrite run_untouched
      by (repeat constructor; cbn [cmd_key]; eauto with keys).
    apply (alive_later now); [|done].
    unfold GET, lookup_live in Hget.
    destruct (alive now (σ !! physical_key self k)) as [[[?|?|?] ?]|]; done.
  - exfalso. unfold __getitem__ in Hmiss. rewrite joint_key_str in Hmiss.
    unfold encode in Hmiss. rewrite Hget in Hmiss. cbn [snd] in Hmiss.
    injection Hmiss as ->.
    unfold GET in Hget. repeat case_match; done.
Qed.

(** C5, amended: without typed mode, in a cache with a positive expiry,
    for hashable arguments whose first lookup is a miss.  (a) When the
    result [v] of the function encodes to [s], which decodes to [w]: the
    first call invokes the function once and returns [v]; a second call
    with the same arguments, no later than [expiration] seconds after
    the first call stored the result, returns [w] and does not invoke
    the function: one invocation across both calls.  (b) When the
    serializer rejects the result: the first call returns it all the
    same, DUMPS_ERROR is counted once and nothing is stored under the
    key; a second call at any later clock reading finds no entry and
    invokes the function again: two invocations across both calls (for
    an identity that is text). *)
Theorem second_call_is_served_from_cache (H : hash_impl) (C : codec) self
    g1 g2 g1' g2' args kwargs h miss now1 now1' now2 now2' (σ : store) (n : nat) :
  constructed self →
  well_typed self σ = true →
  0 ≤ max_size self →
  0 < expiration self →
  _hash_args H args kwargs = Ok h →
  (__getitem__ C self (Str (hex h)) now1 σ).2 = Raise (KeyError miss) →
  (∀ func s w,
     json_dumps C (call func args kwargs) = Some s →
     json_loads C s = Some w →
     now2 ≤ deadline now1' (expiration self) →
     let r1 := inner H C false self func g1 g2 args kwargs now1 now1' (σ, n) in
     let r2 := inner H C false self func g1' g2' args kwargs now2 now2' r1.1 in
     r1.2 = Ok (call func args kwargs) ∧ r1.1.2 = S n
     ∧ r2.2 = Ok w ∧ r2.1.2 = S n)
  ∧ (∀ func,
     json_dumps C (call func args kwargs) = None →
     utf8_valid (unique_key self) = true →
     now1 ≤ now2 →
     let σ1 := (__getitem__ C self (Str (hex h)) now1 σ).1 in
     let r1 := inner H C false self func g1 g2 args kwargs now1 now1' (σ, n) in
     let r2 := inner H C false self func g1' g2' args kwargs now2 now2' r1.1 in
     r1.2 = Ok (call func args kwargs) ∧ r1.1.2 = S n
     ∧ counter self now1' r1.1.1 DUMPS_ERROR = counter self now1' σ1 DUMPS_ERROR + 1
     ∧ r1.1.1 !! physical_key self (hex h) = σ1 !! physical_key self (hex h)
     ∧ GET now2 r1.1.1 (physical_key self (hex h)) = Ok None
     ∧ r2.2 = Ok (call func args kwargs) ∧ r2.1.2 = S (S n)).
Proof.
  intros Hself Hσ Hm Hexp Hh Hmiss.
  pose proof (once_clean_size_nonneg self Hself Hm) as Hocs.
  pose proof (getitem_well_typed C self (hex h) now1 σ Hself Hσ) as Hσ1.
  split.
  - intros func s w Hdumps Hloads Hnow. cbn zeta.
    destruct (__getitem__ C self (Str (hex h)) now1 σ) as [σ1 r] eqn:Hget.
    cbn [fst snd] in *. subst r.
    destruct (set_then_get C self (hex h) (call func args kwargs) s w now1' now2 σ1
                Hself Hσ1 Hm Hexp Hdumps Hloads Hnow) as [Hset Hhit].
    destruct (__setitem__ C self (Str (hex h)) (call func args kwargs) now1' σ1)
      as [σ2 r2] eqn:Hset2.
    cbn [fst snd] in *. subst r2.
    assert (Hr1 : inner H C false self func g1 g2 args kwargs now1 now1' (σ, n)
                  = ((σ2, S n), Ok (call func args kwargs))).
    { unfold inner. rewrite Hh. cbn [fst snd]. by rewrite Hget, Hset2. }
    rewrite Hr1. cbn [fst snd].
    split; [done|]. split; [done|].
    unfold inner. rewrite Hh. cbn [fst snd].
    destruct (__getitem__ C self (Str (hex h)) now2 σ2) as [σ3 r3].
    cbn [fst snd] in *. by subst r3.
  - intros func Hdumps Huk Hlater. cbn zeta.
    pose proof (key_error_leaves_no_entry C self (hex h) miss now1 now2 σ
                  Hself Hσ Hmiss Hlater) as Hdead.
    destruct (__getitem__ C self (Str (hex h)) now1 σ) as [σ1 r] eqn:Hget.
    cbn [fst snd] in *. subst r.
    set (v := call func args kwargs) in *.
    set (cmds := [HINCRBY (stat_key self) DUMPS_ERROR 1;
                  EXPIRE (stat_key self) EXPIRATION_STAT_KEY]).
    pose proof (setitem_eq C self (hex h) v now1' σ1 Hself Hσ1 Hocs Hexp) as Hset.
    rewrite Hdumps in Hset. fold cmds in Hset.
    set (σ2 := (run now1' cmds σ1).1) in *.
    assert (Hσ2 : well_typed self σ2 = true)
      by (apply (run_respects now1' _ self σ1 Hself Hσ1); by repeat constructor).
    assert (Hkeep : σ2 !! physical_key self (hex h) = σ1 !! physical_key self (hex h)).
    { apply run_untouched.
      repeat constructor; cbn [cmd_key]; eauto with keys. }
    assert (Hr1 : inner H C false self func g1 g2 args kwargs now1 now1' (σ, n)
                  = ((σ2, S n), Ok v)).
    { unfold inner. rewrite Hh. cbn [fst snd]. fold v. by rewrite Hget, Hset. }
    rewrite Hr1. cbn [fst snd].
    assert (Hget2 : GET now2 σ2 (physical_key self (hex h)) = Ok None).
    { unfold GET, lookup_live in *. by rewrite Hkeep. }
    split; [done|]. split; [done|]. split; [|split; [done|split; [done|]]].
    + rewrite !counter_typed by eauto using well_typed_stat.
      unfold σ2. rewrite run_lookup. unfold cmds. entry_steps.
      rewrite stat_bump by (by apply well_typed_stat). rewrite alive_stat_bumped.
      cbn [fields_of]. by rewrite lookup_insert_eq.
    + destruct (getitem_miss C self (hex h) now2 σ2 Hself Hσ2 Huk (hex_valid h) Hget2)
        as [real_key Hmiss2].
      set (σ3 := (run now2 _ σ2).1) in *.
      assert (Hσ3 : well_typed self σ3 = true)
        by (apply (run_respects now2 _ self σ2 Hself Hσ2); by repeat constructor).
      pose proof (setitem_eq C self (hex h) v now2' σ3 Hself Hσ3 Hocs Hexp) as Hset3.
      rewrite Hdumps in Hset3.
      unfold inner. rewrite Hh. cbn [fst snd]. fold v.
      by rewrite Hmiss2, Hset3.
Qed.

Lemma second_call_is_served_from_cache_witness :
  constructed d
  ∧ well_typed d ∅ = true
  ∧ 0 ≤ max_size d
  ∧ 0 < expiration d
  ∧ _hash_args sample_hash [VInt 1] [] = Ok (-2198285614706559296)
  ∧ (__getitem__ int_codec d (Str (hex (-2198285614706559296))) 0 ∅).2
    = Raise (KeyError (Str "-0x1e81e11e9b6f8940"))
  ∧ (json_dumps int_codec (call first_arg [VInt 1] []) = Some "1"
     ∧ json_loads int_codec "1" = Some (VInt 1)
     ∧ 5 ≤ deadline 1 (expiration d)
     ∧ let r1 := inner sample_hash int_codec false d first_arg 0 0 [VInt 1] []
                   0 1 (∅, 0%nat) in
       let r2 := inner sample_hash int_codec false d first_arg 0 0 [VInt 1] []
                   5 6 r1.1 in
       r1.2 = Ok (call first_arg [VInt 1] []) ∧ r1.1.2 = 1%nat
       ∧ r2.2 = Ok (VInt 1) ∧ r2.1.2 = 1%nat)
  ∧ (json_dumps int_codec (call raw_bytes [VInt 1] []) = None
     ∧ utf8_valid (unique_key d) = true
     ∧ 0 ≤ 5
     ∧ let σ1 := (__getitem__ int_codec d (Str (hex (-2198285614706559296))) 0 ∅).1 in
       let r1 := inner sample_hash int_codec false d raw_bytes 0 0 [VInt 1] []
                   0 1 (∅, 0%nat) in
       let r2 := inner sample_hash int_codec false d raw_bytes 0 0 [VInt 1] []
                   5 6 r1.1 in
       r1.2 = Ok (call raw_bytes [VInt 1] []) ∧ r1.1.2 = 1%nat
       ∧ counter d 1 r1.1.1 DUMPS_ERROR = counter d 1 σ1 DUMPS_ERROR + 1
       ∧ r1.1.1 !! physical_key d (hex (-2198285614706559296))
         = σ1 !! physical_key d (hex (-2198285614706559296))
       ∧ GET 5 r1.1.1 (physical_key d (hex (-2198285614706559296))) = Ok None
       ∧ r2.2 = Ok (call raw_bytes [VInt 1] []) ∧ r2.1.2 = 2%nat).
Proof.
  assert (H1 : constructed d)
    by (exists (Some (Str "unique_key")), EmptyString; reflexivity).
  assert (H2 : well_typed d ∅ = true) by reflexivity.
  assert (H3 : 0 ≤ max_size d) by discriminate.
  assert (H4 : 0 < expiration d) by reflexivity.
  assert (H5 : _hash_args sample_hash [VInt 1] [] = Ok (-2198285614706559296))
    by (vm_compute; reflexivity).
  assert (H6 : (__getitem__ int_codec d (Str (hex (-2198285614706559296))) 0 ∅).2
               = Raise (KeyError (Str "-0x1e81e11e9b6f8940")))
    by (vm_compute; reflexivity).
  assert (H7 : json_dumps int_codec (call first_arg [VInt 1] []) = Some "1")
    by (vm_compute; reflexivity).
  assert (H8 : json_loads int_codec "1" = Some (VInt 1)) by reflexivity.
  assert (H9 : 5 ≤ deadline 1 (expiration d)) by discriminate.
  assert (H10 : json_dumps int_codec (call raw_bytes [VInt 1] []) = None)
    by reflexivity.
  assert (H11 : utf8_valid (unique_key d) = true) by reflexivity.
  assert (H12 : 0 ≤ 5) by discriminate.
  exact (conj H1 (conj H2 (conj H3 (conj H4 (conj H5 (conj H6
    (match second_call_is_served_from_cache sample_hash int_codec d
             0 0 0 0 [VInt 1] [] (-2198285614706559296) (Str "-0x1e81e11e9b6f8940")
             0 1 5 6 ∅ 0%nat H1 H2 H3 H4 H5 H6 with
     | conj HA HB =>
         conj (conj H7 (conj H8 (conj H9 (HA first_arg "1" (VInt 1) H7 H8 H9))))
              (conj H10 (conj H11 (conj H12 (HB raw_bytes H10 H11 H12))))
     end))))))).
Defined.
